(** * A Rao-Blackwellised particle filter driven by a Gamma subordinator

    Shallow embedding of [gamma_proc.py] (the subordinator path simulator
    [gen_gamma_process]) and of [src/particlefilter.py] (the helper
    [logsumexp], the class [LangevinParticle] and the class [RBPF]) and of
    the loop of the driver script [src/test.py], and the properties of the
    population engine stated over it.

    Numbers.  A numpy float is a value of [float64]: a real number or one
    of the three special values of IEEE arithmetic.  The special values
    follow IEEE (division by zero, logarithm of zero, [inf - inf], NaN
    absorbing, comparisons with NaN false); on finite values the
    operations are the exact operations of the reals, so rounding,
    overflow and underflow of finite results are outside the model, and
    there is one zero, taken as the positive one.

    Objects.  Particles are Python objects and their means, covariances and
    state samples are numpy arrays; both live in a store and are named by
    references, so that [copy.copy] copies references.

    Randomness and the code of the repository that is not in these files
    ([process.py], [functions.py]) enter through the interfaces [Numpy] and
    [Process]. *)

From Stdlib Require Import Reals Lra Lia ZArith List Sorted.
From stdpp Require Import base list.
Import ListNotations.
Open Scope R_scope.

(** ** Floating-point values *)

Inductive float64 : Type :=
| Fin (r : R)
| PInf
| NInf
| NaN.


(** The infinity of a given sign. *)
Definition inf_of (positive : bool) : float64 :=
  if positive then PInf else NInf.

Definition fneg (x : float64) : float64 :=
  match x with
  | Fin r => Fin (- r)
  | PInf => NInf
  | NInf => PInf
  | NaN => NaN
  end.

Definition fadd (x y : float64) : float64 :=
  match x, y with
  | NaN, _ | _, NaN => NaN
  | Fin a, Fin b => Fin (a + b)
  | PInf, NInf | NInf, PInf => NaN
  | PInf, _ | _, PInf => PInf
  | NInf, _ | _, NInf => NInf
  end.

Definition fsub (x y : float64) : float64 := fadd x (fneg y).

(** [inf * 0] is NaN; otherwise the sign of the product. *)
Definition fmul_inf (positive : bool) (r : R) : float64 :=
  if Req_dec_T r 0 then NaN
  else if Rlt_dec 0 r then inf_of positive else inf_of (negb positive).

Definition fmul (x y : float64) : float64 :=
  match x, y with
  | NaN, _ | _, NaN => NaN
  | Fin a, Fin b => Fin (a * b)
  | PInf, Fin b | Fin b, PInf => fmul_inf true b
  | NInf, Fin b | Fin b, NInf => fmul_inf false b
  | PInf, PInf | NInf, NInf => PInf
  | PInf, NInf | NInf, PInf => NInf
  end.

(** numpy's true division: [0/0] is NaN and [x/0] an infinity, with a
    warning and no exception. *)
Definition fdiv (x y : float64) : float64 :=
  match x, y with
  | NaN, _ | _, NaN => NaN
  | Fin a, Fin b =>
      if Req_dec_T b 0 then
        if Req_dec_T a 0 then NaN
        else if Rlt_dec 0 a then PInf else NInf
      else Fin (a / b)
  | Fin _, PInf | Fin _, NInf => Fin 0
  | PInf, Fin b => if Rlt_dec b 0 then NInf else PInf
  | NInf, Fin b => if Rlt_dec b 0 then PInf else NInf
  | PInf, PInf | PInf, NInf | NInf, PInf | NInf, NInf => NaN
  end.

(** [np.exp]. *)
Definition fexp (x : float64) : float64 :=
  match x with
  | Fin r => Fin (exp r)
  | PInf => PInf
  | NInf => Fin 0
  | NaN => NaN
  end.

(** [np.log]: [-inf] at zero and NaN below, with a warning. *)
Definition flog (x : float64) : float64 :=
  match x with
  | Fin r =>
      if Rlt_dec 0 r then Fin (ln r)
      else if Req_dec_T r 0 then NInf else NaN
  | PInf => PInf
  | NInf => NaN
  | NaN => NaN
  end.

(** [np.square]. *)
Definition fsquare (x : float64) : float64 := fmul x x.

(** The comparison [x < y]; false as soon as one side is NaN. *)
Definition flt (x y : float64) : bool :=
  match x, y with
  | NaN, _ | _, NaN => false
  | Fin a, Fin b => if Rlt_dec a b then true else false
  | NInf, Fin _ | NInf, PInf | Fin _, PInf => true
  | _, _ => false
  end.

(** The largest finite double, [(2 - 2^-52) * 2^1023]. *)
Definition DBL_MAX : R := (2 - / 2 ^ 52) * 2 ^ 1023.

(** [np.nan_to_num]: NaN becomes zero and the infinities the largest
    finite values. *)
Definition nan_to_num (x : float64) : float64 :=
  match x with
  | Fin r => Fin r
  | PInf => Fin DBL_MAX
  | NInf => Fin (- DBL_MAX)
  | NaN => Fin 0
  end.

(** [np.sum] of a one-dimensional array. *)
Definition np_sum (xs : list float64) : float64 :=
  fold_right fadd (Fin 0) xs.

(** One step of the maximum reduction of [np.max], which propagates NaN. *)
Definition fmax (x y : float64) : float64 :=
  match x, y with
  | NaN, _ | _, NaN => NaN
  | _, _ => if flt x y then y else x
  end.



(** ** Exceptions and results *)

(** The exceptions a run can end with.  [ValidationError],
    [NumericInstabilityError] and [ExhaustionError] are the error classes
    the specification names; the source defines and raises none of them.
    [DanglingReference] is not a Python exception: it is the result of
    following a reference that is not in the store, which no state built by
    the program contains. *)
Inductive exn : Type :=
| ValueError
| IndexError
| KeyError
| StopIteration
| LinAlgError
| ValidationError
| NumericInstabilityError
| ExhaustionError
| DanglingReference.

Inductive outcome (A : Type) : Type :=
| Ok (a : A)
| Raise (e : exn).

Arguments Ok {A} a.
Arguments Raise {A} e.

(** [np.max]: the reduction has no identity, an empty array is refused. *)
Definition np_max (xs : list float64) : outcome float64 :=
  match xs with
  | [] => Raise ValueError
  | x :: xs' => Ok (fold_left fmax xs' x)
  end.

(** [logsumexp(x)]: the log of a sum of exponentiated values, shifted by
    the maximum. *)
Definition logsumexp (x : list float64) : outcome float64 :=
  match np_max x with
  | Raise e => Raise e
  | Ok c => Ok (fadd c (flog (np_sum (map fexp (map (fun xi => fsub xi c) x)))))
  end.


(** ** The libraries the code calls *)

(** References into the stores. *)
Abbreviation ref := nat (only parsing).

(** numpy: its arrays and their linear algebra, taken as given, and the
    random generator, whose state [rng] is threaded through every draw.
    An operation on arrays returns [None] where numpy raises for shapes
    that do not fit. *)
Class Numpy : Type := {
  ndarray : Type;
  rng : Type;
  (** [np.array([...])] and [np.array([[...], ...])] *)
  np_array1 : list float64 -> ndarray;
  np_array2 : list (list float64) -> ndarray;
  (** a scalar operand of a broadcasting operation *)
  np_scalar : float64 -> ndarray;
  np_eye : nat -> ndarray;
  (** [a @ b], [a.T], and the broadcasting [+], [-], [*], [/] *)
  np_matmul : ndarray -> ndarray -> option ndarray;
  np_transpose : ndarray -> ndarray;
  np_add : ndarray -> ndarray -> option ndarray;
  np_subtract : ndarray -> ndarray -> option ndarray;
  np_multiply : ndarray -> ndarray -> option ndarray;
  np_divide : ndarray -> ndarray -> option ndarray;
  (** [a.reshape(-1, 1)] and [a.reshape(1, -1)] *)
  np_reshape_col : ndarray -> ndarray;
  np_reshape_row : ndarray -> ndarray;
  (** the entry of an array that has one entry, and [a[i, j]] *)
  np_item : ndarray -> float64;
  np_getitem2 : ndarray -> nat -> nat -> option float64;
  (** [np.sum(np.array([a0, a1, ...]), axis=0)] *)
  np_sum_axis0 : list ndarray -> ndarray;
  (** [np.linalg.cholesky]; [None] when the matrix is not positive
      definite *)
  np_linalg_cholesky : ndarray -> option ndarray;
  (** [np.random.randn(k)] *)
  np_random_randn : rng -> nat -> ndarray * rng;
  (** [np.random.rand(k)]; [None] for a negative [k] *)
  np_random_rand : rng -> Z -> option (list float64 * rng);
  (** [np.random.multinomial(n, pvals)]; [None] when numpy refuses its
      arguments *)
  np_random_multinomial : rng -> Z -> list float64 -> option (list nat * rng);
}.


Definition multinomial_sound `{Numpy} : Prop :=
  forall g n pvals counts g',
    np_random_multinomial g n pvals = Some (counts, g') ->
    length counts = length pvals /\ sum_list counts = Z.to_nat n /\ (0 <= n)%Z.

(** [process.py] and [functions.py], which are not part of these files:
    the state-space model provider [LangevinModel], the class
    [GammaProcess] and the Poisson-epoch primitive. *)
Class Process `{Numpy} : Type := {
  (** the attributes [LangevinModel.__init__] stores *)
  LangevinModel : Type;
  LangevinModel_init :
    float64 -> float64 -> float64 -> float64 -> float64 -> Z -> LangevinModel;
  H_matrix : LangevinModel -> ndarray;
  B_matrix : LangevinModel -> ndarray;
  A_matrix : LangevinModel -> ndarray -> float64 -> ndarray;
  (** a generated subordinator path *)
  GammaProcess : Type;
  GammaProcess_init : float64 -> float64 -> Z -> float64 -> float64 -> GammaProcess;
  GammaProcess_generate : GammaProcess -> rng -> GammaProcess * rng;
  langevin_m : LangevinModel -> float64 -> float64 -> GammaProcess -> ndarray;
  langevin_S : LangevinModel -> float64 -> float64 -> GammaProcess -> ndarray;
  (** [gen_poisson_epochs(rate, samps)] *)
  gen_poisson_epochs : rng -> float64 -> Z -> option (list float64 * rng);
}.


(** ** Objects, stores and the monad of the embedding *)

Section Model.
Context `{Process}.

(** The attributes of a [LangevinParticle] object.  [base] holds what
    [LangevinModel.__init__] stored; [acc], [Ccc], [alpha], [Hmat] and
    [Bmat] are references to numpy arrays.  After the first [increment]
    the log-weight is in Python an array with one entry; it is modelled
    by that entry. *)
Record LangevinParticle : Type := {
  base : LangevinModel;
  theta : float64;
  kv : float64;
  beta : float64;
  sigmasq : float64;
  gsamps : Z;
  acc : ref;
  Ccc : ref;
  alpha : ref;
  logweight : float64;
  Hmat : ref;
  Bmat : ref;
}.

(** [self.logweight = v], [self.alpha = r] and
    [self.acc, self.Ccc = a, C] on the attributes of one object. *)
Definition with_logweight (p : LangevinParticle) (v : float64) : LangevinParticle :=
  {| base := base p; theta := theta p; kv := kv p; beta := beta p;
     sigmasq := sigmasq p; gsamps := gsamps p; acc := acc p; Ccc := Ccc p;
     alpha := alpha p; logweight := v; Hmat := Hmat p; Bmat := Bmat p |}.

Definition with_alpha (p : LangevinParticle) (r : ref) : LangevinParticle :=
  {| base := base p; theta := theta p; kv := kv p; beta := beta p;
     sigmasq := sigmasq p; gsamps := gsamps p; acc := acc p; Ccc := Ccc p;
     alpha := r; logweight := logweight p; Hmat := Hmat p; Bmat := Bmat p |}.

Definition with_acc_Ccc (p : LangevinParticle) (a C : ref) : LangevinParticle :=
  {| base := base p; theta := theta p; kv := kv p; beta := beta p;
     sigmasq := sigmasq p; gsamps := gsamps p; acc := a; Ccc := C;
     alpha := alpha p; logweight := logweight p; Hmat := Hmat p; Bmat := Bmat p |}.

(** The mutable state of a run: the particle objects, the arrays, the
    random generator.  A reference is an index into its store, and an
    allocation extends the store at its end. *)
Record world : Type := {
  objs : list LangevinParticle;
  arrs : list ndarray;
  gen : rng;
}.

Definition M (A : Type) : Type := world -> outcome (A * world).

Definition ret {A} (a : A) : M A := fun w => Ok (a, w).

Definition raise {A} (e : exn) : M A := fun _ => Raise e.

Definition bind {A B} (c : M A) (k : A -> M B) : M B :=
  fun w => match c w with
           | Ok (a, w') => k a w'
           | Raise e => Raise e
           end.

Notation "x <- c1 ;; c2" := (bind c1 (fun x => c2))
  (at level 20, c1 at level 99, c2 at level 200, only parsing).
Notation "' pat <- c1 ;; c2" := (bind c1 (fun x => match x with pat => c2 end))
  (at level 20, pat pattern, c1 at level 99, c2 at level 200, only parsing).

(** The result of a library call that raises [e] when it has no value. *)
Definition lift {A} (e : exn) (o : option A) : M A :=
  match o with
  | Some a => ret a
  | None => raise e
  end.

(** The result of a helper that does not touch the state. *)
Definition call {A} (o : outcome A) : M A :=
  fun w => match o with
           | Ok a => Ok (a, w)
           | Raise e => Raise e
           end.

(** A draw from the random generator. *)
Definition draw {A} (f : rng -> A * rng) : M A :=
  fun w => let (a, g) := f (gen w) in
           Ok (a, {| objs := objs w; arrs := arrs w; gen := g |}).

Definition draw_opt {A} (e : exn) (f : rng -> option (A * rng)) : M A :=
  fun w => match f (gen w) with
           | Some (a, g) => Ok (a, {| objs := objs w; arrs := arrs w; gen := g |})
           | None => Raise e
           end.

(** A new array object, and the array behind a reference. *)
Definition new_array (a : ndarray) : M ref :=
  fun w => Ok (length (arrs w),
               {| objs := objs w; arrs := arrs w ++ [a]; gen := gen w |}).

Definition get_array (r : ref) : M ndarray :=
  fun w => match arrs w !! r with
           | Some a => Ok (a, w)
           | None => Raise DanglingReference
           end.

(** A write into an existing array ([a[...] = v]), which every holder of
    the reference sees.  No method of the source performs one. *)
Definition array_write (r : ref) (a : ndarray) : M unit :=
  fun w => match arrs w !! r with
           | Some _ => Ok (tt, {| objs := objs w; arrs := <[r := a]> (arrs w);
                                  gen := gen w |})
           | None => Raise DanglingReference
           end.

(** A new particle object, the attributes of an object, and an assignment
    to attributes of an object. *)
Definition new_object (p : LangevinParticle) : M ref :=
  fun w => Ok (length (objs w),
               {| objs := objs w ++ [p]; arrs := arrs w; gen := gen w |}).

Definition get_object (r : ref) : M LangevinParticle :=
  fun w => match objs w !! r with
           | Some p => Ok (p, w)
           | None => Raise DanglingReference
           end.

Definition set_object (r : ref) (p : LangevinParticle) : M unit :=
  fun w => match objs w !! r with
           | Some _ => Ok (tt, {| objs := <[r := p]> (objs w); arrs := arrs w;
                                  gen := gen w |})
           | None => Raise DanglingReference
           end.

(** [copy.copy(particle)]: a new object with the same attributes, the
    references among them included. *)
Definition copy_copy (r : ref) : M ref :=
  p <- get_object r ;; new_object p.

(** [l[i]] on a Python list or a numpy array. *)
Definition getitem {A} (l : list A) (i : nat) : M A :=
  lift IndexError (l !! i).

(** [gen.__next__()] on a generator over a sequence: the next item and the
    rest of the generator. *)
Definition next {A} (g : list A) : M (A * list A) :=
  match g with
  | x :: g' => ret (x, g')
  | [] => raise StopIteration
  end.

(** [range(n)]. *)
Definition range (n : Z) : list nat := seq 0 (Z.to_nat n).

(** A [for] loop over [l] whose body updates the loop's variables [s]. *)
Fixpoint for_fold {A S} (l : list A) (body : A -> S -> M S) (s : S) : M S :=
  match l with
  | [] => ret s
  | x :: l' => s' <- body x s ;; for_fold l' body s'
  end.

Definition for_each {A} (l : list A) (body : A -> M unit) : M unit :=
  for_fold l (fun x _ => body x) tt.

(** A list comprehension [[f(x) for x in l]]. *)
Fixpoint comprehension {A B} (l : list A) (f : A -> M B) : M (list B) :=
  match l with
  | [] => ret []
  | x :: l' => y <- f x ;; ys <- comprehension l' f ;; ret (y :: ys)
  end.

(** ** class LangevinParticle *)

(** [LangevinParticle(mumu, sigmasq, beta, kw, kv, theta, gsamps)]: the
    prior mean and covariance, a state sampled through the Cholesky factor
    of the covariance with its ridge, and a log-weight of [0.]. *)
Definition LangevinParticle_init (mumu sigmasq beta kw kv theta : float64)
    (gsamps : Z) : M ref :=
  let base := LangevinModel_init mumu sigmasq beta kv theta gsamps in
  let acc_v := np_array1 [Fin 0; Fin 0; mumu] in
  let Ccc_v := np_array2 [[Fin 0; Fin 0; Fin 0];
                          [Fin 0; Fin 0; Fin 0];
                          [Fin 0; Fin 0; fmul sigmasq kw]] in
  ridge <- lift ValueError (np_multiply (np_scalar (Fin 1e-12)) (np_eye 3)) ;;
  stabilised <- lift ValueError (np_add Ccc_v ridge) ;;
  Cc <- lift LinAlgError (np_linalg_cholesky stabilised) ;;
  z <- draw (fun g => np_random_randn g 3) ;;
  Ccz <- lift ValueError (np_matmul Cc z) ;;
  alpha_v <- lift ValueError (np_add acc_v Ccz) ;;
  acc <- new_array acc_v ;;
  Ccc <- new_array Ccc_v ;;
  alpha <- new_array alpha_v ;;
  Hmat <- new_array (H_matrix base) ;;
  Bmat <- new_array (B_matrix base) ;;
  new_object {| base := base; theta := theta; kv := kv; beta := beta;
                sigmasq := sigmasq; gsamps := gsamps; acc := acc; Ccc := Ccc;
                alpha := alpha; logweight := Fin 0; Hmat := Hmat;
                Bmat := Bmat |}.

(** [self.predict(s, t)]: simulates the latent gamma process over the
    interval, moves the state sample and returns the predicted mean and
    covariance. *)
Definition predict (self : ref) (s t : float64) : M (ndarray * ndarray) :=
  let dt := fsub t s in
  p <- get_object self ;;
  Z <- draw (GammaProcess_generate
               (GammaProcess_init (Fin 1) (beta p) (gsamps p) s t)) ;;
  let m := langevin_m (base p) t (theta p) Z in
  S <- lift ValueError
         (np_multiply (np_scalar (sigmasq p)) (langevin_S (base p) t (theta p) Z)) ;;
  ridge <- lift ValueError (np_multiply (np_scalar (Fin 1e-12)) (np_eye 2)) ;;
  stabilised <- lift ValueError (np_add S ridge) ;;
  Sc <- lift LinAlgError (np_linalg_cholesky stabilised) ;;
  z <- draw (fun g => np_random_randn g 2) ;;
  e <- lift ValueError (np_matmul Sc z) ;;
  let Amat := A_matrix (base p) m dt in
  alpha_v <- get_array (alpha p) ;;
  Bmat_v <- get_array (Bmat p) ;;
  Aalpha <- lift ValueError (np_matmul Amat alpha_v) ;;
  Be <- lift ValueError (np_matmul Bmat_v e) ;;
  alpha' <- lift ValueError (np_add Aalpha Be) ;;
  r <- new_array alpha' ;;
  _ <- set_object self (with_alpha p r) ;;
  acc_v <- get_array (acc p) ;;
  Aacc <- lift ValueError (np_matmul Amat acc_v) ;;
  let acp := np_reshape_col Aacc in
  Ccc_v <- get_array (Ccc p) ;;
  AC <- lift ValueError (np_matmul Amat Ccc_v) ;;
  ACA <- lift ValueError (np_matmul AC (np_transpose Amat)) ;;
  BS <- lift ValueError (np_matmul Bmat_v S) ;;
  BSB <- lift ValueError (np_matmul BS (np_transpose Bmat_v)) ;;
  Ccp <- lift ValueError (np_add ACA BSB) ;;
  ret (acp, Ccp).

(** [self.correct(observation, acp, Ccp)]: the Kalman gain and the
    corrected mean and covariance. *)
Definition correct (self : ref) (observation : float64) (acp Ccp : ndarray)
    : M (ndarray * ndarray) :=
  p <- get_object self ;;
  Hmat_v <- get_array (Hmat p) ;;
  CH <- lift ValueError (np_matmul Ccp (np_transpose Hmat_v)) ;;
  HC <- lift ValueError (np_matmul Hmat_v Ccp) ;;
  HCH <- lift ValueError (np_matmul HC (np_transpose Hmat_v)) ;;
  denom <- lift ValueError (np_add HCH (np_scalar (fmul (sigmasq p) (kv p)))) ;;
  K0 <- lift ValueError (np_divide CH denom) ;;
  let K := np_reshape_col K0 in
  Hacp <- lift ValueError (np_matmul Hmat_v acp) ;;
  innovation <- lift ValueError (np_subtract (np_scalar observation) Hacp) ;;
  Kinn <- lift ValueError (np_multiply K innovation) ;;
  acc_v <- lift ValueError (np_add acp Kinn) ;;
  KH <- lift ValueError (np_matmul K Hmat_v) ;;
  KHC <- lift ValueError (np_matmul KH Ccp) ;;
  Ccc_v <- lift ValueError (np_subtract Ccp KHC) ;;
  ret (acc_v, Ccc_v).

(** [self.log_ped(observation, acp, Ccp)], the prediction error
    decomposition.  [Hmat] is a row, as [self.Hmat @ acp] and
    [K @ self.Hmat] in [correct] need, so [ayt] and [Cyt] are arrays with
    one entry; the arithmetic on them is the arithmetic on that entry. *)
Definition log_ped (self : ref) (observation : float64) (acp Ccp : ndarray)
    : M float64 :=
  p <- get_object self ;;
  Hmat_v <- get_array (Hmat p) ;;
  ayt_v <- lift ValueError (np_matmul Hmat_v acp) ;;
  let ayt := np_item ayt_v in
  HC <- lift ValueError (np_matmul Hmat_v Ccp) ;;
  HCH <- lift ValueError (np_matmul HC (np_transpose Hmat_v)) ;;
  let Cyt := fadd (np_item HCH) (fmul (sigmasq p) (kv p)) in
  ret (fsub (fmul (Fin (- (1 / 2))) (flog (fmul (Fin (2 * PI)) Cyt)))
            (fmul (fdiv (Fin 1) (fmul (Fin 2) Cyt))
                  (fsquare (fsub observation ayt)))).

(** The part of [increment] before the update of the log-weight: the
    prediction and the correction, which are stored, and the value of
    [log_ped] that the update adds. *)
Definition kalman_step (self : ref) (observation s t : float64) : M float64 :=
  '(acp, Ccp) <- predict self s t ;;
  '(acc_v, Ccc_v) <- correct self observation acp Ccp ;;
  a <- new_array acc_v ;;
  C <- new_array Ccc_v ;;
  p <- get_object self ;;
  _ <- set_object self (with_acc_Ccc p a C) ;;
  log_ped self observation acp Ccp.

(** [self.increment(observation, s, t)].  The times are already numbers
    of seconds: the conversion of a pandas [Timedelta] is left out. *)
Definition increment (self : ref) (observation s t : float64) : M unit :=
  lp <- kalman_step self observation s t ;;
  p <- get_object self ;;
  set_object self (with_logweight p (fadd (logweight p) lp)).

(** ** class RBPF *)

(** The attributes of the filter.  The observation series is a list of
    numbers; a generator over it is the list of the items it has still
    to yield. *)
Record RBPF : Type := {
  times : list float64;
  prices : list float64;
  nobservations : nat;
  initial_time : float64;
  initial_price : float64;
  timegen : list float64;
  pricegen : list float64;
  current_time : float64;
  current_price : float64;
  N : Z;
  log_resample_limit : float64;
  log_marginal_likelihood : float64;
  particles : list ref;
}.

Definition with_particles (f : RBPF) (ps : list ref) : RBPF :=
  {| times := times f; prices := prices f; nobservations := nobservations f;
     initial_time := initial_time f; initial_price := initial_price f;
     timegen := timegen f; pricegen := pricegen f;
     current_time := current_time f; current_price := current_price f;
     N := N f; log_resample_limit := log_resample_limit f;
     log_marginal_likelihood := log_marginal_likelihood f;
     particles := ps |}.

Definition with_log_marginal_likelihood (f : RBPF) (v : float64) : RBPF :=
  {| times := times f; prices := prices f; nobservations := nobservations f;
     initial_time := initial_time f; initial_price := initial_price f;
     timegen := timegen f; pricegen := pricegen f;
     current_time := current_time f; current_price := current_price f;
     N := N f; log_resample_limit := log_resample_limit f;
     log_marginal_likelihood := v;
     particles := particles f |}.

(** The advance of the cursor in [increment_particles]. *)
Definition with_cursor (f : RBPF) (price : float64) (pg : list float64)
    (time : float64) (tg : list float64) : RBPF :=
  {| times := times f; prices := prices f; nobservations := nobservations f;
     initial_time := initial_time f; initial_price := initial_price f;
     timegen := tg; pricegen := pg;
     current_time := time; current_price := price;
     N := N f; log_resample_limit := log_resample_limit f;
     log_marginal_likelihood := log_marginal_likelihood f;
     particles := particles f |}.

(** [series[0]] on a pandas series with the default index. *)
Definition series_first (s : list float64) : M float64 :=
  lift KeyError (s !! 0%nat).

(** [RBPF(mumu, sigmasq, beta, kw, kv, theta, data, N, gsamps, epsilon)].
    [data] is the frame of the columns [Date_Time] and [Price], one pair
    for each row. *)
Definition RBPF_init (mumu sigmasq beta kw kv theta : float64)
    (data : list (float64 * float64)) (N : Z) (gsamps : Z)
    (epsilon : float64) : M RBPF :=
  let times0 := map fst data in
  let prices0 := map snd data in
  let nobservations := length times0 in
  initial_time <- series_first times0 ;;
  initial_price <- series_first prices0 ;;
  let prices := map (fun x => fsub x initial_price) prices0 in
  let times := map (fun x => fsub x initial_time) times0 in
  '(current_time, timegen) <- next times ;;
  '(current_price, pricegen) <- next prices ;;
  let log_resample_limit := flog (fmul (Fin (IZR N)) epsilon) in
  particles <- comprehension (range N)
                 (fun _ => LangevinParticle_init mumu sigmasq beta kw kv theta gsamps) ;;
  ret {| times := times; prices := prices; nobservations := nobservations;
         initial_time := initial_time; initial_price := initial_price;
         timegen := timegen; pricegen := pricegen;
         current_time := current_time; current_price := current_price;
         N := N; log_resample_limit := log_resample_limit;
         log_marginal_likelihood := Fin 0;
         particles := particles |}.

(** [np.array([particle.logweight for particle in self.particles])]. *)
Definition lweights_of (self : RBPF) : M (list float64) :=
  comprehension (particles self)
    (fun r => p <- get_object r ;; ret (logweight p)).

(** [self.reweight_particles()]: renormalise the weights to sum to 1. *)
Definition reweight_particles (self : RBPF) : M RBPF :=
  lweights <- lweights_of self ;;
  sum_weights <- call (logsumexp lweights) ;;
  _ <- for_each (particles self)
         (fun r => p <- get_object r ;;
                   set_object r (with_logweight p (fsub (logweight p) sum_weights))) ;;
  ret self.

(** [self.increment_particles()]: advance the cursor and increment each
    particle on the newest time and observation. *)
Definition increment_particles (self : RBPF) : M RBPF :=
  '(current_price, pricegen) <- next (pricegen self) ;;
  let prev_time := current_time self in
  '(current_time, timegen) <- next (timegen self) ;;
  _ <- for_each (particles self)
         (fun r => increment r current_price prev_time current_time) ;;
  ret (with_cursor self current_price pricegen current_time timegen).

(** The inner loop of [resample_particles]: [k] copies of the particle at
    [idx], appended to [new_particles]. *)
Definition resample_copies (self : RBPF) (idx : nat) (k : nat)
    (new_particles : list ref) : M (list ref) :=
  for_fold (seq 0 k)
    (fun _ new_particles =>
       r <- getitem (particles self) idx ;;
       c <- copy_copy r ;;
       ret (new_particles ++ [c]))
    new_particles.

(** [self.resample_particles()]: multinomial resampling, then every
    weight set to [1/N]. *)
Definition resample_particles (self : RBPF) : M RBPF :=
  lweights <- lweights_of self ;;
  let probabilites := map nan_to_num (map fexp lweights) in
  let total := np_sum probabilites in
  let probabilites := map (fun x => fdiv x total) probabilites in
  selections <- draw_opt ValueError
                  (fun g => np_random_multinomial g (N self) probabilites) ;;
  new_particles <- for_fold (range (N self))
                     (fun idx new_particles =>
                        k <- getitem selections idx ;;
                        resample_copies self idx k new_particles)
                     [] ;;
  let self := with_particles self new_particles in
  _ <- for_each (particles self)
         (fun r => p <- get_object r ;;
                   set_object r (with_logweight p (fneg (flog (Fin (IZR (N self))))))) ;;
  ret self.

(** [self.get_state_mean()] and [self.get_state_covariance()]: the
    weighted sums of the particle means and covariances. *)
Definition get_state_mean (self : RBPF) : M ndarray :=
  terms <- comprehension (particles self)
             (fun r => p <- get_object r ;;
                       a <- get_array (acc p) ;;
                       lift ValueError
                         (np_multiply (np_reshape_row (np_scalar (fexp (logweight p)))) a)) ;;
  ret (np_sum_axis0 terms).

Definition get_state_covariance (self : RBPF) : M ndarray :=
  terms <- comprehension (particles self)
             (fun r => p <- get_object r ;;
                       C <- get_array (Ccc p) ;;
                       lift ValueError
                         (np_multiply (np_reshape_row (np_scalar (fexp (logweight p)))) C)) ;;
  ret (np_sum_axis0 terms).

(** [self.get_logPn2()]: inverse sum of squares for estimating ESS. *)
Definition get_logPn2 (self : RBPF) : M float64 :=
  lweights <- lweights_of self ;;
  ret (fneg (flog (np_sum (map fexp (map (fmul (Fin 2)) lweights))))).

(** [self.get_logDninf()]: inverse maximum weight for estimating ESS. *)
Definition get_logDninf (self : RBPF) : M float64 :=
  lweights <- lweights_of self ;;
  m <- call (np_max lweights) ;;
  ret (fneg m).

(** [self.get_log_predictive_likelihood()]. *)
Definition get_log_predictive_likelihood (self : RBPF) : M float64 :=
  lweights <- lweights_of self ;;
  call (logsumexp lweights).

(** The four lists [run_filter] keeps when [ret_history] is set. *)
Record history : Type := {
  state_means : list float64;
  state_variances : list float64;
  grad_means : list float64;
  grad_variances : list float64;
}.

(** The recording of one step of the history. *)
Definition record_history (self : RBPF) (h : history) : M history :=
  smean <- get_state_mean self ;;
  svar <- get_state_covariance self ;;
  sm <- lift IndexError (np_getitem2 smean 0 0) ;;
  sv <- lift IndexError (np_getitem2 svar 0 0) ;;
  gm <- lift IndexError (np_getitem2 smean 1 0) ;;
  gv <- lift IndexError (np_getitem2 svar 1 1) ;;
  ret {| state_means := state_means h ++ [sm];
         state_variances := state_variances h ++ [sv];
         grad_means := grad_means h ++ [gm];
         grad_variances := grad_variances h ++ [gv] |}.

(** The body of the loop of [run_filter]. *)
Definition run_filter_body (ret_history : bool) (st : RBPF * history)
    : M (RBPF * history) :=
  let '(self, h) := st in
  self <- increment_particles self ;;
  lpl <- get_log_predictive_likelihood self ;;
  let self := with_log_marginal_likelihood self
                (fadd (log_marginal_likelihood self) lpl) in
  self <- reweight_particles self ;;
  h <- (if ret_history then record_history self h else ret h) ;;
  logDninf <- get_logDninf self ;;
  if flt logDninf (log_resample_limit self)
  then self <- resample_particles self ;; ret (self, h)
  else ret (self, h).

(** [self.run_filter(ret_history)]: the filter after the sweep, the
    history when it is asked for, and the log marginal likelihood. *)
Definition run_filter (self : RBPF) (ret_history : bool)
    : M (RBPF * option history * float64) :=
  let h0 := {| state_means := [Fin 0]; state_variances := [Fin 0];
               grad_means := [Fin 0]; grad_variances := [Fin 0] |} in
  '(self, h) <- for_fold (range (Z.of_nat (nobservations self) - 1))
                  (fun _ st => run_filter_body ret_history st) (self, h0) ;;
  ret (self, if ret_history then Some h else None,
       log_marginal_likelihood self).

(** ** gamma_proc.py *)






End Model.

(** ** Stand-ins for the libraries and states for the examples *)

Definition is_nan (x : float64) : bool :=
  match x with NaN => true | _ => false end.

(** A multinomial draw that puts every unit on the first outcome.  It is
    taken without a look at the probabilities, or, as numpy checks its
    arguments today, refusing probabilities that contain NaN. *)
Definition first_outcome (n : Z) (pvals : list float64) : option (list nat) :=
  if (n <? 0)%Z then None
  else match pvals with
       | [] => if (n =? 0)%Z then Some [] else None
       | _ :: rest => Some (Z.to_nat n :: map (fun _ => 0%nat) rest)
       end.

Definition lax_multinomial (g : unit) (n : Z) (pvals : list float64)
    : option (list nat * unit) :=
  option_map (fun counts => (counts, g)) (first_outcome n pvals).

Definition strict_multinomial (g : unit) (n : Z) (pvals : list float64)
    : option (list nat * unit) :=
  if existsb is_nan pvals then None else lax_multinomial g n pvals.

(** A degenerate numpy: an array is the list of its entries, an operation
    on arrays returns its first operand, every draw is zero. *)
Definition toy_numpy_with
    (multinomial : unit -> Z -> list float64 -> option (list nat * unit))
    : Numpy :=
  {| ndarray := list float64;
     rng := unit;
     np_array1 := fun l => l;
     np_array2 := fun rows => concat rows;
     np_scalar := fun x => [x];
     np_eye := fun k => repeat (Fin 1) k;
     np_matmul := fun a _ => Some a;
     np_transpose := fun a => a;
     np_add := fun a _ => Some a;
     np_subtract := fun a _ => Some a;
     np_multiply := fun a _ => Some a;
     np_divide := fun a _ => Some a;
     np_reshape_col := fun a => a;
     np_reshape_row := fun a => a;
     np_item := fun a => nth 0 a (Fin 0);
     np_getitem2 := fun a _ _ => Some (nth 0 a (Fin 0));
     np_sum_axis0 := fun l => concat l;
     np_linalg_cholesky := fun a => Some a;
     np_random_randn := fun g k => (repeat (Fin 0) k, g);
     np_random_rand := fun g k =>
       if (k <? 0)%Z then None else Some (repeat (Fin 0) (Z.to_nat k), g);
     np_random_multinomial := multinomial |}.

Definition toy_numpy : Numpy := toy_numpy_with lax_multinomial.

Definition strict_numpy : Numpy := toy_numpy_with strict_multinomial.

(** A degenerate model provider over a numpy: constant matrices, a path
    without content, and epochs that are all 1. *)
Definition toy_process (np : Numpy) : @Process np :=
  {| LangevinModel := unit;
     LangevinModel_init := fun _ _ _ _ _ _ => tt;
     H_matrix := fun _ => np_array2 [[Fin 1; Fin 0; Fin 0]];
     B_matrix := fun _ => np_array2 [[Fin 0; Fin 0]; [Fin 1; Fin 0]; [Fin 0; Fin 1]];
     A_matrix := fun _ m _ => m;
     GammaProcess := unit;
     GammaProcess_init := fun _ _ _ _ _ => tt;
     GammaProcess_generate := fun z g => (z, g);
     langevin_m := fun _ _ _ _ => np_array1 [Fin 0; Fin 0];
     langevin_S := fun _ _ _ _ => np_array2 [[Fin 1; Fin 0]; [Fin 0; Fin 1]];
     gen_poisson_epochs := fun g _ k =>
       if (k <? 0)%Z then None else Some (repeat (Fin 1) (Z.to_nat k), g) |}.

(** A particle with the log-weight [lw] whose arrays are the five arrays
    from [a] on. *)
Definition toy_particle (np : Numpy) (lw : float64) (a : nat)
    : @LangevinParticle np (toy_process np) :=
  @Build_LangevinParticle np (toy_process np)
    tt (Fin (- 1)) (Fin 1) (Fin 1) (Fin 1) 10%Z
    a (S a) (S (S a)) lw (S (S (S a))) (S (S (S (S a)))).

(** A state with one particle for each log-weight of [lws], and a filter
    over these particles, at the first of two observations. *)
Definition toy_world (np : Numpy) (g : @rng np) (lws : list float64)
    : @world np (toy_process np) :=
  @Build_world np (toy_process np)
    (imap (fun i lw => toy_particle np lw (5 * i)) lws)
    (repeat (@np_array1 np [Fin 0; Fin 0; Fin 0]) (5 * length lws))
    g.

Definition toy_filter (lws : list float64) (epsilon : float64) : RBPF :=
  Build_RBPF
    [Fin 0; Fin 1] [Fin 0; Fin 2] 2 (Fin 0) (Fin 0) [Fin 1] [Fin 2] (Fin 0) (Fin 0)
    (Z.of_nat (length lws))
    (flog (fmul (Fin (IZR (Z.of_nat (length lws)))) epsilon))
    (Fin 0)
    (seq 0 (length lws)).

(** ** Notions used by the statements *)

(** The sum and the maximum of a list of reals. *)
Definition Rsum (l : list R) : R := fold_right Rplus 0 l.

Definition Rmaximum (x : R) (l : list R) : R := fold_left Rmax l x.

(** The particles [ps] are objects of the store, with log-weights [ws]. *)
Definition has_lweights `{Process} (w : world) (ps : list ref)
    (ws : list float64) : Prop :=
  Forall2 (fun r v => exists p, objs w !! r = Some p /\ logweight p = v) ps ws.

(** A population: pairwise distinct particle objects of the store. *)
Definition population `{Process} (w : world) (ps : list ref) : Prop :=
  NoDup ps /\ Forall (fun r => (r < length (objs w))%nat) ps.

(** The probabilities [resample_particles] hands to the multinomial draw,
    for the log-weights [lweights]. *)
Definition probabilities_of (lweights : list float64) : list float64 :=
  let probabilites := map nan_to_num (map fexp lweights) in
  map (fun x => fdiv x (np_sum probabilites)) probabilites.

(** The parent of each offspring, in the order of the new population:
    for each index of [idxs] in turn, the particle at that index as many
    times as its count says. *)
Definition parents (ps : list ref) (selections : list nat) (idxs : list nat)
    : list ref :=
  flat_map (fun idx => repeat (nth idx ps 0%nat) (nth idx selections 0%nat)) idxs.


(** Every exception the computation [c] can end with satisfies [P]. *)
Definition raises_only `{Process} {A} (P : exn -> Prop) (c : M A) : Prop :=
  forall w e, c w = Raise e -> P e.

(** The results a run of the source can end with: every exception but
    the error classes that only the specification names. *)
Definition raised_by_source (e : exn) : Prop :=
  match e with
  | ValidationError | NumericInstabilityError | ExhaustionError => False
  | _ => True
  end.

(** Partial correctness: if [c] returns from the state [w], its result
    and the state it leaves satisfy [Q]. *)
Definition wp `{Process} {A} (c : M A) (w : world)
    (Q : A -> world -> Prop) : Prop :=
  match c w with
  | Ok (a, w') => Q a w'
  | Raise _ => True
  end.

(** The state [w'] has the objects of [w], with the same log-weights. *)
Definition lweights_kept `{Process} (w w' : world) : Prop :=
  length (objs w') = length (objs w) /\
  forall r, logweight <$> objs w' !! r = logweight <$> objs w !! r.

(** [increment], returning the value of [log_ped] that it has added to
    the log-weight. *)
Definition increment_logged `{Process} (self : ref)
    (observation s t : float64) : M float64 :=
  bind (kalman_step self observation s t) (fun lp =>
  bind (get_object self) (fun p =>
  bind (set_object self (with_logweight p (fadd (logweight p) lp))) (fun _ =>
  ret lp))).


(** The value [log_ped] returns, as a function of the observation, of the
    predicted observation [ayt] and of its variance [Cyt]. *)
Definition log_ped_value (observation ayt Cyt : float64) : float64 :=
  fsub (fmul (Fin (- (1 / 2))) (flog (fmul (Fin (2 * PI)) Cyt)))
       (fmul (fdiv (Fin 1) (fmul (Fin 2) Cyt)) (fsquare (fsub observation ayt))).

(** The arrays that hold the Kalman state of a particle: the mean, the
    covariance and the state sample. *)
Definition state_arrays `{Process} (p : LangevinParticle) : list ref :=
  [acc p; Ccc p; alpha p].

(** The attributes that no method assigns after the construction: the
    model, its parameters and the two constant matrices. *)
Definition same_model `{Process} (p p' : LangevinParticle) : Prop :=
  base p' = base p /\ theta p' = theta p /\ kv p' = kv p /\ beta p' = beta p /\
  sigmasq p' = sigmasq p /\ gsamps p' = gsamps p /\
  Hmat p' = Hmat p /\ Bmat p' = Bmat p.

(** The exceptions other than the exhaustion of a generator. *)
Definition not_StopIteration (e : exn) : Prop :=
  match e with
  | StopIteration => False
  | _ => True
  end.

(** The attributes of a particle as [LangevinParticle.__init__] leaves
    them, its five arrays being the arrays from [a] on. *)
Definition constructed `{Process} (sigmasq0 beta0 kv0 theta0 : float64)
    (gsamps0 : Z) (a : nat) (p : LangevinParticle) : Prop :=
  acc p = a /\ Ccc p = S a /\ alpha p = S (S a) /\
  Hmat p = S (S (S a)) /\ Bmat p = S (S (S (S a))) /\
  logweight p = Fin 0 /\
  theta p = theta0 /\ kv p = kv0 /\ beta p = beta0 /\ sigmasq p = sigmasq0 /\
  gsamps p = gsamps0.



(** The errors of the numpy operations of [LangevinParticle.__init__]: a
    mismatch of shapes and a matrix that has no Cholesky factor. *)
Definition numpy_error (e : exn) : Prop :=
  match e with
  | ValueError | LinAlgError => True
  | _ => False
  end.

(** ** test.py *)

(** The body of the loop of the driver script, on a filter [rbpf] and
    the two lists it appends to: the filter is stepped by hand, and
    resampled at every pass.  [rbpf.get_state_mean()[0][0]] is the entry
    [[0, 0]] of the array. *)
Definition driver_step `{Process} (st : RBPF * list float64 * list float64)
    : M (RBPF * list float64 * list float64) :=
  let '(rbpf, state_means, state_variances) := st in
  bind (increment_particles rbpf) (fun rbpf =>
  bind (reweight_particles rbpf) (fun rbpf =>
  bind (get_state_mean rbpf) (fun smean =>
  bind (lift IndexError (np_getitem2 smean 0 0)) (fun sm =>
  let state_means := state_means ++ [sm] in
  bind (get_state_covariance rbpf) (fun svar =>
  bind (lift IndexError (np_getitem2 svar 0 0)) (fun sv =>
  let state_variances := state_variances ++ [sv] in
  bind (resample_particles rbpf) (fun rbpf =>
  ret (rbpf, state_means, state_variances)))))))).


(** * Properties *)

(** ** Arithmetic on finite values *)

Lemma flog_pos (r : R) : 0 < r -> flog (Fin r) = Fin (ln r).
Proof.
  intros Hr. unfold flog. destruct (Rlt_dec 0 r) as [_ | Hn]; [reflexivity | contradiction].
Qed.


Lemma fmax_Fin (a b : R) : fmax (Fin a) (Fin b) = Fin (Rmax a b).
Proof.
  unfold fmax, flt, Rmax.
  destruct (Rlt_dec a b) as [Hlt | Hn], (Rle_dec a b) as [Hle | Hn']; try reflexivity.
  - exfalso. lra.
  - f_equal. lra.
Qed.

Lemma np_sum_Fin (l : list R) : np_sum (map Fin l) = Fin (Rsum l).
Proof.
  unfold np_sum, Rsum.
  induction l as [| a l IH]; simpl; [reflexivity |].
  rewrite IH. reflexivity.
Qed.

Lemma fold_fmax_Fin (l : list R) (a : R) :
  fold_left fmax (map Fin l) (Fin a) = Fin (Rmaximum a l).
Proof.
  revert a. induction l as [| b l IH]; intros a; cbn [fold_left map]; [reflexivity |].
  rewrite fmax_Fin. apply IH.
Qed.


(** ** Sums of exponentials and maxima of reals *)

Lemma Rsum_exp_pos (l : list R) : l <> [] -> 0 < Rsum (map exp l).
Proof.
  destruct l as [| a l]; [congruence | intros _].
  simpl. assert (0 <= Rsum (map exp l)).
  { induction l as [| b l IH]; simpl; [lra |]. pose proof (exp_pos b). unfold Rsum in *. lra. }
  pose proof (exp_pos a). unfold Rsum in *. lra.
Qed.

Lemma Rsum_exp_shift (l : list R) (c : R) :
  Rsum (map exp (map (fun x => x - c) l)) = exp (- c) * Rsum (map exp l).
Proof.
  induction l as [| a l IH]; simpl.
  - unfold Rsum. simpl. ring.
  - unfold Rsum in *. simpl. rewrite IH.
    replace (a - c) with (a + - c) by ring. rewrite exp_plus. ring.
Qed.

Lemma ln_Rsum_exp_shift (l : list R) (c : R) :
  l <> [] ->
  c + ln (Rsum (map exp (map (fun x => x - c) l))) = ln (Rsum (map exp l)).
Proof.
  intros Hl. rewrite Rsum_exp_shift.
  rewrite ln_mult by (try apply exp_pos; apply Rsum_exp_pos; assumption).
  rewrite ln_exp. ring.
Qed.

(** ** [logsumexp] *)

Lemma map_fexp_Fin (l : list R) : map fexp (map Fin l) = map Fin (map exp l).
Proof. induction l as [| a l IH]; simpl; [reflexivity | rewrite IH; reflexivity]. Qed.

Lemma map_fsub_Fin (l : list R) (c : R) :
  map (fun xi => fsub xi (Fin c)) (map Fin l) = map Fin (map (fun v => v - c) l).
Proof.
  induction l as [| a l IH]; simpl; [reflexivity |]. rewrite IH. reflexivity.
Qed.

Lemma np_max_Fin (a : R) (l : list R) :
  np_max (map Fin (a :: l)) = Ok (Fin (Rmaximum a l)).
Proof. cbn [np_max map]. rewrite fold_fmax_Fin. reflexivity. Qed.

Lemma logsumexp_Fin (l : list R) :
  l <> [] -> logsumexp (map Fin l) = Ok (Fin (ln (Rsum (map exp l)))).
Proof.
  intros Hl. destruct l as [| a l']; [congruence |].
  unfold logsumexp. rewrite np_max_Fin.
  rewrite map_fsub_Fin, map_fexp_Fin, np_sum_Fin.
  rewrite flog_pos.
  - cbn [fadd]. rewrite ln_Rsum_exp_shift by assumption. reflexivity.
  - rewrite Rsum_exp_shift. apply Rmult_lt_0_compat; [apply exp_pos |].
    apply Rsum_exp_pos. assumption.
Qed.




(** ** Loops over the particles of the store *)

Section Engine.
Context `{Process}.

Lemma has_lweights_length (w : world) (ps : list ref) (ws : list float64) :
  has_lweights w ps ws -> length ws = length ps.
Proof. intros Hw. symmetry. eapply Forall2_length, Hw. Qed.

Lemma population_has_lweights (w : world) (ps : list ref) :
  Forall (fun r => (r < length (objs w))%nat) ps ->
  exists ws, has_lweights w ps ws.
Proof.
  induction 1 as [| r ps Hr _ [ws IH]].
  - exists []. constructor.
  - destruct (lookup_lt_is_Some_2 (objs w) r Hr) as [p Hp].
    exists (logweight p :: ws). constructor; [exists p; split; [assumption | reflexivity] | exact IH].
Qed.

Lemma has_lweights_allocated (w : world) (ps : list ref) (ws : list float64) :
  has_lweights w ps ws -> Forall (fun r => (r < length (objs w))%nat) ps.
Proof.
  induction 1 as [| r v ps ws [p [Hp _]] _ IH]; constructor; [| exact IH].
  eapply lookup_lt_Some, Hp.
Qed.

Lemma has_lweights_inj (w : world) (ps : list ref) (ws ws' : list float64) :
  has_lweights w ps ws -> has_lweights w ps ws' -> ws = ws'.
Proof.
  intros Hw. revert ws'. induction Hw as [| r v ps ws [p [Hp Hv]] _ IH]; intros ws' Hw'.
  - inversion Hw'. reflexivity.
  - inversion Hw' as [| r' v' ps' ws'' [p' [Hp' Hv']] Hrest]; subst.
    rewrite Hp in Hp'. injection Hp' as <-. f_equal. apply IH, Hrest.
Qed.

(** Reading the log-weights leaves the state as it is. *)
Lemma lweights_of_ok (self : RBPF) (w : world) (ws : list float64) :
  has_lweights w (particles self) ws -> lweights_of self w = Ok (ws, w).
Proof.
  unfold lweights_of. generalize (particles self) as ps. intros ps Hw.
  induction Hw as [| r v ps ws [p [Hp Hv]] _ IH]; [reflexivity |].
  cbn [comprehension]. unfold bind at 1. unfold bind at 1. unfold get_object at 1.
  rewrite Hp. unfold ret at 1. unfold bind at 1. rewrite IH.
  unfold ret. rewrite Hv. reflexivity.
Qed.

Lemma lweights_of_inv (self : RBPF) (w w' : world) (ws : list float64) :
  lweights_of self w = Ok (ws, w') ->
  w' = w /\ has_lweights w (particles self) ws.
Proof.
  unfold lweights_of. generalize (particles self) as ps. intros ps.
  revert ws w'. induction ps as [| r ps IH]; intros ws w'.
  - cbn [comprehension]. unfold ret. intros [= <- <-]. split; [reflexivity | constructor].
  - cbn [comprehension]. unfold bind at 1. unfold bind at 1. unfold get_object at 1.
    destruct (objs w !! r) as [p |] eqn:Hp; [| discriminate].
    unfold ret at 1. unfold bind at 1.
    destruct (comprehension ps _ w) as [[ws0 w0] | e] eqn:Hc; [| discriminate].
    unfold ret. intros [= <- <-]. destruct (IH ws0 w0 eq_refl) as [-> Hw].
    split; [reflexivity |]. constructor; [| exact Hw].
    exists p. split; [assumption | reflexivity].
Qed.

(** The loop [for particle in ps: particle.logweight = f(particle.logweight)]
    over a population rewrites the log-weight of its members and nothing
    else. *)
Lemma set_weights_loop (f : float64 -> float64) (ps : list ref) :
  forall w, population w ps ->
  exists w',
    for_each ps (fun r => bind (get_object r) (fun p =>
                   set_object r (with_logweight p (f (logweight p))))) w
      = Ok (tt, w') /\
    arrs w' = arrs w /\ gen w' = gen w /\
    length (objs w') = length (objs w) /\
    forall r, objs w' !! r =
      if decide (elem_of r ps)
      then (fun p => with_logweight p (f (logweight p))) <$> objs w !! r
      else objs w !! r.
Proof.
  unfold for_each.
  induction ps as [| r ps IH]; intros w [Hnd Hall].
  - exists w. cbn [for_fold]. split; [reflexivity |].
    split; [reflexivity |]. split; [reflexivity |]. split; [reflexivity |].
    intros r. destruct (decide (elem_of r [])) as [Hin | _]; [| reflexivity].
    apply elem_of_nil in Hin. contradiction.
  - apply NoDup_cons in Hnd as [Hr Hnd]. apply Forall_cons in Hall as [Hlt Hall].
    destruct (lookup_lt_is_Some_2 (objs w) r Hlt) as [p Hp].
    set (p' := with_logweight p (f (logweight p))).
    set (w1 := {| objs := <[r := p']> (objs w); arrs := arrs w; gen := gen w |}).
    destruct (IH w1) as (w' & Hrun & Harr & Hgen & Hlen & Hobj).
    { split; [assumption |]. subst w1. cbn [objs]. rewrite length_insert. assumption. }
    exists w'. split; [| split; [| split; [| split]]].
    + cbn [for_fold]. unfold bind at 1. unfold bind at 1. unfold get_object at 1.
      rewrite Hp. unfold set_object at 1. rewrite Hp. fold p'. fold w1. exact Hrun.
    + rewrite Harr. reflexivity.
    + rewrite Hgen. reflexivity.
    + rewrite Hlen. subst w1. cbn [objs]. apply length_insert.
    + intros r0. rewrite Hobj. subst w1. cbn [objs].
      destruct (decide (r0 = r)) as [-> | Hne].
      * destruct (decide (elem_of r ps)) as [Hin | _]; [contradiction |].
        destruct (decide (elem_of r (r :: ps))) as [_ | Hn];
          [| exfalso; apply Hn; apply elem_of_cons; left; reflexivity].
        rewrite list_lookup_insert_eq by assumption. rewrite Hp. reflexivity.
      * rewrite list_lookup_insert_ne by congruence.
        destruct (decide (elem_of r0 ps)) as [Hin | Hn],
                 (decide (elem_of r0 (r :: ps))) as [Hin' | Hn']; try reflexivity.
        -- exfalso. apply Hn'. apply elem_of_cons. right. assumption.
        -- exfalso. apply elem_of_cons in Hin' as [-> | Hin']; [congruence | contradiction].
Qed.

Lemma set_weights_has_lweights (f : float64 -> float64) (w w' : world)
    (ps : list ref) (ws : list float64) :
  (forall r, objs w' !! r =
     if decide (elem_of r ps)
     then (fun p => with_logweight p (f (logweight p))) <$> objs w !! r
     else objs w !! r) ->
  has_lweights w ps ws -> has_lweights w' ps (map f ws).
Proof.
  intros Hobj Hw.
  cut (forall qs ws, (forall r, elem_of r qs -> elem_of r ps) ->
         has_lweights w qs ws -> has_lweights w' qs (map f ws)).
  { intros Hgen. apply Hgen; auto. }
  clear Hw ws. intros qs ws Hin Hw. revert Hin.
  induction Hw as [| r v qs ws [p [Hp Hv]] _ IH]; intros Hin; [constructor |].
  cbn [map]. constructor.
  - exists (with_logweight p (f (logweight p))). split; [| rewrite Hv; reflexivity].
    rewrite Hobj. destruct (decide (elem_of r ps)) as [_ | Hn].
    + rewrite Hp. reflexivity.
    + exfalso. apply Hn, Hin. apply elem_of_cons. left. reflexivity.
  - apply IH. intros r0 Hr0. apply Hin. apply elem_of_cons. right. assumption.
Qed.

(** ** [reweight_particles] *)

(** The run of [reweight_particles] on a population with log-weights
    [ws] of which [logsumexp] is [s]: every log-weight loses [s]. *)
Lemma reweight_particles_run (self : RBPF) (w : world) (ws : list float64)
    (s : float64) :
  population w (particles self) ->
  has_lweights w (particles self) ws ->
  logsumexp ws = Ok s ->
  exists w',
    reweight_particles self w = Ok (self, w') /\
    has_lweights w' (particles self) (map (fun v => fsub v s) ws) /\
    arrs w' = arrs w /\ gen w' = gen w /\
    length (objs w') = length (objs w) /\
    forall r, objs w' !! r =
      if decide (elem_of r (particles self))
      then (fun p => with_logweight p (fsub (logweight p) s)) <$> objs w !! r
      else objs w !! r.
Proof.
  intros Hpop Hw Hs.
  destruct (set_weights_loop (fun v => fsub v s) (particles self) w Hpop)
    as (w' & Hrun & Harr & Hgen & Hlen & Hobj).
  exists w'. split; [| split; [| repeat split; assumption]].
  - unfold reweight_particles. unfold bind at 1. rewrite (lweights_of_ok _ _ _ Hw).
    unfold bind at 1. unfold call at 1. rewrite Hs.
    unfold bind at 1. rewrite Hrun. reflexivity.
  - eapply set_weights_has_lweights; eassumption.
Qed.

(** Without a particle [np.max] has nothing to reduce: the call raises. *)
Lemma reweight_particles_empty (self : RBPF) (w : world) :
  particles self = [] -> reweight_particles self w = Raise ValueError.
Proof.
  intros Hps. unfold reweight_particles, lweights_of. rewrite Hps. reflexivity.
Qed.






(** ** [resample_particles] *)

(** The inner loop: [k] new objects with the attributes of the particle at
    [idx], at the end of the store. *)
Lemma resample_copies_run (self : RBPF) (idx : nat) (r : ref)
    (p : LangevinParticle) (k : nat) :
  particles self !! idx = Some r ->
  forall (w : world) (new_particles : list ref),
  objs w !! r = Some p ->
  resample_copies self idx k new_particles w =
    Ok (new_particles ++ seq (length (objs w)) k,
        {| objs := objs w ++ repeat p k; arrs := arrs w; gen := gen w |}).
Proof.
  intros Hidx. unfold resample_copies. generalize 0%nat as i.
  induction k as [| k IH]; intros i w acc Hp.
  - cbn [seq for_fold repeat]. unfold ret. rewrite !app_nil_r.
    destruct w; reflexivity.
  - cbn [seq for_fold]. unfold bind at 1. unfold bind at 1.
    unfold getitem at 1. rewrite Hidx. cbn [lift]. unfold ret at 1.
    unfold bind at 1. unfold copy_copy at 1. unfold bind at 1.
    unfold get_object at 1. rewrite Hp. unfold new_object at 1. unfold ret at 1.
    rewrite IH.
    + cbn [objs arrs gen]. rewrite length_app. cbn [length repeat].
      rewrite <- !app_assoc. cbn [app].
      replace (length (objs w) + 1)%nat with (S (length (objs w))) by lia.
      reflexivity.
    + cbn [objs]. apply lookup_app_l_Some. assumption.
Qed.

Lemma Forall2_repeat {A B} (R : A -> B -> Prop) (a : A) (b : B) (k : nat) :
  R a b -> Forall2 R (repeat a k) (repeat b k).
Proof. intros Hab. induction k; cbn [repeat]; constructor; assumption. Qed.

Lemma Forall2_Forall_impl {A B} (R R' : A -> B -> Prop) (P : A -> Prop)
    (l : list A) (k : list B) :
  Forall2 R l k -> Forall P l -> (forall a b, P a -> R a b -> R' a b) ->
  Forall2 R' l k.
Proof.
  intros HR HP Himp. induction HR as [| a b l k Hab _ IH]; constructor.
  - apply Himp; [| assumption]. apply Forall_cons in HP as [Ha _]. assumption.
  - apply IH. apply Forall_cons in HP as [_ Hl]. assumption.
Qed.

Lemma nth_lookup_lt {A} (l : list A) (i : nat) (d : A) :
  (i < length l)%nat -> l !! i = Some (nth i l d).
Proof.
  intros Hi. destruct (lookup_lt_is_Some_2 l i Hi) as [x Hx].
  rewrite Hx. f_equal. symmetry. apply nth_lookup_Some with (d := d) in Hx. assumption.
Qed.

Lemma parents_Forall (P : ref -> Prop) (ps : list ref) (sel idxs : list nat) :
  Forall P ps -> Forall (fun idx => (idx < length ps)%nat) idxs ->
  Forall P (parents ps sel idxs).
Proof.
  intros HP. unfold parents. induction 1 as [| idx idxs Hidx _ IH]; cbn [flat_map].
  - constructor.
  - apply Forall_app. split; [| exact IH].
    apply Forall_forall. intros r Hr. apply list_elem_of_In, repeat_spec in Hr. subst r.
    eapply Forall_forall; [exact HP |]. apply list_elem_of_In, nth_In. assumption.
Qed.

(** The outer loop: the offspring are new objects at the end of the store,
    each with the attributes of its parent. *)
Lemma resample_loop_run (self : RBPF) (sel : list nat) (idxs : list nat) :
  Forall (fun idx => (idx < length (particles self))%nat) idxs ->
  Forall (fun idx => (idx < length sel)%nat) idxs ->
  forall (w : world) (new_particles : list ref),
  Forall (fun r => (r < length (objs w))%nat) (particles self) ->
  exists os,
    for_fold idxs
      (fun idx new_particles =>
         bind (getitem sel idx) (fun k => resample_copies self idx k new_particles))
      new_particles w =
    Ok (new_particles ++ seq (length (objs w)) (length os),
        {| objs := objs w ++ os; arrs := arrs w; gen := gen w |}) /\
    Forall2 (fun r o => objs w !! r = Some o) (parents (particles self) sel idxs) os.
Proof.
  induction idxs as [| idx idxs IH]; intros Hps Hsel w acc Hall.
  - exists []. cbn [for_fold length seq parents flat_map]. unfold ret.
    rewrite !app_nil_r. split; [destruct w; reflexivity | constructor].
  - apply Forall_cons in Hps as [Hidx Hps]. apply Forall_cons in Hsel as [Hk Hsel].
    set (r := nth idx (particles self) 0%nat).
    set (k := nth idx sel 0%nat).
    assert (Hr : particles self !! idx = Some r) by (apply nth_lookup_lt; assumption).
    assert (Hsk : sel !! idx = Some k) by (apply nth_lookup_lt; assumption).
    assert (Hlt : (r < length (objs w))%nat).
    { apply (proj1 (Forall_forall _ _) Hall r). eapply list_elem_of_lookup_2, Hr. }
    destruct (lookup_lt_is_Some_2 (objs w) r Hlt) as [p Hp].
    set (w1 := {| objs := objs w ++ repeat p k; arrs := arrs w; gen := gen w |}).
    destruct (IH Hps Hsel w1 (acc ++ seq (length (objs w)) k)) as [os [Hrun Hos]].
    { subst w1. cbn [objs]. rewrite length_app. eapply Forall_impl; [exact Hall |].
      cbn. intros; lia. }
    exists (repeat p k ++ os). split.
    + cbn [for_fold]. unfold bind at 1. unfold bind at 1. unfold getitem at 1.
      rewrite Hsk. cbn [lift]. unfold ret at 1.
      rewrite (resample_copies_run self idx r p k Hr w acc Hp). fold w1.
      rewrite Hrun. subst w1. cbn [objs arrs gen].
      rewrite !length_app, repeat_length, <- !app_assoc, <- seq_app. reflexivity.
    + unfold parents. cbn [flat_map]. fold r. fold k. apply Forall2_app.
      * apply Forall2_repeat. assumption.
      * eapply Forall2_Forall_impl; [exact Hos | |].
        -- apply (parents_Forall (fun r => (r < length (objs w))%nat)); eassumption.
        -- cbn. intros a b Ha Hab. subst w1. cbn [objs] in Hab.
           rewrite lookup_app_l in Hab by assumption. assumption.
Qed.

Lemma range_bound (n : Z) (m : nat) :
  (Z.to_nat n <= m)%nat -> Forall (fun idx => (idx < m)%nat) (range n).
Proof.
  intros Hn. apply Forall_forall. intros idx Hidx. unfold range in Hidx.
  apply elem_of_seq in Hidx. lia.
Qed.

(** The run of [resample_particles] when the multinomial draw returns the
    counts [sel]: the population becomes the new objects, one for each
    unit of each count, with the attributes of the parent but for the
    log-weight; the old objects and all arrays stay as they are. *)
Lemma resample_particles_run (self : RBPF) (w : world) (ws : list float64)
    (sel : list nat) (g' : rng) :
  has_lweights w (particles self) ws ->
  np_random_multinomial (gen w) (N self) (probabilities_of ws) = Some (sel, g') ->
  (Z.to_nat (N self) <= length (particles self))%nat ->
  (Z.to_nat (N self) <= length sel)%nat ->
  exists os w',
    resample_particles self w =
      Ok (with_particles self (seq (length (objs w)) (length os)), w') /\
    Forall2 (fun r o => objs w !! r = Some o)
      (parents (particles self) sel (range (N self))) os /\
    objs w' = objs w ++
      map (fun o => with_logweight o (fneg (flog (Fin (IZR (N self)))))) os /\
    arrs w' = arrs w /\ gen w' = g'.
Proof.
  intros Hw Hdraw Hps Hsel.
  set (w1 := {| objs := objs w; arrs := arrs w; gen := g' |}).
  destruct (resample_loop_run self sel (range (N self))
              (range_bound _ _ Hps) (range_bound _ _ Hsel) w1 [])
    as [os [Hloop Hos]].
  { subst w1. cbn [objs]. eapply has_lweights_allocated, Hw. }
  subst w1. cbn [objs arrs gen app] in Hloop, Hos.
  set (news := seq (length (objs w)) (length os)) in *.
  set (w2 := {| objs := objs w ++ os; arrs := arrs w; gen := g' |}) in *.
  set (lw := fneg (flog (Fin (IZR (N self))))).
  destruct (set_weights_loop (fun _ => lw) news w2) as (w3 & Hrun & Harr & Hgen & Hlen & Hobj).
  { split; [apply NoDup_seq |]. apply Forall_forall. intros r Hr. subst news w2.
    apply elem_of_seq in Hr. cbn [objs]. rewrite length_app. lia. }
  exists os, w3. split; [| split; [assumption | split; [| split; assumption]]].
  - unfold resample_particles. unfold bind at 1. rewrite (lweights_of_ok _ _ _ Hw).
    change (map (fun x => fdiv x (np_sum (map nan_to_num (map fexp ws))))
              (map nan_to_num (map fexp ws))) with (probabilities_of ws).
    unfold bind at 1. unfold draw_opt at 1. rewrite Hdraw.
    unfold bind at 1. rewrite Hloop.
    unfold bind at 1. cbn [particles with_particles N]. fold news. fold lw.
    rewrite Hrun. reflexivity.
  - apply list_eq. intros i. rewrite Hobj. subst w2 news. cbn [objs].
    destruct (decide (i < length (objs w))%nat) as [Hi | Hi].
    + destruct (decide (elem_of i (seq (length (objs w)) (length os)))) as [Hin | _].
      { apply elem_of_seq in Hin. lia. }
      rewrite !lookup_app_l by assumption. reflexivity.
    + rewrite !lookup_app_r by lia. rewrite list_lookup_fmap.
      destruct (decide (elem_of i (seq (length (objs w)) (length os)))) as [_ | Hn];
        [reflexivity |].
      rewrite (proj2 (lookup_ge_None os (i - length (objs w)))); [reflexivity |].
      destruct (decide (i - length (objs w) < length os)%nat) as [Hlt | Hge]; [| lia].
      exfalso. apply Hn. apply elem_of_seq. lia.
Qed.

(** When numpy refuses the draw, its [ValueError] ends the call. *)
Lemma resample_particles_refused (self : RBPF) (w : world) (ws : list float64) :
  has_lweights w (particles self) ws ->
  np_random_multinomial (gen w) (N self) (probabilities_of ws) = None ->
  resample_particles self w = Raise ValueError.
Proof.
  intros Hw Hdraw. unfold resample_particles.
  unfold bind at 1. rewrite (lweights_of_ok _ _ _ Hw).
  change (map (fun x => fdiv x (np_sum (map nan_to_num (map fexp ws))))
            (map nan_to_num (map fexp ws))) with (probabilities_of ws).
  unfold bind at 1. unfold draw_opt at 1. rewrite Hdraw. reflexivity.
Qed.

Lemma map_nth_seq {A} (l : list A) (d : A) :
  map (fun idx => nth idx l d) (seq 0 (length l)) = l.
Proof.
  induction l as [| a l IH]; cbn [length seq map nth]; [reflexivity |].
  f_equal. rewrite <- seq_shift, map_map. cbn [nth]. exact IH.
Qed.

Lemma parents_length (ps : list ref) (sel idxs : list nat) :
  length (parents ps sel idxs) = sum_list (map (fun idx => nth idx sel 0%nat) idxs).
Proof.
  unfold parents. induction idxs as [| idx idxs IH]; cbn [flat_map map]; [reflexivity |].
  rewrite length_app, repeat_length, IH. reflexivity.
Qed.

(** The offspring number as many as the counts sum to. *)
Lemma parents_length_range (ps : list ref) (sel : list nat) (n : Z) :
  length sel = Z.to_nat n ->
  length (parents ps sel (range n)) = sum_list sel.
Proof.
  intros Hlen. rewrite parents_length. unfold range. rewrite <- Hlen.
  rewrite map_nth_seq. reflexivity.
Qed.

Lemma length_probabilities_of (ws : list float64) :
  length (probabilities_of ws) = length ws.
Proof. unfold probabilities_of. rewrite !length_map. reflexivity. Qed.

(** C2.  On a population of [N] particles, when [resample_particles]
    returns, the population is a population of exactly [N] particles, and
    the log-weight of each of them is [-log(N)]. *)
Theorem resample_particles_size_and_weights (self self' : RBPF) (w w' : world) :
  multinomial_sound ->
  population w (particles self) ->
  Z.of_nat (length (particles self)) = N self ->
  resample_particles self w = Ok (self', w') ->
  N self' = N self /\
  Z.of_nat (length (particles self')) = N self /\
  population w' (particles self') /\
  Forall (fun r => exists p, objs w' !! r = Some p /\
                     logweight p = fneg (flog (Fin (IZR (N self)))))
         (particles self') /\
  ((0 < N self)%Z -> fneg (flog (Fin (IZR (N self)))) = Fin (- ln (IZR (N self)))).
Proof.
  intros Hsound [Hnd Hall] HN Hrun.
  destruct (population_has_lweights w (particles self) Hall) as [ws Hw].
  destruct (np_random_multinomial (gen w) (N self) (probabilities_of ws))
    as [[sel g'] |] eqn:Hdraw.
  2: { rewrite (resample_particles_refused self w ws Hw Hdraw) in Hrun. discriminate. }
  destruct (Hsound _ _ _ _ _ Hdraw) as (Hlen & Hsum & Hpos).
  rewrite length_probabilities_of, (has_lweights_length _ _ _ Hw) in Hlen.
  destruct (resample_particles_run self w ws sel g' Hw Hdraw)
    as (os & w3 & Hrun' & Hos & Hobjs & _ & _); [lia | lia |].
  rewrite Hrun' in Hrun. injection Hrun as <- <-.
  assert (Hcount : length os = Z.to_nat (N self)).
  { rewrite <- (Forall2_length _ _ _ Hos), parents_length_range by lia. assumption. }
  cbn [N particles with_particles].
  split; [reflexivity |]. split; [rewrite length_seq; lia |].
  split; [split |]; [apply NoDup_seq | | split].
  - apply Forall_forall. intros r Hr. apply elem_of_seq in Hr.
    rewrite Hobjs, length_app, length_map. lia.
  - apply Forall_forall. intros r Hr. apply elem_of_seq in Hr.
    destruct (lookup_lt_is_Some_2 os (r - length (objs w))) as [o Ho]; [lia |].
    exists (with_logweight o (fneg (flog (Fin (IZR (N self)))))).
    split; [| reflexivity].
    rewrite Hobjs, lookup_app_r by lia. rewrite list_lookup_fmap, Ho. reflexivity.
  - intros HNpos. rewrite flog_pos; [reflexivity |]. apply IZR_lt. assumption.
Qed.

Lemma offspring_attributes (w : world) (v : float64) (par : list ref)
    (os : list LangevinParticle) :
  Forall2 (fun r o => objs w !! r = Some o) par os ->
  forall pre : list LangevinParticle,
  Forall2 (fun c r => exists p q,
             objs w !! r = Some p /\
             (pre ++ map (fun o => with_logweight o v) os) !! c = Some q /\
             acc q = acc p /\ Ccc q = Ccc p /\ alpha q = alpha p)
    (seq (length pre) (length os)) par.
Proof.
  induction 1 as [| r o par os Hro _ IH]; intros pre; cbn [length seq map].
  - constructor.
  - constructor.
    + exists o, (with_logweight o v). split; [assumption |].
      split; [apply list_lookup_middle; reflexivity |].
      split; [reflexivity |]. split; reflexivity.
    + specialize (IH (pre ++ [with_logweight o v])).
      rewrite length_app in IH. cbn [length] in IH.
      replace (length pre + 1)%nat with (S (length pre)) in IH by lia.
      rewrite <- app_assoc in IH. exact IH.
Qed.

(** C4, as the code has it.  The offspring are new objects, pairwise
    distinct and distinct from every object there was, so that an
    assignment to an attribute of an offspring leaves every other object as
    it is; resampling itself leaves the old objects and every array as
    they are.  But the copy is shallow: an offspring has the attributes of
    its parent, so its [acc], [Ccc] and [alpha] are references to the
    arrays of the parent, and no array is copied. *)
Theorem resample_particles_shallow_copies (self self' : RBPF) (w w' : world) :
  multinomial_sound ->
  population w (particles self) ->
  Z.of_nat (length (particles self)) = N self ->
  resample_particles self w = Ok (self', w') ->
  exists sel : list nat,
    length sel = length (particles self) /\
    arrs w' = arrs w /\
    (forall r p, objs w !! r = Some p -> objs w' !! r = Some p) /\
    NoDup (particles self') /\
    Forall (fun c => (length (objs w) <= c < length (objs w'))%nat) (particles self') /\
    Forall2 (fun c r => exists p q,
               objs w !! r = Some p /\ objs w' !! c = Some q /\
               acc q = acc p /\ Ccc q = Ccc p /\ alpha q = alpha p)
      (particles self') (parents (particles self) sel (range (N self))) /\
    (forall c q w'', elem_of c (particles self') ->
       set_object c q w' = Ok (tt, w'') ->
       arrs w'' = arrs w' /\
       forall r, r <> c -> objs w'' !! r = objs w' !! r).
Proof.
  intros Hsound [Hnd Hall] HN Hrun.
  destruct (population_has_lweights w (particles self) Hall) as [ws Hw].
  destruct (np_random_multinomial (gen w) (N self) (probabilities_of ws))
    as [[sel g'] |] eqn:Hdraw.
  2: { rewrite (resample_particles_refused self w ws Hw Hdraw) in Hrun. discriminate. }
  destruct (Hsound _ _ _ _ _ Hdraw) as (Hlen & Hsum & Hpos).
  rewrite length_probabilities_of, (has_lweights_length _ _ _ Hw) in Hlen.
  destruct (resample_particles_run self w ws sel g' Hw Hdraw)
    as (os & w3 & Hrun' & Hos & Hobjs & Harrs & _); [lia | lia |].
  rewrite Hrun' in Hrun. injection Hrun as <- <-.
  cbn [particles with_particles].
  exists sel. split; [assumption |]. split; [assumption |].
  split; [| split; [apply NoDup_seq | split; [| split]]].
  - intros r p Hp. rewrite Hobjs. apply lookup_app_l_Some. assumption.
  - apply Forall_forall. intros c Hc. apply elem_of_seq in Hc.
    rewrite Hobjs, length_app, length_map. lia.
  - rewrite Hobjs. apply offspring_attributes. assumption.
  - intros c q w'' _ Hset. unfold set_object in Hset.
    destruct (objs w3 !! c) as [q0 |]; [| discriminate].
    injection Hset as <-. cbn [arrs objs]. split; [reflexivity |].
    intros r Hne. apply list_lookup_insert_ne. congruence.
Qed.

(** ** The exceptions a computation can raise *)

Section Raises.
Context (P : exn -> Prop).

Lemma raises_only_ret {A} (a : A) : raises_only P (ret a).
Proof. intros w e He. discriminate. Qed.

Lemma raises_only_raise {A} (e : exn) : P e -> raises_only P (raise (A := A) e).
Proof. intros HP w e' [= <-]. assumption. Qed.

Lemma raises_only_bind {A B} (c : M A) (k : A -> M B) :
  raises_only P c -> (forall a, raises_only P (k a)) -> raises_only P (bind c k).
Proof.
  intros Hc Hk w e. unfold bind. destruct (c w) as [[a w'] | e'] eqn:Hcw.
  - apply Hk.
  - intros [= <-]. eapply Hc, Hcw.
Qed.

Lemma raises_only_lift {A} (e : exn) (o : option A) :
  P e -> raises_only P (lift e o).
Proof.
  intros HP. destruct o; [apply raises_only_ret | apply raises_only_raise, HP].
Qed.

Lemma raises_only_call {A} (o : outcome A) :
  (forall e, o = Raise e -> P e) -> raises_only P (call o).
Proof.
  intros Ho w e. unfold call. destruct o as [a | e']; [discriminate |].
  intros [= <-]. apply Ho. reflexivity.
Qed.

Lemma raises_only_draw {A} (f : rng -> A * rng) : raises_only P (draw f).
Proof. intros w e. unfold draw. destruct (f (gen w)). discriminate. Qed.

Lemma raises_only_draw_opt {A} (e : exn) (f : rng -> option (A * rng)) :
  P e -> raises_only P (draw_opt e f).
Proof.
  intros HP w e'. unfold draw_opt. destruct (f (gen w)) as [[a g] |]; [discriminate |].
  intros [= <-]. assumption.
Qed.

Lemma raises_only_new_array (a : ndarray) : raises_only P (new_array a).
Proof. intros w e. discriminate. Qed.

Lemma raises_only_new_object (p : LangevinParticle) : raises_only P (new_object p).
Proof. intros w e. discriminate. Qed.

Lemma raises_only_get_array (r : ref) :
  P DanglingReference -> raises_only P (get_array r).
Proof.
  intros HP w e. unfold get_array. destruct (arrs w !! r); [discriminate |].
  intros [= <-]. assumption.
Qed.

Lemma raises_only_get_object (r : ref) :
  P DanglingReference -> raises_only P (get_object r).
Proof.
  intros HP w e. unfold get_object. destruct (objs w !! r); [discriminate |].
  intros [= <-]. assumption.
Qed.

Lemma raises_only_set_object (r : ref) (p : LangevinParticle) :
  P DanglingReference -> raises_only P (set_object r p).
Proof.
  intros HP w e. unfold set_object. destruct (objs w !! r); [discriminate |].
  intros [= <-]. assumption.
Qed.

Lemma raises_only_next {A} (g : list A) : P StopIteration -> raises_only P (next g).
Proof.
  intros HP. destruct g; [apply raises_only_raise, HP | apply raises_only_ret].
Qed.

Lemma raises_only_for_fold {A S} (l : list A) (body : A -> S -> M S) :
  (forall x s, raises_only P (body x s)) ->
  forall s, raises_only P (for_fold l body s).
Proof.
  intros Hbody. induction l as [| x l IH]; intros s; cbn [for_fold].
  - apply raises_only_ret.
  - apply raises_only_bind; [apply Hbody | apply IH].
Qed.

Lemma raises_only_comprehension {A B} (l : list A) (f : A -> M B) :
  (forall x, raises_only P (f x)) -> raises_only P (comprehension l f).
Proof.
  intros Hf. induction l as [| x l IH]; cbn [comprehension].
  - apply raises_only_ret.
  - apply raises_only_bind; [apply Hf |]. intros y.
    apply raises_only_bind; [apply IH |]. intros ys. apply raises_only_ret.
Qed.

End Raises.

Lemma np_max_raises (xs : list float64) (e : exn) :
  np_max xs = Raise e -> e = ValueError.
Proof. destruct xs; cbn [np_max]; [intros [= <-]; reflexivity | discriminate]. Qed.

Lemma logsumexp_raises (xs : list float64) (e : exn) :
  logsumexp xs = Raise e -> e = ValueError.
Proof.
  unfold logsumexp. destruct (np_max xs) as [c | e'] eqn:Hmax; [discriminate |].
  intros [= <-]. eapply np_max_raises, Hmax.
Qed.

(** One step of a proof that a computation raises only exceptions of the
    source; [raises_only_steps] takes the computation apart. *)
Ltac raises_only_step :=
  match goal with
  | |- raises_only _ (bind _ _) => apply raises_only_bind; [| intros ?]
  | |- raises_only _ (ret _) => apply raises_only_ret
  | |- raises_only _ (raise _) => apply raises_only_raise; exact I
  | |- raises_only _ (lift _ _) => apply raises_only_lift; exact I
  | |- raises_only _ (draw _) => apply raises_only_draw
  | |- raises_only _ (draw_opt _ _) => apply raises_only_draw_opt; exact I
  | |- raises_only _ (new_array _) => apply raises_only_new_array
  | |- raises_only _ (new_object _) => apply raises_only_new_object
  | |- raises_only _ (get_array _) => apply raises_only_get_array; exact I
  | |- raises_only _ (get_object _) => apply raises_only_get_object; exact I
  | |- raises_only _ (set_object _ _) => apply raises_only_set_object; exact I
  | |- raises_only _ (next _) => apply raises_only_next; exact I
  | |- raises_only _ (getitem _ _) => apply raises_only_lift; exact I
  | |- raises_only _ (series_first _) => apply raises_only_lift; exact I
  | |- raises_only _ (copy_copy _) => unfold copy_copy
  | |- raises_only _ (for_each _ _) => unfold for_each
  | |- raises_only _ (for_fold _ _ _) => apply raises_only_for_fold; intros ? ?
  | |- raises_only _ (comprehension _ _) => apply raises_only_comprehension; intros ?
  | |- raises_only _ (call (logsumexp _)) =>
      apply raises_only_call; intros ? ->%logsumexp_raises; exact I
  | |- raises_only _ (call (np_max _)) =>
      apply raises_only_call; intros ? ->%np_max_raises; exact I
  | |- raises_only _ (match ?x with _ => _ end) => destruct x
  | |- raises_only _ (let '(_, _) := ?x in _) => destruct x
  end.

Ltac raises_only_steps := repeat raises_only_step.

Lemma lweights_of_raises (self : RBPF) :
  raises_only raised_by_source (lweights_of self).
Proof. unfold lweights_of. raises_only_steps. Qed.

Lemma resample_particles_raises (self : RBPF) :
  raises_only raised_by_source (resample_particles self).
Proof.
  unfold resample_particles, resample_copies.
  apply raises_only_bind; [apply lweights_of_raises | intros lweights].
  raises_only_steps.
Qed.

Lemma Rsum_repeat_0 (n : nat) : Rsum (repeat 0 n) = 0.
Proof.
  unfold Rsum. induction n as [| n IH]; cbn [repeat fold_right]; [reflexivity |].
  rewrite IH. ring.
Qed.

Lemma map_fdiv_zero (n : nat) :
  map (fun x => fdiv x (Fin 0)) (map Fin (repeat 0 n)) = repeat NaN n.
Proof.
  induction n as [| n IH]; cbn [repeat map]; [reflexivity |].
  rewrite IH. f_equal. unfold fdiv.
  destruct (Req_dec_T 0 0) as [_ | Hn]; [reflexivity | congruence].
Qed.

(** When every linear weight is exactly zero, the renormalisation
    divides zero by zero. *)
Lemma probabilities_of_collapse (ws : list float64) :
  Forall (fun v => fexp v = Fin 0) ws ->
  probabilities_of ws = repeat NaN (length ws).
Proof.
  intros Hz. unfold probabilities_of.
  assert (Hexp : map nan_to_num (map fexp ws) = map Fin (repeat 0 (length ws))).
  { induction Hz as [| v ws Hv _ IH]; cbn [map length repeat]; [reflexivity |].
    rewrite Hv, IH. reflexivity. }
  rewrite Hexp, np_sum_Fin, Rsum_repeat_0. apply map_fdiv_zero.
Qed.

(** C8, as the code has it.  When every particle's weight exponentiates
    to exactly zero, [resample_particles] has no check of its own: the
    probabilities it computes are all NaN and it goes on to the
    multinomial draw with them.  The call ends with the [ValueError] of
    numpy when numpy refuses them, returns a resampled population when
    numpy answers with counts, and never raises
    [NumericInstabilityError]. *)
Theorem resample_particles_collapse (self : RBPF) (w : world) (ws : list float64) :
  has_lweights w (particles self) ws ->
  Forall (fun v => fexp v = Fin 0) ws ->
  probabilities_of ws = repeat NaN (length ws) /\
  resample_particles self w <> Raise NumericInstabilityError /\
  (np_random_multinomial (gen w) (N self) (repeat NaN (length ws)) = None ->
   resample_particles self w = Raise ValueError) /\
  (forall sel g',
     np_random_multinomial (gen w) (N self) (repeat NaN (length ws)) = Some (sel, g') ->
     (Z.to_nat (N self) <= length (particles self))%nat ->
     (Z.to_nat (N self) <= length sel)%nat ->
     exists self' w', resample_particles self w = Ok (self', w')).
Proof.
  intros Hw Hz. pose proof (probabilities_of_collapse ws Hz) as Hnan.
  split; [assumption |]. split; [| split].
  - intros Hraise. apply (resample_particles_raises self w _ Hraise).
  - intros Hdraw. rewrite <- Hnan in Hdraw.
    apply (resample_particles_refused self w ws Hw Hdraw).
  - intros sel g' Hdraw Hps Hsel. rewrite <- Hnan in Hdraw.
    destruct (resample_particles_run self w ws sel g' Hw Hdraw Hps Hsel)
      as (os & w' & Hrun & _).
    eauto.
Qed.

(** ** Normalised weights *)

Lemma Rsum_nonneg (l : list R) : Forall (fun x => 0 <= x) l -> 0 <= Rsum l.
Proof.
  unfold Rsum. induction 1 as [| x l Hx _ IH]; cbn [fold_right]; lra.
Qed.


Lemma Rsum_elem_le (l : list R) :
  Forall (fun x => 0 <= x) l -> Forall (fun x => x <= Rsum l) l.
Proof.
  induction 1 as [| x l Hx Hl IH]; constructor.
  - pose proof (Rsum_nonneg l Hl). unfold Rsum in *. cbn [fold_right]. lra.
  - eapply Forall_impl; [exact IH |]. cbn. intros y Hy.
    unfold Rsum in *. cbn [fold_right]. lra.
Qed.




Lemma Rsum_le_bound (l : list R) (m : R) :
  Forall (fun x => x <= m) l -> Rsum l <= INR (length l) * m.
Proof.
  unfold Rsum. induction 1 as [| x l Hx _ IH]; cbn [fold_right length].
  - cbn [INR]. lra.
  - rewrite S_INR. nra.
Qed.

Lemma Rsum_sq_pos (l : list R) :
  Forall (fun x => 0 <= x) l -> 0 < Rsum l -> 0 < Rsum (map (fun x => x * x) l).
Proof.
  unfold Rsum. induction 1 as [| x l Hx Hl IH]; cbn [map fold_right]; [lra |].
  intros Hpos.
  assert (0 <= fold_right Rplus 0 (map (fun x => x * x) l)).
  { apply (Rsum_nonneg (map (fun x => x * x) l)).
    apply Forall_forall. intros y Hy. apply list_elem_of_fmap in Hy as [z [-> _]]. nra. }
  destruct (Rle_lt_or_eq_dec 0 x Hx) as [Hlt | <-]; [nra |].
  assert (Hrest : 0 < fold_right Rplus 0 l) by lra. specialize (IH Hrest). lra.
Qed.

Lemma Rmaximum_ge (l : list R) :
  forall a, a <= Rmaximum a l /\ Forall (fun x => x <= Rmaximum a l) l.
Proof.
  unfold Rmaximum. induction l as [| b l IH]; intros a; cbn [fold_left].
  - split; [lra | constructor].
  - destruct (IH (Rmax a b)) as [Hab Hl].
    pose proof (Rmax_l a b). pose proof (Rmax_r a b).
    split; [lra |]. constructor; [lra | assumption].
Qed.

Lemma Rmaximum_elem (l : list R) :
  forall a, elem_of (Rmaximum a l) (a :: l).
Proof.
  unfold Rmaximum. induction l as [| b l IH]; intros a; cbn [fold_left].
  - apply elem_of_cons. left. reflexivity.
  - specialize (IH (Rmax a b)). apply elem_of_cons in IH as [Heq | Hin].
    + rewrite Heq. unfold Rmax. destruct (Rle_dec a b).
      * apply elem_of_cons. right. apply elem_of_cons. left. reflexivity.
      * apply elem_of_cons. left. reflexivity.
    + apply elem_of_cons. right. apply elem_of_cons. right. assumption.
Qed.

Lemma ln_le_compat (x y : R) : 0 < x -> x <= y -> ln x <= ln y.
Proof.
  intros Hx [Hlt | ->]; [| lra]. left. apply ln_increasing; assumption.
Qed.

Section Normalised.
Variable wl : list R.
Hypothesis wl_nonneg : Forall (fun x => 0 <= x) wl.
Hypothesis wl_sum : Rsum wl = 1.








End Normalised.

(** ** The estimators of the effective sample size *)












(** ** Reasoning on runs *)

Lemma bind_ok {A B} (c : M A) (k : A -> M B) (w : world) (r : B * world) :
  bind c k w = Ok r <-> exists a w1, c w = Ok (a, w1) /\ k a w1 = Ok r.
Proof.
  unfold bind. split.
  - destruct (c w) as [[a w1] | e]; [| discriminate]. eauto.
  - intros (a & w1 & -> & Hk). assumption.
Qed.

Lemma wp_elim {A} (c : M A) (w w' : world) (a : A) (Q : A -> world -> Prop) :
  wp c w Q -> c w = Ok (a, w') -> Q a w'.
Proof. unfold wp. intros Hwp Hc. rewrite Hc in Hwp. assumption. Qed.

Lemma wp_mono {A} (c : M A) (w : world) (Q Q' : A -> world -> Prop) :
  wp c w Q -> (forall a w', Q a w' -> Q' a w') -> wp c w Q'.
Proof. unfold wp. destruct (c w) as [[a w'] | e]; auto. Qed.

Lemma wp_bind {A B} (c : M A) (k : A -> M B) (w : world)
    (Q : B -> world -> Prop) :
  wp c w (fun a w' => wp (k a) w' Q) -> wp (bind c k) w Q.
Proof. unfold wp, bind. destruct (c w) as [[a w'] | e]; auto. Qed.

Lemma wp_ret {A} (a : A) (w : world) (Q : A -> world -> Prop) :
  Q a w -> wp (ret a) w Q.
Proof. auto. Qed.

Lemma wp_lift {A} (e : exn) (o : option A) (w : world) (Q : A -> world -> Prop) :
  (forall a, o = Some a -> Q a w) -> wp (lift e o) w Q.
Proof. destruct o; cbn; auto. Qed.

Lemma wp_call {A} (o : outcome A) (w : world) (Q : A -> world -> Prop) :
  (forall a, o = Ok a -> Q a w) -> wp (call o) w Q.
Proof. unfold wp, call. destruct o; auto. Qed.

Lemma wp_draw {A} (f : rng -> A * rng) (w : world) (Q : A -> world -> Prop) :
  (forall a g, Q a {| objs := objs w; arrs := arrs w; gen := g |}) ->
  wp (draw f) w Q.
Proof. unfold wp, draw. destruct (f (gen w)). auto. Qed.

Lemma wp_draw_opt {A} (e : exn) (f : rng -> option (A * rng)) (w : world)
    (Q : A -> world -> Prop) :
  (forall a g, f (gen w) = Some (a, g) ->
     Q a {| objs := objs w; arrs := arrs w; gen := g |}) ->
  wp (draw_opt e f) w Q.
Proof. unfold wp, draw_opt. destruct (f (gen w)) as [[a g] |]; auto. Qed.

Lemma wp_new_array (a : ndarray) (w : world) (Q : nat -> world -> Prop) :
  Q (length (arrs w)) {| objs := objs w; arrs := arrs w ++ [a]; gen := gen w |} ->
  wp (new_array a) w Q.
Proof. auto. Qed.

Lemma wp_get_array (r : ref) (w : world) (Q : ndarray -> world -> Prop) :
  (forall a, arrs w !! r = Some a -> Q a w) -> wp (get_array r) w Q.
Proof. unfold wp, get_array. destruct (arrs w !! r); auto. Qed.

Lemma wp_new_object (p : LangevinParticle) (w : world) (Q : nat -> world -> Prop) :
  Q (length (objs w)) {| objs := objs w ++ [p]; arrs := arrs w; gen := gen w |} ->
  wp (new_object p) w Q.
Proof. auto. Qed.

Lemma wp_get_object (r : ref) (w : world) (Q : LangevinParticle -> world -> Prop) :
  (forall p, objs w !! r = Some p -> Q p w) -> wp (get_object r) w Q.
Proof. unfold wp, get_object. destruct (objs w !! r); auto. Qed.

Lemma wp_set_object (r : ref) (p : LangevinParticle) (w : world)
    (Q : unit -> world -> Prop) :
  (forall p0, objs w !! r = Some p0 ->
     Q tt {| objs := <[r := p]> (objs w); arrs := arrs w; gen := gen w |}) ->
  wp (set_object r p) w Q.
Proof. unfold wp, set_object. destruct (objs w !! r); eauto. Qed.

Lemma wp_next {A} (g : list A) (w : world) (Q : A * list A -> world -> Prop) :
  (forall x g', g = x :: g' -> Q (x, g') w) -> wp (next g) w Q.
Proof. destruct g; cbn; auto. Qed.

Lemma wp_for_fold {A S} (Inv : S -> world -> Prop) (l : list A)
    (body : A -> S -> M S) :
  (forall x s w, Inv s w -> wp (body x s) w Inv) ->
  forall s w, Inv s w -> wp (for_fold l body s) w Inv.
Proof.
  intros Hbody. induction l as [| x l IH]; intros s w Hinv; cbn [for_fold].
  - apply wp_ret. assumption.
  - apply wp_bind. eapply wp_mono; [apply Hbody; assumption |].
    cbn beta. intros s' w' Hinv'. apply IH. assumption.
Qed.

Lemma wp_comprehension {A B} (Inv : world -> Prop) (P : B -> Prop) (l : list A)
    (f : A -> M B) :
  (forall x w, Inv w -> wp (f x) w (fun b w' => Inv w' /\ P b)) ->
  forall w, Inv w ->
  wp (comprehension l f) w (fun bs w' => Inv w' /\ Forall P bs /\ length bs = length l).
Proof.
  intros Hf. induction l as [| x l IH]; intros w Hinv; cbn [comprehension].
  - apply wp_ret. split; [assumption |]. split; [constructor | reflexivity].
  - apply wp_bind. eapply wp_mono; [apply Hf; assumption |].
    cbn beta. intros b w1 [Hinv1 Hb]. apply wp_bind.
    eapply wp_mono; [apply IH; assumption |].
    cbn beta. intros bs w2 (Hinv2 & Hbs & Hlen). apply wp_ret.
    split; [assumption |]. split; [constructor; assumption |]. cbn [length]. lia.
Qed.

Ltac wp_step :=
  match goal with
  | |- wp (bind _ _) _ _ => apply wp_bind
  | |- wp (ret _) _ _ => apply wp_ret
  | |- wp (lift _ _) _ _ => apply wp_lift; intros ? _
  | |- wp (draw _) _ _ => apply wp_draw; intros ? ?
  | |- wp (new_array _) _ _ => apply wp_new_array
  | |- wp (get_array _) _ _ => apply wp_get_array; intros ? _
  | |- wp (get_object _) _ _ => apply wp_get_object; intros ? ?
  | |- wp (set_object _ _) _ _ => apply wp_set_object; intros ? ?
  | |- wp (let '(_, _) := ?x in _) _ _ => destruct x
  | |- wp (match ?x with _ => _ end) _ _ => destruct x
  | |- wp (let _ := _ in _) _ _ => cbv zeta
  end; cbn [objs arrs gen] in *.

Ltac wp_steps := repeat wp_step.

(** ** The log-weights through [increment] *)

Lemma lweights_kept_refl (w : world) : lweights_kept w w.
Proof. split; reflexivity. Qed.

Lemma lweights_kept_trans (w1 w2 w3 : world) :
  lweights_kept w1 w2 -> lweights_kept w2 w3 -> lweights_kept w1 w3.
Proof.
  intros [Hl1 Hw1] [Hl2 Hw2]. split; [congruence |].
  intros r. rewrite Hw2. apply Hw1.
Qed.

Lemma lweights_kept_objs (w w' : world) :
  objs w' = objs w -> lweights_kept w w'.
Proof. intros Ho. unfold lweights_kept. rewrite Ho. split; reflexivity. Qed.

(** An assignment to attributes other than the log-weight. *)
Lemma lweights_kept_insert (w w' : world) (r : ref) (p p' : LangevinParticle) :
  objs w !! r = Some p -> logweight p' = logweight p ->
  objs w' = <[r := p']> (objs w) -> lweights_kept w w'.
Proof.
  intros Hp Hlw Ho. unfold lweights_kept. rewrite Ho. split; [apply length_insert |].
  intros r0. destruct (decide (r0 = r)) as [-> | Hne].
  - rewrite list_lookup_insert_eq by (eapply lookup_lt_Some, Hp).
    rewrite Hp. cbn. f_equal. assumption.
  - rewrite list_lookup_insert_ne by congruence. reflexivity.
Qed.

Lemma predict_keeps (self : ref) (s t : float64) (w : world) :
  wp (predict self s t) w (fun _ w' => lweights_kept w w').
Proof.
  unfold predict. wp_steps.
  match goal with
  | Hp : objs w !! self = Some ?p |- _ =>
      apply (lweights_kept_insert _ _ self p (with_alpha p (length (arrs w))) Hp);
        reflexivity
  end.
Qed.

Lemma correct_pure (self : ref) (observation : float64) (acp Ccp : ndarray)
    (w : world) :
  wp (correct self observation acp Ccp) w (fun _ w' => w' = w).
Proof. unfold correct. wp_steps. reflexivity. Qed.

Lemma log_ped_pure (self : ref) (observation : float64) (acp Ccp : ndarray)
    (w : world) :
  wp (log_ped self observation acp Ccp) w (fun _ w' => w' = w).
Proof. unfold log_ped. wp_steps. reflexivity. Qed.

Lemma kalman_step_keeps (self : ref) (observation s t : float64) (w : world) :
  wp (kalman_step self observation s t) w (fun _ w' => lweights_kept w w').
Proof.
  unfold kalman_step. apply wp_bind.
  eapply wp_mono; [apply predict_keeps |]. cbn beta. intros [acp Ccp] w1 Hk1.
  apply wp_bind. eapply wp_mono; [apply correct_pure |].
  cbn beta. intros [acc_v Ccc_v] w2 ->.
  wp_steps. eapply wp_mono; [apply log_ped_pure |]. cbn beta. intros lp w3 ->.
  eapply lweights_kept_trans; [exact Hk1 |].
  match goal with
  | Hp : objs w1 !! self = Some ?p |- _ =>
      eapply (lweights_kept_insert _ _ self p _ Hp); [| reflexivity]; reflexivity
  end.
Qed.

(** [increment] adds the value of [log_ped] to the log-weight of its
    particle and leaves the other log-weights as they are. *)
Lemma increment_logged_effect (self : ref) (observation s t : float64)
    (w : world) :
  wp (increment_logged self observation s t) w (fun lp w' =>
    length (objs w') = length (objs w) /\
    forall r, logweight <$> objs w' !! r =
      if decide (r = self)
      then (fun v => fadd v lp) <$> (logweight <$> objs w !! r)
      else logweight <$> objs w !! r).
Proof.
  unfold increment_logged. apply wp_bind.
  eapply wp_mono; [apply kalman_step_keeps |]. cbn beta. intros lp w1 [Hlen Hlw].
  wp_steps. split; [rewrite length_insert; assumption |].
  intros r. destruct (decide (r = self)) as [-> | Hne].
  - rewrite list_lookup_insert_eq by (eapply lookup_lt_Some; eassumption).
    rewrite <- Hlw.
    match goal with
    | Hp : objs w1 !! self = Some ?q |- context [with_logweight ?q _] => rewrite Hp
    end.
    reflexivity.
  - rewrite list_lookup_insert_ne by congruence. apply Hlw.
Qed.

Lemma increment_as_logged (self : ref) (observation s t : float64) (w : world) :
  increment self observation s t w =
  match increment_logged self observation s t w with
  | Ok (_, w') => Ok (tt, w')
  | Raise e => Raise e
  end.
Proof.
  unfold increment, increment_logged, bind.
  destruct (kalman_step self observation s t w) as [[lp w1] | e]; [| reflexivity].
  destruct (get_object self w1) as [[p w2] | e]; [| reflexivity].
  destruct (set_object self _ w2) as [[[] w3] | e]; reflexivity.
Qed.

(** The loop of [increment_particles] returns exactly when the loop that
    also collects the values of [log_ped] does, with the same state. *)
Lemma for_each_increment_logged (ps : list ref) (observation s t : float64) :
  forall w w',
  for_each ps (fun r => increment r observation s t) w = Ok (tt, w') ->
  exists lps,
    comprehension ps (fun r => increment_logged r observation s t) w = Ok (lps, w').
Proof.
  unfold for_each. induction ps as [| r ps IH]; intros w w'; cbn [for_fold comprehension].
  - unfold ret. intros [= <-]. exists []. reflexivity.
  - intros Hrun. apply bind_ok in Hrun as ([] & w1 & Hinc & Hrest).
    rewrite increment_as_logged in Hinc.
    destruct (increment_logged r observation s t w) as [[lp w1'] | e] eqn:Hlog;
      [| discriminate].
    injection Hinc as ->. destruct (IH _ _ Hrest) as [lps Hlps].
    exists (lp :: lps). unfold bind. rewrite Hlog, Hlps. reflexivity.
Qed.

Lemma lweight_lookup (w : world) (r : ref) (v : float64) :
  (exists p, objs w !! r = Some p /\ logweight p = v) <->
  logweight <$> objs w !! r = Some v.
Proof.
  rewrite fmap_Some. split; intros (p & Hp & Hv); exists p; split; auto.
Qed.

Lemma has_lweights_transfer (w w' : world) (ps : list ref) (ws : list float64) :
  (forall r, elem_of r ps ->
     logweight <$> objs w' !! r = logweight <$> objs w !! r) ->
  has_lweights w ps ws -> has_lweights w' ps ws.
Proof.
  intros Hsame Hw. revert Hsame.
  induction Hw as [| r v ps ws Hr _ IH]; intros Hsame; constructor.
  - apply lweight_lookup. rewrite Hsame by (apply elem_of_cons; left; reflexivity).
    apply lweight_lookup. assumption.
  - apply IH. intros r0 Hr0. apply Hsame. apply elem_of_cons. right. assumption.
Qed.

(** The loop of [increment_particles] over a population adds to the
    log-weight of each particle the value of [log_ped] of its own
    increment. *)
Lemma increment_all_weights (observation s t : float64) (ps : list ref) :
  forall (ws : list float64) (w : world),
  NoDup ps -> has_lweights w ps ws ->
  wp (comprehension ps (fun r => increment_logged r observation s t)) w
    (fun lps w' =>
       length lps = length ps /\
       has_lweights w' ps (zip_with fadd ws lps) /\
       length (objs w') = length (objs w) /\
       forall r, ~ elem_of r ps ->
         logweight <$> objs w' !! r = logweight <$> objs w !! r).
Proof.
  induction ps as [| r ps IH]; intros ws w Hnd Hw; cbn [comprehension].
  - apply wp_ret. inversion Hw; subst. repeat split. constructor.
  - inversion Hw as [| r' v ps' ws' Hr Hw']; subst.
    apply NoDup_cons in Hnd as [Hnin Hnd].
    apply wp_bind. eapply wp_mono; [apply increment_logged_effect |].
    cbn beta. intros lp w1 [Hlen1 Hlw1].
    assert (Hw1 : has_lweights w1 ps ws').
    { eapply has_lweights_transfer; [| exact Hw']. intros r0 Hr0. rewrite Hlw1.
      destruct (decide (r0 = r)) as [-> | _]; [contradiction | reflexivity]. }
    apply wp_bind. eapply wp_mono; [apply (IH ws' w1 Hnd Hw1) |].
    cbn beta. intros lps w2 (Hl & Hw2 & Hlen2 & Hout). apply wp_ret.
    split; [cbn [length]; lia |]. split; [| split; [congruence |]].
    + cbn [zip_with]. constructor; [| assumption].
      apply lweight_lookup. rewrite (Hout r Hnin), Hlw1.
      destruct (decide (r = r)) as [_ | Hne]; [| congruence].
      apply lweight_lookup in Hr. rewrite Hr. reflexivity.
    + intros r0 Hr0. rewrite Hout, Hlw1.
      * destruct (decide (r0 = r)) as [-> | _]; [| reflexivity].
        exfalso. apply Hr0. apply elem_of_cons. left. reflexivity.
      * intros Hin. apply Hr0. apply elem_of_cons. right. assumption.
Qed.

(** ** Construction *)

Lemma LangevinParticle_init_post (mumu sigmasq beta kw kv theta : float64)
    (gsamps : Z) (w : world) :
  wp (LangevinParticle_init mumu sigmasq beta kw kv theta gsamps) w
    (fun r w' => r = length (objs w) /\
                 exists p, objs w' = objs w ++ [p] /\ logweight p = Fin 0).
Proof.
  unfold LangevinParticle_init. cbv zeta. wp_steps.
  split; [reflexivity |]. eexists. split; reflexivity.
Qed.

Lemma init_particles_post {A} (mumu sigmasq beta kw kv theta : float64)
    (gsamps : Z) (l : list A) :
  forall w,
  wp (comprehension l
        (fun _ => LangevinParticle_init mumu sigmasq beta kw kv theta gsamps)) w
    (fun ps w' =>
       ps = seq (length (objs w)) (length l) /\
       exists os, objs w' = objs w ++ os /\ length os = length l /\
                  Forall (fun p => logweight p = Fin 0) os).
Proof.
  induction l as [| x l IH]; intros w; cbn [comprehension].
  - apply wp_ret. split; [reflexivity |]. exists []. rewrite app_nil_r.
    split; [reflexivity |]. split; [reflexivity | constructor].
  - apply wp_bind. eapply wp_mono; [apply LangevinParticle_init_post |].
    cbn beta. intros r w1 (-> & p & Hobjs1 & Hp).
    apply wp_bind. eapply wp_mono; [apply IH |].
    cbn beta. intros ps w2 (-> & os & Hobjs2 & Hlen & Hos). apply wp_ret.
    rewrite Hobjs1, length_app in *. cbn [length] in *.
    replace (length (objs w) + 1)%nat with (S (length (objs w))) by lia.
    split; [reflexivity |]. exists (p :: os).
    split; [rewrite Hobjs2, <- app_assoc; reflexivity |].
    split; [cbn [length]; lia | constructor; assumption].
Qed.

(** The filter that the constructor returns: its threshold, its
    likelihood accumulator, and its particles, which are new objects with
    log-weight [0.]. *)
Lemma RBPF_init_post (mumu sigmasq beta kw kv theta : float64)
    (data : list (float64 * float64)) (n : Z) (gsamps : Z) (epsilon : float64)
    (w : world) :
  wp (RBPF_init mumu sigmasq beta kw kv theta data n gsamps epsilon) w
    (fun self w' =>
       N self = n /\
       log_resample_limit self = flog (fmul (Fin (IZR n)) epsilon) /\
       log_marginal_likelihood self = Fin 0 /\
       particles self = seq (length (objs w)) (Z.to_nat n) /\
       exists os, objs w' = objs w ++ os /\ length os = Z.to_nat n /\
                  Forall (fun p => logweight p = Fin 0) os).
Proof.
  unfold RBPF_init, series_first. cbv zeta.
  apply wp_bind, wp_lift. intros initial_time _.
  apply wp_bind, wp_lift. intros initial_price _.
  apply wp_bind, wp_next. intros ct tg _.
  apply wp_bind, wp_next. intros cp pg _.
  apply wp_bind. eapply wp_mono; [apply init_particles_post |].
  cbn beta. intros ps w' (-> & os & Hobjs & Hlen & Hos). apply wp_ret.
  cbn [N log_resample_limit log_marginal_likelihood particles].
  unfold range in *. rewrite length_seq in *.
  repeat (split; [reflexivity |]). exists os. auto.
Qed.

Lemma fresh_population (w w' : world) (os : list LangevinParticle) (v : float64) :
  objs w' = objs w ++ os ->
  Forall (fun p => logweight p = v) os ->
  population w' (seq (length (objs w)) (length os)) /\
  has_lweights w' (seq (length (objs w)) (length os)) (repeat v (length os)).
Proof.
  intros Hobjs Hos. split.
  - split; [apply NoDup_seq |]. apply Forall_forall. intros r Hr.
    apply elem_of_seq in Hr. rewrite Hobjs, length_app. lia.
  - unfold has_lweights. rewrite Hobjs. clear Hobjs. generalize (objs w) as pre.
    induction Hos as [| p os Hp _ IH]; intros pre; cbn [length seq repeat].
    + constructor.
    + constructor.
      * exists p. split; [apply list_lookup_middle; reflexivity | assumption].
      * specialize (IH (pre ++ [p])). rewrite length_app in IH. cbn [length] in IH.
        replace (length pre + 1)%nat with (S (length pre)) in IH by lia.
        rewrite <- app_assoc in IH. exact IH.
Qed.

(** ** [run_filter] *)

Lemma wp_true {A} (c : M A) (w : world) : wp c w (fun _ _ => True).
Proof. unfold wp. destruct (c w) as [[a w'] | e]; exact I. Qed.

Lemma call_ok {A} (o : outcome A) (w w' : world) (a : A) :
  call o w = Ok (a, w') -> o = Ok a /\ w' = w.
Proof. unfold call. destruct o; [intros [= <- <-]; auto | discriminate]. Qed.

Lemma reweight_particles_self (self : RBPF) (w : world) :
  wp (reweight_particles self) w (fun self' _ => self' = self).
Proof.
  unfold reweight_particles.
  apply wp_bind. eapply wp_mono; [apply wp_true |]. cbn beta. intros lws w1 _.
  apply wp_bind. eapply wp_mono; [apply wp_true |]. cbn beta. intros sw w2 _.
  apply wp_bind. eapply wp_mono; [apply wp_true |]. cbn beta. intros [] w3 _.
  apply wp_ret. reflexivity.
Qed.

Lemma resample_particles_self (self : RBPF) (w : world) :
  wp (resample_particles self) w
    (fun self' _ => exists news, self' = with_particles self news).
Proof.
  unfold resample_particles.
  apply wp_bind. eapply wp_mono; [apply wp_true |]. cbn beta. intros lws w1 _.
  cbv zeta.
  apply wp_bind. eapply wp_mono; [apply wp_true |]. cbn beta. intros sel w2 _.
  apply wp_bind. eapply wp_mono; [apply wp_true |]. cbn beta. intros news w3 _.
  apply wp_bind. eapply wp_mono; [apply wp_true |]. cbn beta. intros [] w4 _.
  apply wp_ret. exists news. reflexivity.
Qed.

Lemma increment_particles_self (self : RBPF) (w : world) :
  wp (increment_particles self) w
    (fun self' _ => exists cp pg ct tg, self' = with_cursor self cp pg ct tg).
Proof.
  unfold increment_particles.
  apply wp_bind, wp_next. intros cp pg _.
  cbv zeta. apply wp_bind, wp_next. intros ct tg _.
  apply wp_bind. eapply wp_mono; [apply wp_true |]. cbn beta. intros [] w3 _.
  apply wp_ret. exists cp, pg, ct, tg. reflexivity.
Qed.

Lemma comprehension_pure {A B} (l : list A) (f : A -> M B) :
  (forall x w, wp (f x) w (fun _ w' => w' = w)) ->
  forall w, wp (comprehension l f) w (fun _ w' => w' = w).
Proof.
  intros Hf w.
  eapply wp_mono;
    [apply (wp_comprehension (fun w' => w' = w) (fun _ => True)) |].
  - intros x w1 ->. eapply wp_mono; [apply Hf |]. cbn beta. intros b w' ->. auto.
  - reflexivity.
  - cbn beta. intros bs w' [-> _]. reflexivity.
Qed.

Lemma get_state_mean_pure (self : RBPF) (w : world) :
  wp (get_state_mean self) w (fun _ w' => w' = w).
Proof.
  unfold get_state_mean. apply wp_bind.
  eapply wp_mono; [apply comprehension_pure |].
  - intros r w1. wp_steps. reflexivity.
  - cbn beta. intros terms w' ->. apply wp_ret. reflexivity.
Qed.

Lemma get_state_covariance_pure (self : RBPF) (w : world) :
  wp (get_state_covariance self) w (fun _ w' => w' = w).
Proof.
  unfold get_state_covariance. apply wp_bind.
  eapply wp_mono; [apply comprehension_pure |].
  - intros r w1. wp_steps. reflexivity.
  - cbn beta. intros terms w' ->. apply wp_ret. reflexivity.
Qed.

(** The recording of the history reads the state and leaves it as it
    is. *)
Lemma record_history_pure (self : RBPF) (h : history) (w : world) :
  wp (record_history self h) w (fun _ w' => w' = w).
Proof.
  unfold record_history.
  apply wp_bind. eapply wp_mono; [apply get_state_mean_pure |].
  cbn beta. intros smean w1 ->.
  apply wp_bind. eapply wp_mono; [apply get_state_covariance_pure |].
  cbn beta. intros svar w2 ->.
  wp_steps. reflexivity.
Qed.

Lemma get_log_predictive_likelihood_ok (self : RBPF) (w w' : world) (v : float64) :
  get_log_predictive_likelihood self w = Ok (v, w') ->
  w' = w /\ exists lws, has_lweights w (particles self) lws /\ logsumexp lws = Ok v.
Proof.
  unfold get_log_predictive_likelihood. intros Hrun.
  apply bind_ok in Hrun as (lws & w1 & Hlws & Hcall).
  apply lweights_of_inv in Hlws as [-> Hlws].
  apply call_ok in Hcall as [Hlse ->]. eauto.
Qed.

Lemma get_logDninf_ok (self : RBPF) (w w' : world) (d : float64) :
  get_logDninf self w = Ok (d, w') ->
  w' = w /\ exists lws m, has_lweights w (particles self) lws /\
                          np_max lws = Ok m /\ d = fneg m.
Proof.
  unfold get_logDninf. intros Hrun.
  apply bind_ok in Hrun as (lws & w1 & Hlws & Hrest).
  apply lweights_of_inv in Hlws as [-> Hlws].
  apply bind_ok in Hrest as (m & w2 & Hcall & Hret).
  apply call_ok in Hcall as [Hmax ->].
  unfold ret in Hret. injection Hret as <- <-. eauto 6.
Qed.

(** One run of the body of the loop, taken apart. *)
Lemma run_filter_body_inv (ret_history : bool) (self self' : RBPF)
    (h h' : history) (w w' : world) :
  run_filter_body ret_history (self, h) w = Ok ((self', h'), w') ->
  exists self1 w1 lws L w2 nws m,
    increment_particles self w = Ok (self1, w1) /\
    (exists cp pg ct tg, self1 = with_cursor self cp pg ct tg) /\
    has_lweights w1 (particles self1) lws /\
    logsumexp lws = Ok L /\
    let self2 := with_log_marginal_likelihood self1
                   (fadd (log_marginal_likelihood self) L) in
    reweight_particles self2 w1 = Ok (self2, w2) /\
    has_lweights w2 (particles self1) nws /\
    np_max nws = Ok m /\
    if flt (fneg m) (log_resample_limit self)
    then resample_particles self2 w2 = Ok (self', w')
    else self' = self2 /\ w' = w2.
Proof.
  unfold run_filter_body. intros Hrun.
  apply bind_ok in Hrun as (self1 & w1 & Hinc & Hrun).
  pose proof (wp_elim _ _ _ _ _ (increment_particles_self self w) Hinc)
    as (cp & pg & ct & tg & Hself1).
  apply bind_ok in Hrun as (L & w1' & Hlpl & Hrun).
  apply get_log_predictive_likelihood_ok in Hlpl as (-> & lws & Hlws & HL).
  cbv zeta in Hrun.
  apply bind_ok in Hrun as (self2 & w2 & Hrew & Hrun).
  pose proof (wp_elim _ _ _ _ _ (reweight_particles_self _ w1) Hrew) as Hself2.
  apply bind_ok in Hrun as (h2 & w2' & Hhist & Hrun).
  assert (Hw2' : w2' = w2).
  { destruct ret_history.
    - apply (wp_elim _ _ _ _ _ (record_history_pure self2 h w2) Hhist).
    - unfold ret in Hhist. injection Hhist as _ <-. reflexivity. }
  subst w2'.
  apply bind_ok in Hrun as (d & w2'' & Hd & Hrun).
  apply get_logDninf_ok in Hd as (-> & nws & m & Hnws & Hmax & ->).
  assert (Hlml : log_marginal_likelihood self1 = log_marginal_likelihood self)
    by (rewrite Hself1; reflexivity).
  assert (Hlrl : log_resample_limit self2 = log_resample_limit self)
    by (rewrite Hself2, Hself1; reflexivity).
  rewrite Hlml in *. rewrite Hlrl in Hrun.
  exists self1, w1, lws, L, w2, nws, m.
  split; [assumption |]. split; [eauto |]. split; [assumption |].
  split; [assumption |]. cbv zeta. rewrite Hself2 in *. cbn [particles with_log_marginal_likelihood] in Hnws.
  split; [assumption |]. split; [assumption |]. split; [assumption |].
  destruct (flt (fneg m) (log_resample_limit self)).
  - apply bind_ok in Hrun as (self3 & w3 & Hres & Hret).
    unfold ret in Hret. injection Hret as <- <- <-. assumption.
  - unfold ret in Hrun. injection Hrun as <- <- <-. split; reflexivity.
Qed.

Lemma run_filter_body_fields (ret_history : bool) (self self' : RBPF)
    (h h' : history) (w w' : world) :
  run_filter_body ret_history (self, h) w = Ok ((self', h'), w') ->
  N self' = N self /\ log_resample_limit self' = log_resample_limit self.
Proof.
  intros Hrun. apply run_filter_body_inv in Hrun
    as (self1 & w1 & lws & L & w2 & nws & m & _ & (cp & pg & ct & tg & ->) & _ & _ & Hrest).
  cbv zeta in Hrest. destruct Hrest as (_ & _ & _ & Hend).
  destruct (flt (fneg m) (log_resample_limit self)).
  - pose proof (wp_elim _ _ _ _ _ (resample_particles_self _ w2) Hend) as [news ->].
    split; reflexivity.
  - destruct Hend as [-> _]. split; reflexivity.
Qed.

Lemma run_filter_loop_fields (ret_history : bool) (l : list nat) :
  forall (st st' : RBPF * history) (w w' : world),
  for_fold l (fun _ st => run_filter_body ret_history st) st w = Ok (st', w') ->
  N (fst st') = N (fst st) /\
  log_resample_limit (fst st') = log_resample_limit (fst st).
Proof.
  induction l as [| i l IH]; intros st st' w w'; cbn [for_fold].
  - unfold ret. intros [= <- <-]. split; reflexivity.
  - intros Hrun. apply bind_ok in Hrun as ([self1 h1] & w1 & Hbody & Hrest).
    destruct st as [self h].
    apply run_filter_body_fields in Hbody as [HN Hlrl].
    apply IH in Hrest as [HN' Hlrl']. cbn [fst] in *. split; congruence.
Qed.

(** C5.  In an iteration of the loop of [run_filter], on a filter built
    with [n] particles and the threshold [epsilon], after any iterations
    [l] before it: the filter still has [N = n]; the particles are
    incremented; the log-sum-exp [L] of the log-weights [lws] they then
    have, which are not yet normalised, is added to the marginal
    likelihood; the weights are then normalised; and with the normalised
    log-weights [nws], the particles are resampled exactly when
    [-max(nws) < log(n * epsilon)]. *)
Theorem run_filter_iteration (mumu sigmasq beta kw kv theta : float64)
    (data : list (float64 * float64)) (n : Z) (gsamps : Z) (epsilon : float64)
    (w0 w0' : world) (self0 : RBPF) (ret_history : bool) (l : list nat)
    (h0 h h' : history) (self self' : RBPF) (w w' : world) :
  RBPF_init mumu sigmasq beta kw kv theta data n gsamps epsilon w0 = Ok (self0, w0') ->
  for_fold l (fun _ st => run_filter_body ret_history st) (self0, h0) w0'
    = Ok ((self, h), w) ->
  run_filter_body ret_history (self, h) w = Ok ((self', h'), w') ->
  N self = n /\
  exists self1 w1 lws L w2 nws m,
    increment_particles self w = Ok (self1, w1) /\
    has_lweights w1 (particles self1) lws /\
    logsumexp lws = Ok L /\
    log_marginal_likelihood self' = fadd (log_marginal_likelihood self) L /\
    let self2 := with_log_marginal_likelihood self1
                   (fadd (log_marginal_likelihood self) L) in
    reweight_particles self2 w1 = Ok (self2, w2) /\
    has_lweights w2 (particles self2) nws /\
    np_max nws = Ok m /\
    if flt (fneg m) (flog (fmul (Fin (IZR n)) epsilon))
    then resample_particles self2 w2 = Ok (self', w')
    else self' = self2 /\ w' = w2.
Proof.
  intros Hinit Hloop Hbody.
  pose proof (wp_elim _ _ _ _ _ (RBPF_init_post _ _ _ _ _ _ _ _ _ _ w0) Hinit)
    as (HN0 & Hlrl0 & _).
  apply run_filter_loop_fields in Hloop as [HN Hlrl]. cbn [fst] in HN, Hlrl.
  split; [congruence |].
  rewrite <- Hlrl0, <- Hlrl.
  apply run_filter_body_inv in Hbody
    as (self1 & w1 & lws & L & w2 & nws & m & Hinc & _ & Hlws & HL & Hrest).
  cbv zeta in Hrest. destruct Hrest as (Hrew & Hnws & Hmax & Hend).
  exists self1, w1, lws, L, w2, nws, m.
  split; [assumption |]. split; [assumption |]. split; [assumption |].
  split; [| cbv zeta; repeat (split; [assumption |]); assumption].
  destruct (flt (fneg m) (log_resample_limit self)).
  - pose proof (wp_elim _ _ _ _ _ (resample_particles_self _ w2) Hend) as [news ->].
    reflexivity.
  - destruct Hend as [-> _]. reflexivity.
Qed.

(** ** The first step *)

Lemma next_ok {A} (g g' : list A) (x : A) (w w' : world) :
  next g w = Ok ((x, g'), w') -> g = x :: g' /\ w' = w.
Proof.
  destruct g as [| y g0]; cbn [next]; [discriminate |].
  unfold ret. intros [= <- <- <-]. auto.
Qed.

Lemma zip_with_fadd_zero (lps : list float64) (k : nat) :
  length lps = k ->
  zip_with fadd (repeat (Fin 0) k) lps = map (fadd (Fin 0)) lps.
Proof.
  intros <-. induction lps as [| lp lps IH]; cbn [length repeat zip_with map];
    [reflexivity | rewrite IH; reflexivity].
Qed.

Lemma map_fadd_zero_Fin (ls : list R) :
  map (fadd (Fin 0)) (map Fin ls) = map Fin ls.
Proof.
  induction ls as [| a ls IH]; cbn [map]; [reflexivity |].
  rewrite IH. cbn [fadd]. rewrite Rplus_0_l. reflexivity.
Qed.

Lemma np_sum_ones (k : nat) :
  np_sum (map fexp (repeat (Fin 0) k)) = Fin (INR k).
Proof.
  unfold np_sum. induction k as [| k IH]; [reflexivity |].
  cbn [repeat map fold_right]. rewrite IH. cbn [fexp fadd].
  rewrite exp_0, S_INR. f_equal. ring.
Qed.

Lemma ln_sum_not_mean (total : R) (n : Z) :
  0 < total -> (1 < n)%Z -> ln total <> ln (total / IZR n).
Proof.
  intros Htotal Hn. assert (Hn1 : 1 < IZR n) by (apply IZR_lt; assumption).
  unfold Rdiv. rewrite ln_mult, ln_Rinv by (try apply Rinv_0_lt_compat; lra).
  pose proof (ln_increasing 1 (IZR n) ltac:(lra) Hn1) as Hln. rewrite ln_1 in Hln. lra.
Qed.

(** C9.  The constructor leaves every log-weight at [0.], so that the
    linear weights sum to the number of particles.  In the first iteration
    of [run_filter] the log-weights the likelihood is taken of are therefore
    the values [lps] of [log_ped] of this step alone, and the first
    increment of the marginal likelihood is the logarithm of the sum of the
    predictive densities [exp(lp)], not of their mean. *)
Theorem first_marginal_likelihood_increment
    (mumu sigmasq beta kw kv theta : float64)
    (data : list (float64 * float64)) (n : Z) (gsamps : Z) (epsilon : float64)
    (w0 w1 : world) (self0 : RBPF) :
  RBPF_init mumu sigmasq beta kw kv theta data n gsamps epsilon w0 = Ok (self0, w1) ->
  population w1 (particles self0) /\
  has_lweights w1 (particles self0) (repeat (Fin 0) (Z.to_nat n)) /\
  log_marginal_likelihood self0 = Fin 0 /\
  ((0 <= n)%Z -> np_sum (map fexp (repeat (Fin 0) (Z.to_nat n))) = Fin (IZR n)) /\
  forall (ret_history : bool) (h h' : history) (self' : RBPF) (w' : world),
    run_filter_body ret_history (self0, h) w1 = Ok ((self', h'), w') ->
    exists price pg time tg lps w2 L,
      pricegen self0 = price :: pg /\
      timegen self0 = time :: tg /\
      comprehension (particles self0)
        (fun r => increment_logged r price (current_time self0) time) w1
        = Ok (lps, w2) /\
      has_lweights w2 (particles self0) (map (fadd (Fin 0)) lps) /\
      logsumexp (map (fadd (Fin 0)) lps) = Ok L /\
      log_marginal_likelihood self' = fadd (Fin 0) L /\
      forall ls, lps = map Fin ls -> ls <> [] ->
        log_marginal_likelihood self' = Fin (0 + ln (Rsum (map exp ls))) /\
        ((1 < n)%Z -> ln (Rsum (map exp ls)) <> ln (Rsum (map exp ls) / IZR n)).
Proof.
  intros Hinit.
  pose proof (wp_elim _ _ _ _ _ (RBPF_init_post _ _ _ _ _ _ _ _ _ _ w0) Hinit)
    as (HN & _ & Hlml & Hps & os & Hobjs & Hlen & Hos).
  destruct (fresh_population w0 w1 os (Fin 0) Hobjs Hos) as [Hpop Hw1].
  rewrite Hlen, <- Hps in Hpop, Hw1.
  split; [assumption |]. split; [assumption |]. split; [assumption |].
  split.
  { intros Hn. rewrite np_sum_ones, INR_IZR_INZ, Z2Nat.id by assumption. reflexivity. }
  intros ret_history h h' self' w' Hbody.
  apply run_filter_body_inv in Hbody
    as (self1 & w2 & lws & L & w3 & nws & m & Hinc & _ & Hlws & HL & Hrest).
  cbv zeta in Hrest. destruct Hrest as (_ & _ & _ & Hend).
  unfold increment_particles in Hinc.
  apply bind_ok in Hinc as ([price pg] & wa & Hprice & Hinc).
  apply next_ok in Hprice as [Hprice ->]. cbv zeta in Hinc.
  apply bind_ok in Hinc as ([time tg] & wb & Htime & Hinc).
  apply next_ok in Htime as [Htime ->].
  apply bind_ok in Hinc as ([] & wc & Hloop & Hret).
  unfold ret in Hret. injection Hret as <- <-.
  cbn [particles with_cursor] in Hlws.
  destruct (for_each_increment_logged _ _ _ _ _ _ Hloop) as [lps Hlps].
  pose proof (wp_elim _ _ _ _ _
                (increment_all_weights price (current_time self0) time
                   (particles self0) _ w1 (proj1 Hpop) Hw1) Hlps)
    as (Hlenlps & Hw2 & _ & _).
  rewrite zip_with_fadd_zero in Hw2
    by (rewrite Hlenlps, Hps, length_seq; reflexivity).
  pose proof (has_lweights_inj _ _ _ _ Hlws Hw2) as ->.
  assert (Hlml' : log_marginal_likelihood self' = fadd (Fin 0) L).
  { rewrite Hlml in Hend. destruct (flt (fneg m) (log_resample_limit self0)).
    - pose proof (wp_elim _ _ _ _ _ (resample_particles_self _ w3) Hend) as [news ->].
      reflexivity.
    - destruct Hend as [-> _]. reflexivity. }
  exists price, pg, time, tg, lps, wc, L.
  repeat (split; [assumption |]).
  intros ls -> Hls. rewrite map_fadd_zero_Fin, logsumexp_Fin in HL by assumption.
  injection HL as <-. split; [assumption |].
  apply ln_sum_not_mean. apply Rsum_exp_pos. assumption.
Qed.

(** ** [gen_gamma_process] *)










Lemma fdiv_Fin (a b : R) : b <> 0 -> fdiv (Fin a) (Fin b) = Fin (a / b).
Proof.
  intros Hb. cbn [fdiv]. destruct (Req_dec_T b 0); [contradiction | reflexivity].
Qed.







(** ** Validation *)








(** * Further properties of the code *)

(** ** [logsumexp] on values that are not all finite *)









Lemma fadd_NaN_r (x : float64) : fadd x NaN = NaN.
Proof. destruct x; reflexivity. Qed.

Lemma fmax_NaN_r (x : float64) : fmax x NaN = NaN.
Proof. destruct x; reflexivity. Qed.

Lemma fold_fmax_NaN (xs : list float64) :
  forall x, elem_of NaN (x :: xs) -> fold_left fmax xs x = NaN.
Proof.
  induction xs as [| a xs IH]; intros x Hin.
  - apply list_elem_of_singleton in Hin. cbn. congruence.
  - cbn [fold_left]. apply IH.
    apply elem_of_cons in Hin as [<- | Hin]; [left |].
    apply elem_of_cons in Hin as [<- | Hin];
      [rewrite fmax_NaN_r; left | right; assumption].
Qed.

Lemma fold_fmax_PInf (xs : list float64) :
  forall x, x = PInf \/ x = NaN \/ elem_of PInf xs ->
  fold_left fmax xs x = PInf \/ fold_left fmax xs x = NaN.
Proof.
  induction xs as [| a xs IH]; intros x Hin.
  - cbn. destruct Hin as [-> | [-> | Hin]]; [left | right | inversion Hin]; reflexivity.
  - cbn [fold_left]. apply IH.
    destruct Hin as [-> | [-> | Hin]].
    + destruct a; cbn; auto.
    + right; left. reflexivity.
    + apply elem_of_cons in Hin as [<- | Hin]; [| right; right; assumption].
      destruct x as [r | | |]; cbn; auto.
Qed.

Lemma fold_fmax_NInf (xs : list float64) :
  Forall (fun v => v = NInf) xs -> fold_left fmax xs NInf = NInf.
Proof. induction 1 as [| a xs -> _ IH]; [reflexivity | exact IH]. Qed.

Lemma np_sum_NaN (l : list float64) : elem_of NaN l -> np_sum l = NaN.
Proof.
  unfold np_sum. induction l as [| a l IH]; intros Hin; [inversion Hin |].
  cbn [fold_right]. apply elem_of_cons in Hin as [<- | Hin]; [reflexivity |].
  rewrite (IH Hin). apply fadd_NaN_r.
Qed.

Lemma logsumexp_NaN (x : list float64) :
  elem_of NaN x -> logsumexp x = Ok NaN.
Proof.
  destruct x as [| v0 xs]; [intros Hin; inversion Hin |].
  intros Hin. unfold logsumexp. cbn [np_max].
  rewrite (fold_fmax_NaN _ _ Hin). reflexivity.
Qed.

(** X2.  The degenerate inputs of [logsumexp]: an empty array raises the
    [ValueError] of [np.max]; an array with a NaN or a [+inf] entry, or
    whose entries are all [-inf], gives NaN, as the shift by the maximum
    subtracts an infinity from itself. *)
Theorem logsumexp_degenerate :
  logsumexp [] = Raise ValueError /\
  forall x : list float64,
    x <> [] ->
    elem_of NaN x \/ elem_of PInf x \/ Forall (fun v => v = NInf) x ->
    logsumexp x = Ok NaN.
Proof.
  split; [reflexivity |].
  intros [| v0 xs] Hne Hcase; [congruence |].
  unfold logsumexp. cbn [np_max].
  set (c := fold_left fmax xs v0).
  assert (Hsum : forall u, elem_of u (v0 :: xs) -> fsub u c = NaN ->
            fadd c (flog (np_sum (map fexp (map (fun xi => fsub xi c) (v0 :: xs)))))
              = NaN).
  { intros u Hu Hnan. rewrite np_sum_NaN; [cbn [flog]; apply fadd_NaN_r |].
    apply list_elem_of_fmap. exists NaN. split; [reflexivity |].
    apply list_elem_of_fmap. exists u. split; [symmetry; assumption | assumption]. }
  destruct Hcase as [Hnan | [Hinf | Hall]].
  - pose proof (logsumexp_NaN _ Hnan) as Hl. unfold logsumexp in Hl.
    cbn [np_max] in Hl. exact Hl.
  - destruct (fold_fmax_PInf xs v0) as [Hc | Hc].
    { apply elem_of_cons in Hinf as [<- | Hinf]; auto. }
    + f_equal. apply (Hsum PInf Hinf). fold c in Hc. rewrite Hc. reflexivity.
    + fold c in Hc. rewrite Hc. reflexivity.
  - inversion Hall as [| ? ? -> Hall']; subst.
    assert (Hc : c = NInf) by (apply fold_fmax_NInf; assumption).
    f_equal. apply (Hsum NInf); [left |]. rewrite Hc. reflexivity.
Qed.

Lemma exp_le_compat (x y : R) : x <= y -> exp x <= exp y.
Proof.
  intros [Hlt | ->]; [left; apply exp_increasing; assumption | right; reflexivity].
Qed.

Lemma ln_Rsum_exp_bounds (a : R) (l : list R) :
  Rmaximum a l <= ln (Rsum (map exp (a :: l)))
    <= Rmaximum a l + ln (INR (length (a :: l))).
Proof.
  set (M := Rmaximum a l).
  destruct (Rmaximum_ge l a) as [Hge0 Hge]. fold M in Hge0, Hge.
  assert (Hall : Forall (fun x => x <= M) (a :: l)) by (constructor; assumption).
  assert (Hnonneg : Forall (fun x => 0 <= x) (map exp (a :: l))).
  { apply Forall_fmap, Forall_true. intros x. cbn. left. apply exp_pos. }
  assert (Hlo : exp M <= Rsum (map exp (a :: l))).
  { apply (proj1 (Forall_forall _ _) (Rsum_elem_le _ Hnonneg)).
    apply list_elem_of_fmap. exists M. split; [reflexivity | apply Rmaximum_elem]. }
  assert (Hhi : Rsum (map exp (a :: l)) <= INR (length (a :: l)) * exp M).
  { rewrite <- (length_map exp (a :: l)). apply Rsum_le_bound.
    apply Forall_fmap. eapply Forall_impl; [exact Hall |].
    cbn beta. intros x Hx. apply exp_le_compat. assumption. }
  pose proof (exp_pos M) as HeM.
  assert (Hn : 0 < INR (length (a :: l))) by (apply lt_0_INR; cbn; lia).
  pose proof (ln_le_compat _ _ HeM Hlo) as H1.
  assert (Hsum : 0 < Rsum (map exp (a :: l))) by lra.
  pose proof (ln_le_compat _ _ Hsum Hhi) as H2.
  rewrite ln_mult in H2 by assumption. rewrite ln_exp in H1, H2. lra.
Qed.

(** X3.  On finite values [logsumexp] lies between the maximum of its
    entries, which is what [np.max] returns, and that maximum plus the log
    of the number of entries. *)
Theorem logsumexp_bounds (a : R) (l : list R) :
  exists v,
    logsumexp (map Fin (a :: l)) = Ok (Fin v) /\
    np_max (map Fin (a :: l)) = Ok (Fin (Rmaximum a l)) /\
    Rmaximum a l <= v <= Rmaximum a l + ln (INR (length (a :: l))).
Proof.
  exists (ln (Rsum (map exp (a :: l)))).
  split; [apply logsumexp_Fin; discriminate |].
  split; [apply np_max_Fin | apply ln_Rsum_exp_bounds].
Qed.

(** ** A NaN log-weight *)

Lemma map_fsub_NaN (ws : list float64) :
  map (fun v => fsub v NaN) ws = repeat NaN (length ws).
Proof.
  induction ws as [| v ws IH]; [reflexivity |].
  cbn [map length repeat]. rewrite IH. f_equal. apply fadd_NaN_r.
Qed.

Lemma np_max_NaN (xs : list float64) : elem_of NaN xs -> np_max xs = Ok NaN.
Proof.
  destruct xs as [| x xs]; [intros Hin; inversion Hin |].
  intros Hin. cbn [np_max]. rewrite (fold_fmax_NaN _ _ Hin). reflexivity.
Qed.

(** X4.  One NaN log-weight poisons the population: the predictive
    likelihood is NaN, [reweight_particles] turns every log-weight into
    NaN, and [get_logDninf] is then NaN, which is below no resampling limit:
    the test of [run_filter] fails and the population is not resampled. *)
Theorem reweight_particles_nan (self : RBPF) (w : world) (ws : list float64) :
  population w (particles self) ->
  has_lweights w (particles self) ws ->
  elem_of NaN ws ->
  get_log_predictive_likelihood self w = Ok (NaN, w) /\
  exists w',
    reweight_particles self w = Ok (self, w') /\
    has_lweights w' (particles self) (repeat NaN (length ws)) /\
    get_logDninf self w' = Ok (NaN, w') /\
    flt NaN (log_resample_limit self) = false.
Proof.
  intros Hpop Hw Hnan. pose proof (logsumexp_NaN _ Hnan) as Hlse.
  split.
  { unfold get_log_predictive_likelihood, bind.
    rewrite (lweights_of_ok _ _ _ Hw). unfold call. rewrite Hlse. reflexivity. }
  destruct (reweight_particles_run self w ws NaN Hpop Hw Hlse)
    as (w' & Hrun & Hw' & _).
  rewrite map_fsub_NaN in Hw'.
  exists w'. split; [assumption |]. split; [assumption |]. split; [| reflexivity].
  unfold get_logDninf, bind. rewrite (lweights_of_ok _ _ _ Hw').
  unfold call. rewrite np_max_NaN; [reflexivity |].
  destruct ws as [| v ws]; [inversion Hnan | left].
Qed.

(** ** The probabilities of [resample_particles] *)









(** ** The estimators of the effective sample size, together *)




(** ** The population that [resample_particles] leaves *)

Lemma resample_particles_result (self self' : RBPF) (w w' : world) :
  multinomial_sound ->
  population w (particles self) ->
  Z.of_nat (length (particles self)) = N self ->
  resample_particles self w = Ok (self', w') ->
  self' = with_particles self (seq (length (objs w)) (Z.to_nat (N self))) /\
  population w' (particles self') /\
  has_lweights w' (particles self')
    (repeat (fneg (flog (Fin (IZR (N self))))) (Z.to_nat (N self))).
Proof.
  intros Hsound [Hnd Hall] HN Hrun.
  destruct (population_has_lweights w (particles self) Hall) as [ws Hw].
  destruct (np_random_multinomial (gen w) (N self) (probabilities_of ws))
    as [[sel g'] |] eqn:Hdraw.
  2: { rewrite (resample_particles_refused self w ws Hw Hdraw) in Hrun. discriminate. }
  destruct (Hsound _ _ _ _ _ Hdraw) as (Hlen & Hsum & Hpos).
  rewrite length_probabilities_of, (has_lweights_length _ _ _ Hw) in Hlen.
  destruct (resample_particles_run self w ws sel g' Hw Hdraw)
    as (os & w3 & Hrun' & Hos & Hobjs & _ & _); [lia | lia |].
  rewrite Hrun' in Hrun. injection Hrun as <- <-.
  assert (Hcount : length os = Z.to_nat (N self)).
  { rewrite <- (Forall2_length _ _ _ Hos), parents_length_range by lia. assumption. }
  rewrite Hcount. split; [reflexivity |]. cbn [particles with_particles].
  rewrite <- Hcount.
  rewrite <- (length_map (fun o => with_logweight o (fneg (flog (Fin (IZR (N self)))))) os).
  apply fresh_population; [assumption |].
  apply Forall_fmap, Forall_true. intros o. reflexivity.
Qed.






(** ** The prediction error decomposition *)

Lemma log_ped_value_pos (y m c : R) :
  0 < c ->
  log_ped_value (Fin y) (Fin m) (Fin c) =
  Fin (- (1 / 2) * ln (2 * PI * c) - 1 / (2 * c) * ((y + - m) * (y + - m))).
Proof.
  intros Hc. pose proof PI_RGT_0 as Hpi.
  unfold log_ped_value, fsquare, fsub. cbn [fmul fadd fneg].
  rewrite flog_pos by (apply Rmult_lt_0_compat; lra).
  rewrite fdiv_Fin by lra. reflexivity.
Qed.

Lemma log_ped_value_degenerate (y m c : R) :
  c <= 0 -> log_ped_value (Fin y) (Fin m) (Fin c) = NaN.
Proof.
  intros Hc. pose proof PI_RGT_0 as Hpi.
  pose proof (Rle_0_sqr (y + - m)) as Hsq. unfold Rsqr in Hsq.
  unfold log_ped_value, fsquare, fsub. cbn [fmul fadd fneg].
  unfold flog, fdiv.
  destruct (Rlt_dec 0 (2 * PI * c)) as [Hpos | _]; [exfalso; nra |].
  destruct (Req_dec_T (2 * PI * c) 0) as [Hz | Hnz]; [| reflexivity].
  destruct (Req_dec_T (2 * c) 0) as [_ | Hnz]; [| exfalso; nra].
  destruct (Req_dec_T 1 0) as [H1 | _]; [lra |].
  destruct (Rlt_dec 0 1) as [_ | H1]; [| lra].
  cbn [fmul]. unfold fmul_inf.
  destruct (Req_dec_T (- (1 / 2)) 0) as [H1 | _]; [lra |].
  destruct (Rlt_dec 0 (- (1 / 2))) as [H1 | _]; [lra |].
  destruct (Req_dec_T ((y + - m) * (y + - m)) 0) as [_ | Hne]; [reflexivity |].
  destruct (Rlt_dec 0 ((y + - m) * (y + - m))) as [_ | Hn]; [reflexivity |].
  destruct Hsq as [Hlt | Heq]; [contradiction | congruence].
Qed.

Lemma get_object_ok (r : ref) (w w' : world) (p : LangevinParticle) :
  get_object r w = Ok (p, w') -> objs w !! r = Some p /\ w' = w.
Proof.
  unfold get_object. destruct (objs w !! r) as [q |]; [| discriminate].
  intros [= <- <-]. split; reflexivity.
Qed.

Lemma get_array_ok (r : ref) (w w' : world) (a : ndarray) :
  get_array r w = Ok (a, w') -> arrs w !! r = Some a /\ w' = w.
Proof.
  unfold get_array. destruct (arrs w !! r) as [q |]; [| discriminate].
  intros [= <- <-]. split; reflexivity.
Qed.

Lemma lift_ok {A} (e : exn) (o : option A) (w w' : world) (a : A) :
  lift e o w = Ok (a, w') -> o = Some a /\ w' = w.
Proof.
  destruct o as [b |]; [| discriminate]. intros [= <- <-]. split; reflexivity.
Qed.

Lemma log_ped_ok (self : ref) (observation : float64) (acp Ccp : ndarray)
    (w w' : world) (lp : float64) :
  log_ped self observation acp Ccp w = Ok (lp, w') ->
  w' = w /\
  exists p Hmat_v ayt_v HC HCH,
    objs w !! self = Some p /\ arrs w !! Hmat p = Some Hmat_v /\
    np_matmul Hmat_v acp = Some ayt_v /\
    np_matmul Hmat_v Ccp = Some HC /\
    np_matmul HC (np_transpose Hmat_v) = Some HCH /\
    lp = log_ped_value observation (np_item ayt_v)
           (fadd (np_item HCH) (fmul (sigmasq p) (kv p))).
Proof.
  unfold log_ped. intros Hrun.
  apply bind_ok in Hrun as (p & w1 & [Hp ->]%get_object_ok & Hrun).
  apply bind_ok in Hrun as (Hmat_v & w1 & [Hh ->]%get_array_ok & Hrun).
  apply bind_ok in Hrun as (ayt_v & w1 & [Ha ->]%lift_ok & Hrun).
  apply bind_ok in Hrun as (HC & w1 & [HHC ->]%lift_ok & Hrun).
  apply bind_ok in Hrun as (HCH & w1 & [HHCH ->]%lift_ok & Hrun).
  injection Hrun as <- <-. split; [reflexivity |].
  exists p, Hmat_v, ayt_v, HC, HCH. repeat (split; [assumption |]). reflexivity.
Qed.

(** X8.  [log_ped] leaves the state as it is and returns the Gaussian
    log-density of the observation under the predicted observation [ayt] and
    its variance [Cyt = H Ccp H^T + sigmasq * kv]: for finite values and a
    positive variance it is [-log(2 pi Cyt)/2 - (y - ayt)^2 / (2 Cyt)], which
    is at most [-log(2 pi Cyt)/2]; for a variance that is negative or zero
    (the one zero of the model, the positive one) it is NaN. *)
Theorem log_ped_gaussian (self : ref) (observation : float64) (acp Ccp : ndarray)
    (w w' : world) (lp : float64) :
  log_ped self observation acp Ccp w = Ok (lp, w') ->
  w' = w /\
  exists p Hmat_v ayt_v HC HCH,
    objs w !! self = Some p /\ arrs w !! Hmat p = Some Hmat_v /\
    np_matmul Hmat_v acp = Some ayt_v /\
    np_matmul Hmat_v Ccp = Some HC /\
    np_matmul HC (np_transpose Hmat_v) = Some HCH /\
    forall y m c,
      observation = Fin y -> np_item ayt_v = Fin m ->
      fadd (np_item HCH) (fmul (sigmasq p) (kv p)) = Fin c ->
      (0 < c ->
       exists v, lp = Fin v /\
         v = - ln (2 * PI * c) / 2 - (y - m) * (y - m) / (2 * c) /\
         v <= - ln (2 * PI * c) / 2) /\
      (c <= 0 -> lp = NaN).
Proof.
  intros Hrun.
  destruct (log_ped_ok _ _ _ _ _ _ _ Hrun)
    as (-> & p & Hmat_v & ayt_v & HC & HCH & Hp & Hh & Ha & HHC & HHCH & ->).
  split; [reflexivity |].
  exists p, Hmat_v, ayt_v, HC, HCH. repeat (split; [assumption |]).
  intros y m c -> -> ->. split.
  - intros Hc. rewrite log_ped_value_pos by assumption. eexists. split; [reflexivity |].
    split; [field; lra |].
    assert (Hq : 0 <= 1 / (2 * c) * ((y + - m) * (y + - m))).
    { apply Rmult_le_pos; [| apply Rle_0_sqr].
      unfold Rdiv. rewrite Rmult_1_l. left. apply Rinv_0_lt_compat. lra. }
    lra.
  - apply log_ped_value_degenerate.
Qed.

(** ** The arrays through [increment] *)

Lemma predict_effect (self : ref) (s t : float64) (w : world) :
  wp (predict self s t) w (fun _ w' =>
    exists p a,
      objs w !! self = Some p /\ arrs w' = arrs w ++ [a] /\
      objs w' = <[self := with_alpha p (length (arrs w))]> (objs w)).
Proof.
  unfold predict. wp_steps.
  match goal with
  | Hp : objs w !! self = Some ?p |- _ =>
      exists p; eexists; split; [exact Hp | split; reflexivity]
  end.
Qed.

Lemma kalman_step_effect (self : ref) (observation s t : float64) (w : world) :
  wp (kalman_step self observation s t) w (fun _ w' =>
    exists p a1 a2 a3,
      objs w !! self = Some p /\ arrs w' = arrs w ++ [a1; a2; a3] /\
      objs w' = <[self := with_acc_Ccc (with_alpha p (length (arrs w)))
                            (S (length (arrs w))) (S (S (length (arrs w))))]>
                  (objs w)).
Proof.
  unfold kalman_step. apply wp_bind.
  eapply wp_mono; [apply predict_effect |]. cbn beta.
  intros [acp Ccp] w1 (p & a1 & Hp & Harr & Hobj).
  apply wp_bind. eapply wp_mono; [apply correct_pure |].
  cbn beta. intros [acc_v Ccc_v] w2 ->.
  wp_steps. eapply wp_mono; [apply log_ped_pure |]. cbn beta. intros lp w3 ->.
  cbn [objs arrs gen].
  repeat match goal with
  | Hp1 : objs w1 !! self = Some _ |- _ =>
      rewrite Hobj, list_lookup_insert_eq in Hp1 by (eapply lookup_lt_Some, Hp);
      injection Hp1 as <-
  end.
  exists p, a1, acc_v, Ccc_v. split; [assumption |].
  rewrite Harr, Hobj, list_insert_insert_eq, !length_app. cbn [length].
  rewrite <- !app_assoc. cbn [app].
  replace (length (arrs w) + 1)%nat with (S (length (arrs w))) by lia.
  replace (S (length (arrs w)) + 1)%nat with (S (S (length (arrs w)))) by lia.
  split; reflexivity.
Qed.

(** The effect of [increment] on the stores. *)
Lemma increment_allocates (self : ref) (observation s t : float64) (w : world) :
  wp (increment self observation s t) w (fun _ w' =>
    exists p p' a1 a2 a3 lp,
      objs w !! self = Some p /\
      arrs w' = arrs w ++ [a1; a2; a3] /\
      objs w' = <[self := p']> (objs w) /\
      alpha p' = length (arrs w) /\
      acc p' = S (length (arrs w)) /\
      Ccc p' = S (S (length (arrs w))) /\
      logweight p' = fadd (logweight p) lp /\
      same_model p p').
Proof.
  unfold increment. apply wp_bind.
  eapply wp_mono; [apply kalman_step_effect |]. cbn beta.
  intros lp w1 (p & a1 & a2 & a3 & Hp & Harr & Hobj).
  wp_steps.
  repeat match goal with
  | Hp1 : objs w1 !! self = Some _ |- _ =>
      rewrite Hobj, list_lookup_insert_eq in Hp1 by (eapply lookup_lt_Some, Hp);
      injection Hp1 as <-
  end.
  eexists p, _, a1, a2, a3, lp. split; [assumption |]. split; [assumption |].
  split; [rewrite Hobj, list_insert_insert_eq; reflexivity |].
  cbn. repeat split; reflexivity.
Qed.

Lemma lookup_app_Some_l {A} (l k : list A) (i : nat) (x : A) :
  l !! i = Some x -> (l ++ k) !! i = Some x.
Proof. intros Hx. rewrite lookup_app_l by (eapply lookup_lt_Some, Hx). assumption. Qed.

(** X9.  [increment] stores the new state sample, mean and covariance in
    three arrays that it allocates, and rebinds [alpha], [acc] and [Ccc] of
    its particle to them; the model attributes and the matrices [Hmat] and
    [Bmat] stay.  It writes into no array that existed, so every array reads
    as before, and it changes no other particle: what a sibling that shares
    arrays with the particle holds is as it was. *)
Theorem increment_effect (self : ref) (observation s t : float64) (w w' : world) :
  increment self observation s t w = Ok (tt, w') ->
  (exists p p' a1 a2 a3 lp,
     objs w !! self = Some p /\
     arrs w' = arrs w ++ [a1; a2; a3] /\
     objs w' = <[self := p']> (objs w) /\
     alpha p' = length (arrs w) /\
     acc p' = S (length (arrs w)) /\
     Ccc p' = S (S (length (arrs w))) /\
     logweight p' = fadd (logweight p) lp /\
     same_model p p') /\
  (forall r a, arrs w !! r = Some a -> arrs w' !! r = Some a) /\
  (forall r, r <> self -> objs w' !! r = objs w !! r).
Proof.
  intros Hrun.
  pose proof (wp_elim _ _ _ _ _ (increment_allocates self observation s t w) Hrun)
    as (p & p' & a1 & a2 & a3 & lp & Hp & Harr & Hobj & Hrest).
  split; [exists p, p', a1, a2, a3, lp; repeat (split; [assumption |]); apply Hrest |].
  split.
  - intros r a Ha. rewrite Harr. apply lookup_app_Some_l. assumption.
  - intros r Hne. rewrite Hobj. apply list_lookup_insert_ne. congruence.
Qed.

(** The loop of [increment_particles]: the particle at position [i] gets
    the [i]-th block of three new arrays. *)
Lemma increment_loop (observation s t : float64) (ps : list ref) :
  forall w, NoDup ps ->
  wp (for_each ps (fun r => increment r observation s t)) w (fun _ w' =>
    length (arrs w') = (length (arrs w) + 3 * length ps)%nat /\
    (forall r a, arrs w !! r = Some a -> arrs w' !! r = Some a) /\
    (forall r, ~ elem_of r ps -> objs w' !! r = objs w !! r) /\
    forall i r, ps !! i = Some r ->
      exists p p',
        objs w !! r = Some p /\ objs w' !! r = Some p' /\
        alpha p' = (length (arrs w) + 3 * i)%nat /\
        acc p' = S (length (arrs w) + 3 * i) /\
        Ccc p' = S (S (length (arrs w) + 3 * i)) /\
        same_model p p').
Proof.
  induction ps as [| r ps IH]; intros w Hnd.
  - unfold for_each. cbn [for_fold]. apply wp_ret.
    split; [cbn; lia |]. split; [auto |]. split; [auto |].
    intros i r Hi. rewrite lookup_nil in Hi. discriminate.
  - apply NoDup_cons in Hnd as [Hnotin Hnd].
    unfold for_each. cbn [for_fold]. apply wp_bind.
    eapply wp_mono; [apply increment_allocates |]. cbn beta.
    intros [] w1 (p & p' & a1 & a2 & a3 & lp & Hp & Harr & Hobj & Hal & Hac & HCc & _ & Hsame).
    eapply wp_mono; [apply (IH w1 Hnd) |]. cbn beta.
    intros [] w2 (Hlen & Harrs & Hout & Hin).
    assert (Hlen1 : length (arrs w1) = (length (arrs w) + 3)%nat).
    { rewrite Harr, length_app. reflexivity. }
    split; [cbn [length]; lia |]. split; [| split].
    + intros r0 a Ha. apply Harrs. rewrite Harr. apply lookup_app_Some_l. assumption.
    + intros r0 Hr0. rewrite Hout by (intros Hin0; apply Hr0; right; assumption).
      rewrite Hobj. apply list_lookup_insert_ne. intros ->. apply Hr0. left.
    + intros [| i] r0 Hi.
      * cbn in Hi. injection Hi as <-. exists p, p'.
        split; [assumption |]. split.
        { rewrite (Hout r Hnotin), Hobj.
          apply list_lookup_insert_eq. eapply lookup_lt_Some, Hp. }
        rewrite Hal, Hac, HCc, Nat.mul_0_r, Nat.add_0_r. repeat split; try reflexivity.
        all: apply Hsame.
      * cbn in Hi. destruct (Hin i r0 Hi) as (q & q' & Hq & Hq' & Hqal & Hqac & HqCc & Hqsame).
        assert (Hne : r0 <> r).
        { intros ->. apply Hnotin. eapply list_elem_of_lookup_2, Hi. }
        rewrite Hobj, list_lookup_insert_ne in Hq by congruence.
        exists q, q'. split; [assumption |]. split; [assumption |].
        rewrite Hqal, Hqac, HqCc, Hlen1.
        repeat split; try lia. all: apply Hqsame.
Qed.

Lemma increment_particles_ok (self self' : RBPF) (w w' : world) :
  increment_particles self w = Ok (self', w') ->
  exists price pg time tg,
    pricegen self = price :: pg /\ timegen self = time :: tg /\
    for_each (particles self)
      (fun r => increment r price (current_time self) time) w = Ok (tt, w') /\
    self' = with_cursor self price pg time tg.
Proof.
  unfold increment_particles. intros Hrun.
  apply bind_ok in Hrun as ([price pg] & w1 & Hnext & Hrun).
  apply next_ok in Hnext as [Hpg ->].
  apply bind_ok in Hrun as ([time tg] & w1 & Hnext & Hrun).
  apply next_ok in Hnext as [Htg ->].
  apply bind_ok in Hrun as ([] & w1 & Hloop & Hrun).
  injection Hrun as <- <-.
  exists price, pg, time, tg. repeat split; assumption.
Qed.

(** X10.  [increment_particles] ends the sharing of arrays that a shallow
    copy leaves: on pairwise distinct particles, each particle holds
    afterwards a mean, a covariance and a state sample in arrays allocated
    during the call, and no two particles have one of these arrays in
    common.  The arrays that existed read as before, and [Hmat] and [Bmat]
    are the references they were. *)
Theorem increment_particles_unshares (self self' : RBPF) (w w' : world) :
  NoDup (particles self) ->
  increment_particles self w = Ok (self', w') ->
  particles self' = particles self /\
  length (arrs w') = (length (arrs w) + 3 * length (particles self))%nat /\
  (forall r a, arrs w !! r = Some a -> arrs w' !! r = Some a) /\
  (forall r, elem_of r (particles self) ->
     exists p p',
       objs w !! r = Some p /\ objs w' !! r = Some p' /\
       Hmat p' = Hmat p /\ Bmat p' = Bmat p /\
       Forall (fun a => (length (arrs w) <= a < length (arrs w'))%nat)
              (state_arrays p')) /\
  (forall r1 r2 p1 p2 a,
     elem_of r1 (particles self) -> elem_of r2 (particles self) -> r1 <> r2 ->
     objs w' !! r1 = Some p1 -> objs w' !! r2 = Some p2 ->
     elem_of a (state_arrays p1) -> ~ elem_of a (state_arrays p2)).
Proof.
  intros Hnd Hrun.
  destruct (increment_particles_ok _ _ _ _ Hrun)
    as (price & pg & time & tg & _ & _ & Hloop & ->).
  pose proof (wp_elim _ _ _ _ _
                (increment_loop price (current_time self) time (particles self) w Hnd)
                Hloop) as (Hlen & Harrs & _ & Hin).
  split; [reflexivity |]. split; [assumption |]. split; [assumption |]. split.
  - intros r Hr. apply list_elem_of_lookup_1 in Hr as [i Hi].
    destruct (Hin i r Hi) as (p & p' & Hp & Hp' & Hal & Hac & HCc & Hsame).
    pose proof (lookup_lt_Some _ _ _ Hi) as Hlt.
    exists p, p'. split; [assumption |]. split; [assumption |].
    split; [apply Hsame |]. split; [apply Hsame |].
    unfold state_arrays. rewrite Hal, Hac, HCc.
    repeat constructor; lia.
  - intros r1 r2 p1 p2 a Hr1 Hr2 Hne Hp1 Hp2 Ha1 Ha2.
    apply list_elem_of_lookup_1 in Hr1 as [i Hi].
    apply list_elem_of_lookup_1 in Hr2 as [j Hj].
    destruct (Hin i r1 Hi) as (q1 & q1' & _ & Hq1 & Hal1 & Hac1 & HCc1 & _).
    destruct (Hin j r2 Hj) as (q2 & q2' & _ & Hq2 & Hal2 & Hac2 & HCc2 & _).
    rewrite Hp1 in Hq1. injection Hq1 as <-.
    rewrite Hp2 in Hq2. injection Hq2 as <-.
    assert (Hij : i <> j) by (intros ->; rewrite Hi in Hj; congruence).
    unfold state_arrays in Ha1, Ha2. rewrite Hal1, Hac1, HCc1 in Ha1.
    rewrite Hal2, Hac2, HCc2 in Ha2.
    repeat (apply elem_of_cons in Ha1 as [Ha1 | Ha1]);
      try (apply elem_of_nil in Ha1; contradiction);
      repeat (apply elem_of_cons in Ha2 as [Ha2 | Ha2]);
      try (apply elem_of_nil in Ha2; contradiction); lia.
Qed.

(** ** The cursor over the observations *)

Lemma increment_raises (self : ref) (observation s t : float64) :
  raises_only not_StopIteration (increment self observation s t).
Proof.
  unfold increment, kalman_step, predict, correct, log_ped. raises_only_steps.
Qed.

Lemma increment_particles_stop (self : RBPF) (w : world) :
  increment_particles self w = Raise StopIteration <->
  pricegen self = [] \/ timegen self = [].
Proof.
  unfold increment_particles, bind.
  destruct (pricegen self) as [| price pg]; [cbn; split; auto |].
  destruct (timegen self) as [| time tg]; [cbn; split; auto |].
  cbn [next ret].
  split; [| intros [Hnil | Hnil]; discriminate].
  destruct (for_each (particles self)
              (fun r => increment r price (current_time self) time) w)
    as [[[] w1] | e] eqn:Hloop; [discriminate |].
  intros [= ->]. exfalso.
  assert (Hraises : raises_only not_StopIteration
            (for_each (particles self)
               (fun r => increment r price (current_time self) time))).
  { unfold for_each. apply raises_only_for_fold. intros r _. apply increment_raises. }
  exact (Hraises w _ Hloop).
Qed.

(** X11.  [increment_particles] raises [StopIteration] exactly when one
    of the two generators over the observations is exhausted; when it
    returns, it has taken one price and one time from them, which are the
    current price and time, and has left the population, [N] and the
    marginal likelihood as they were. *)
Theorem increment_particles_cursor (self : RBPF) (w : world) :
  (increment_particles self w = Raise StopIteration <->
   pricegen self = [] \/ timegen self = []) /\
  (forall self' w',
     increment_particles self w = Ok (self', w') ->
     pricegen self = current_price self' :: pricegen self' /\
     timegen self = current_time self' :: timegen self' /\
     particles self' = particles self /\
     N self' = N self /\
     nobservations self' = nobservations self /\
     log_marginal_likelihood self' = log_marginal_likelihood self).
Proof.
  split; [apply increment_particles_stop |].
  intros self' w' Hrun.
  destruct (increment_particles_ok _ _ _ _ Hrun)
    as (price & pg & time & tg & Hpg & Htg & _ & ->).
  cbn. repeat split; assumption.
Qed.

Lemma run_filter_body_cursor (ret_history : bool) (self self' : RBPF)
    (h h' : history) (w w' : world) :
  run_filter_body ret_history (self, h) w = Ok ((self', h'), w') ->
  pricegen self = current_price self' :: pricegen self' /\
  timegen self = current_time self' :: timegen self' /\
  nobservations self' = nobservations self.
Proof.
  intros Hrun.
  destruct (run_filter_body_inv _ _ _ _ _ _ _ Hrun)
    as (self1 & w1 & lws & L & w2 & nws & m & Hinc & _ & _ & _ & _ & _ & _ & Hend).
  destruct (increment_particles_ok _ _ _ _ Hinc)
    as (price & pg & time & tg & Hpg & Htg & _ & ->).
  destruct (flt (fneg m) (log_resample_limit self)).
  - pose proof (wp_elim _ _ _ _ _ (resample_particles_self _ w2) Hend) as [news ->].
    cbn. repeat split; assumption.
  - destruct Hend as [-> _]. cbn. repeat split; assumption.
Qed.

Lemma run_filter_body_raises (ret_history : bool) (self : RBPF) (h : history)
    (w : world) (e : exn) :
  pricegen self <> [] -> timegen self <> [] ->
  run_filter_body ret_history (self, h) w = Raise e -> not_StopIteration e.
Proof.
  intros Hpg Htg. unfold run_filter_body. unfold bind at 1.
  destruct (increment_particles self w) as [[self1 w1] | e1] eqn:Hinc.
  - clear Hinc. revert w1 e.
    change (raises_only not_StopIteration
              (bind (get_log_predictive_likelihood self1) (fun lpl =>
                 let self2 := with_log_marginal_likelihood self1
                                (fadd (log_marginal_likelihood self1) lpl) in
                 bind (reweight_particles self2) (fun self3 =>
                 bind (if ret_history then record_history self3 h else ret h) (fun h1 =>
                 bind (get_logDninf self3) (fun logDninf =>
                 if flt logDninf (log_resample_limit self3)
                 then bind (resample_particles self3) (fun self4 => ret (self4, h1))
                 else ret (self3, h1))))))).
    cbv zeta.
    unfold get_log_predictive_likelihood, reweight_particles, record_history,
      get_logDninf, resample_particles, get_state_mean, get_state_covariance,
      resample_copies, lweights_of.
    raises_only_steps.
  - intros [= <-]. destruct e1; try exact I.
    apply increment_particles_stop in Hinc as [Hnil | Hnil]; contradiction.
Qed.

Lemma run_filter_loop_cursor (ret_history : bool) (l : list nat) :
  forall (st : RBPF * history) (w : world),
  length (pricegen (fst st)) = length l ->
  length (timegen (fst st)) = length l ->
  match for_fold l (fun _ st => run_filter_body ret_history st) st w with
  | Ok (st', _) =>
      pricegen (fst st') = [] /\ timegen (fst st') = [] /\
      nobservations (fst st') = nobservations (fst st)
  | Raise e => not_StopIteration e
  end.
Proof.
  induction l as [| i l IH]; intros [self h] w Hpg Htg; cbn [for_fold fst] in *.
  - unfold ret. cbn [fst]. destruct (pricegen self); [| discriminate].
    destruct (timegen self); [| discriminate]. repeat split; reflexivity.
  - unfold bind.
    destruct (run_filter_body ret_history (self, h) w) as [[[self1 h1] w1] | e] eqn:Hbody.
    + destruct (run_filter_body_cursor _ _ _ _ _ _ _ Hbody) as (Hp & Ht & Hn).
      rewrite Hp in Hpg. rewrite Ht in Htg. cbn [length] in Hpg, Htg.
      specialize (IH (self1, h1) w1). cbn [fst] in IH.
      specialize (IH ltac:(lia) ltac:(lia)).
      destruct (for_fold l _ (self1, h1) w1) as [[st' w'] | e]; [| assumption].
      rewrite <- Hn. assumption.
    + eapply run_filter_body_raises; [| | exact Hbody].
      * intros Hnil. rewrite Hnil in Hpg. discriminate.
      * intros Hnil. rewrite Hnil in Htg. discriminate.
Qed.

(** ** The series of the constructor *)

Lemma RBPF_init_series (mumu sigmasq beta kw kv theta : float64)
    (data : list (float64 * float64)) (n : Z) (gsamps : Z) (epsilon : float64)
    (w : world) :
  wp (RBPF_init mumu sigmasq beta kw kv theta data n gsamps epsilon) w
    (fun self _ =>
       exists t0 p0 rest,
         data = (t0, p0) :: rest /\
         initial_time self = t0 /\ initial_price self = p0 /\
         nobservations self = length data /\
         times self = map (fun x => fsub x t0) (map fst data) /\
         prices self = map (fun x => fsub x p0) (map snd data) /\
         current_time self = fsub t0 t0 /\ current_price self = fsub p0 p0 /\
         timegen self = map (fun x => fsub x t0) (map fst rest) /\
         pricegen self = map (fun x => fsub x p0) (map snd rest)).
Proof.
  unfold RBPF_init, series_first. cbv zeta.
  destruct data as [| [t0 p0] rest].
  - apply wp_bind, wp_lift. intros a Ha. discriminate Ha.
  - apply wp_bind, wp_lift. intros it [= <-].
    apply wp_bind, wp_lift. intros ip [= <-].
    apply wp_bind, wp_next. intros ct tg [= <- <-].
    apply wp_bind, wp_next. intros cp pg [= <- <-].
    apply wp_bind. eapply wp_mono; [apply wp_true |].
    cbn beta. intros ps w' _. apply wp_ret.
    exists t0, p0, rest. cbn. rewrite length_map. repeat split; reflexivity.
Qed.

Lemma run_filter_stop (self : RBPF) (ret_history : bool) (w : world) :
  pricegen self = [] -> (2 <= nobservations self)%nat ->
  run_filter self ret_history w = Raise StopIteration.
Proof.
  intros Hpg Hn. unfold run_filter, range.
  replace (Z.to_nat (Z.of_nat (nobservations self) - 1))
    with (S (nobservations self - 2)) by lia.
  cbn [seq for_fold]. unfold bind, run_filter_body, increment_particles, bind.
  rewrite Hpg. reflexivity.
Qed.

(** X12.  A filter that the constructor returns has as many items left in
    its generators as [run_filter] has iterations: [run_filter] never ends
    with [StopIteration], and when it returns, both generators are
    exhausted.  The filter is then spent: on a series of two observations or
    more, a second [run_filter] raises [StopIteration] at once. *)
Theorem run_filter_exhaustion (mumu sigmasq beta kw kv theta : float64)
    (data : list (float64 * float64)) (n : Z) (gsamps : Z) (epsilon : float64)
    (w0 w1 : world) (self0 : RBPF) (ret_history : bool) :
  RBPF_init mumu sigmasq beta kw kv theta data n gsamps epsilon w0 = Ok (self0, w1) ->
  run_filter self0 ret_history w1 <> Raise StopIteration /\
  forall self' oh lml w',
    run_filter self0 ret_history w1 = Ok ((self', oh, lml), w') ->
    pricegen self' = [] /\ timegen self' = [] /\
    nobservations self' = length data /\
    ((2 <= length data)%nat ->
     forall ret_history' w'', run_filter self' ret_history' w'' = Raise StopIteration).
Proof.
  intros Hinit.
  pose proof (wp_elim _ _ _ _ _ (RBPF_init_series _ _ _ _ _ _ _ _ _ _ w0) Hinit)
    as (t0 & p0 & rest & Hdata & _ & _ & Hn & _ & _ & _ & _ & Htg & Hpg).
  set (h0 := {| state_means := [Fin 0]; state_variances := [Fin 0];
                grad_means := [Fin 0]; grad_variances := [Fin 0] |}).
  pose proof (run_filter_loop_cursor ret_history
                (range (Z.of_nat (nobservations self0) - 1)) (self0, h0) w1) as Hloop.
  cbn [fst] in Hloop.
  assert (Hlen : length (range (Z.of_nat (nobservations self0) - 1)) = length rest).
  { unfold range. rewrite length_seq, Hn, Hdata. cbn [length]. lia. }
  specialize (Hloop ltac:(rewrite Hpg, !length_map; auto)
                    ltac:(rewrite Htg, !length_map; auto)).
  unfold run_filter, bind. fold h0.
  destruct (for_fold (range (Z.of_nat (nobservations self0) - 1))
              (fun _ st => run_filter_body ret_history st) (self0, h0) w1)
    as [[[self1 h1] w2] | e].
  - split; [discriminate |]. unfold ret. intros self' oh lml w' [= <- _ _ _].
    destruct Hloop as (Hp1 & Ht1 & Hn1). cbn [fst] in *.
    split; [assumption |]. split; [assumption |].
    split; [congruence |]. intros Hlen2 rh' w''.
    apply run_filter_stop; [assumption | congruence].
  - split; [| discriminate]. intros [= ->]. exact Hloop.
Qed.





(** ** The history of [run_filter] *)

Lemma record_history_post (self : RBPF) (h : history) (w : world) :
  wp (record_history self h) w (fun h' _ =>
    exists sm sv gm gv,
      h' = {| state_means := state_means h ++ [sm];
              state_variances := state_variances h ++ [sv];
              grad_means := grad_means h ++ [gm];
              grad_variances := grad_variances h ++ [gv] |}).
Proof.
  unfold record_history.
  apply wp_bind. eapply wp_mono; [apply wp_true |]. cbn beta. intros smean w1 _.
  apply wp_bind. eapply wp_mono; [apply wp_true |]. cbn beta. intros svar w2 _.
  wp_steps. eauto.
Qed.

Lemma run_filter_body_history (ret_history : bool) (self : RBPF) (h : history)
    (w : world) :
  wp (run_filter_body ret_history (self, h)) w (fun st' _ =>
    if ret_history
    then exists sm sv gm gv,
           snd st' = {| state_means := state_means h ++ [sm];
                        state_variances := state_variances h ++ [sv];
                        grad_means := grad_means h ++ [gm];
                        grad_variances := grad_variances h ++ [gv] |}
    else snd st' = h).
Proof.
  unfold run_filter_body.
  apply wp_bind. eapply wp_mono; [apply wp_true |]. cbn beta. intros self1 w1 _.
  apply wp_bind. eapply wp_mono; [apply wp_true |]. cbn beta. intros lpl w2 _.
  cbv zeta.
  apply wp_bind. eapply wp_mono; [apply wp_true |]. cbn beta. intros self2 w3 _.
  apply wp_bind.
  assert (Hh : wp (if ret_history then record_history self2 h else ret h) w3
                 (fun h1 _ =>
                    if ret_history
                    then exists sm sv gm gv,
                           h1 = {| state_means := state_means h ++ [sm];
                                   state_variances := state_variances h ++ [sv];
                                   grad_means := grad_means h ++ [gm];
                                   grad_variances := grad_variances h ++ [gv] |}
                    else h1 = h)).
  { destruct ret_history; [apply record_history_post | apply wp_ret; reflexivity]. }
  eapply wp_mono; [exact Hh |]. cbn beta. intros h1 w4 Hh1.
  apply wp_bind. eapply wp_mono; [apply wp_true |]. cbn beta. intros d w5 _.
  destruct (flt d (log_resample_limit self2)).
  - apply wp_bind. eapply wp_mono; [apply wp_true |]. cbn beta. intros self3 w6 _.
    apply wp_ret. exact Hh1.
  - apply wp_ret. exact Hh1.
Qed.

Lemma run_filter_loop_history (ret_history : bool) (l : list nat) :
  forall (st : RBPF * history) (w : world),
  wp (for_fold l (fun _ st => run_filter_body ret_history st) st) w (fun st' _ =>
    if ret_history
    then exists sms svs gms gvs,
           length sms = length l /\ length svs = length l /\
           length gms = length l /\ length gvs = length l /\
           state_means (snd st') = state_means (snd st) ++ sms /\
           state_variances (snd st') = state_variances (snd st) ++ svs /\
           grad_means (snd st') = grad_means (snd st) ++ gms /\
           grad_variances (snd st') = grad_variances (snd st) ++ gvs
    else snd st' = snd st).
Proof.
  induction l as [| i l IH]; intros [self h] w; cbn [for_fold].
  - apply wp_ret. destruct ret_history; [| reflexivity].
    exists [], [], [], []. rewrite !app_nil_r. repeat split; reflexivity.
  - apply wp_bind. eapply wp_mono; [apply run_filter_body_history |].
    cbn beta. intros [self1 h1] w1 Hstep.
    eapply wp_mono; [apply IH |]. cbn beta. intros [self2 h2] w2 Hrest.
    cbn [snd] in *. destruct ret_history.
    + destruct Hstep as (sm & sv & gm & gv & ->).
      destruct Hrest as (sms & svs & gms & gvs & H1 & H2 & H3 & H4 & E1 & E2 & E3 & E4).
      cbn in E1, E2, E3, E4.
      exists (sm :: sms), (sv :: svs), (gm :: gms), (gv :: gvs).
      cbn [length]. rewrite E1, E2, E3, E4, <- !app_assoc.
      repeat split; try lia; reflexivity.
    + congruence.
Qed.

(** X14.  When [run_filter] returns, the log marginal likelihood it
    returns is the one the filter holds.  With [ret_history] set, each of
    the four arrays has one entry for each observation: the initial [0.]
    and one value for each iteration.  Without it no array is returned. *)
Theorem run_filter_history (self self' : RBPF) (ret_history : bool)
    (oh : option history) (lml : float64) (w w' : world) :
  run_filter self ret_history w = Ok ((self', oh, lml), w') ->
  lml = log_marginal_likelihood self' /\
  if ret_history
  then exists h sms svs gms gvs,
         oh = Some h /\
         state_means h = Fin 0 :: sms /\ state_variances h = Fin 0 :: svs /\
         grad_means h = Fin 0 :: gms /\ grad_variances h = Fin 0 :: gvs /\
         length sms = pred (nobservations self) /\
         length svs = pred (nobservations self) /\
         length gms = pred (nobservations self) /\
         length gvs = pred (nobservations self)
  else oh = None.
Proof.
  unfold run_filter. intros Hrun.
  apply bind_ok in Hrun as ([self1 h1] & w1 & Hloop & Hret).
  unfold ret in Hret. injection Hret as <- <- <- <-.
  split; [reflexivity |].
  pose proof (wp_elim _ _ _ _ _ (run_filter_loop_history ret_history _ _ w) Hloop)
    as Hhist.
  cbn [snd state_means state_variances grad_means grad_variances] in Hhist.
  destruct ret_history; [| reflexivity].
  destruct Hhist as (sms & svs & gms & gvs & H1 & H2 & H3 & H4 & E1 & E2 & E3 & E4).
  assert (Hlen : length (range (Z.of_nat (nobservations self) - 1))
                 = pred (nobservations self)).
  { unfold range. rewrite length_seq. lia. }
  exists h1, sms, svs, gms, gvs.
  repeat split; try assumption; congruence.
Qed.

(** ** The test before the resampling *)


(** ** A filter without particles, a series of one observation *)

Lemma run_filter_body_empty (ret_history : bool) (self : RBPF) (h : history)
    (w : world) :
  particles self = [] -> pricegen self <> [] -> timegen self <> [] ->
  run_filter_body ret_history (self, h) w = Raise ValueError.
Proof.
  intros Hps Hpg Htg. unfold run_filter_body, bind, increment_particles, bind.
  destruct (pricegen self) as [| price pg]; [congruence |].
  destruct (timegen self) as [| time tg]; [congruence |].
  rewrite Hps. cbn [next ret for_each for_fold].
  unfold get_log_predictive_likelihood, lweights_of, bind.
  cbn [particles with_cursor]. rewrite Hps. reflexivity.
Qed.

(** X16.  The two degenerate filters the constructor accepts.  Over a
    series of one observation [run_filter] makes no iteration and returns
    the filter as it is, with a log marginal likelihood of [0].  With
    [N <= 0] the population is empty, and on a series of two observations or
    more [run_filter] ends in its first iteration with the [ValueError] of
    [np.max] on an empty array. *)
Theorem run_filter_degenerate (mumu sigmasq beta kw kv theta : float64)
    (data : list (float64 * float64)) (n : Z) (gsamps : Z) (epsilon : float64)
    (w w' : world) (self : RBPF) (ret_history : bool) :
  RBPF_init mumu sigmasq beta kw kv theta data n gsamps epsilon w = Ok (self, w') ->
  (length data = 1%nat ->
   run_filter self ret_history w' =
     Ok ((self,
          if ret_history
          then Some {| state_means := [Fin 0]; state_variances := [Fin 0];
                       grad_means := [Fin 0]; grad_variances := [Fin 0] |}
          else None,
          Fin 0), w')) /\
  ((n <= 0)%Z -> (2 <= length data)%nat ->
   run_filter self ret_history w' = Raise ValueError).
Proof.
  intros Hinit.
  pose proof (wp_elim _ _ _ _ _ (RBPF_init_series _ _ _ _ _ _ _ _ _ _ w) Hinit)
    as (t0 & p0 & rest & Hdata & _ & _ & Hn & _ & _ & _ & _ & Htg & Hpg).
  pose proof (wp_elim _ _ _ _ _ (RBPF_init_post _ _ _ _ _ _ _ _ _ _ w) Hinit)
    as (_ & _ & Hlml & Hps & _).
  split.
  - intros Hone. unfold run_filter, range. rewrite Hn, Hone.
    replace (Z.to_nat (Z.of_nat 1 - 1)) with 0%nat by lia.
    cbn [seq for_fold]. unfold bind, ret. rewrite Hlml. reflexivity.
  - intros Hneg Hlen. unfold run_filter, range. rewrite Hn.
    replace (Z.to_nat (Z.of_nat (length data) - 1)) with (S (length data - 2)) by lia.
    cbn [seq for_fold]. unfold bind.
    rewrite run_filter_body_empty; [reflexivity | | |].
    + rewrite Hps. replace (Z.to_nat n) with 0%nat by lia. reflexivity.
    + rewrite Hpg. subst data. destruct rest; [cbn in Hlen; lia | discriminate].
    + rewrite Htg. subst data. destruct rest; [cbn in Hlen; lia | discriminate].
Qed.

(** ** The accessors *)

Lemma flog_zero : flog (Fin 0) = NInf.
Proof.
  unfold flog. destruct (Rlt_dec 0 0) as [Hlt | _]; [lra |].
  destruct (Req_dec_T 0 0) as [_ | Hne]; [reflexivity | congruence].
Qed.

(** X17.  The five accessors of the filter read the state and leave it
    as it is.  On an empty population the two that take a maximum,
    [get_logDninf] and [get_log_predictive_likelihood], raise [ValueError],
    where [get_logPn2] returns [+inf]. *)
Theorem accessors_pure (self : RBPF) (w : world) :
  (forall v w', get_state_mean self w = Ok (v, w') -> w' = w) /\
  (forall v w', get_state_covariance self w = Ok (v, w') -> w' = w) /\
  (forall v w', get_logPn2 self w = Ok (v, w') -> w' = w) /\
  (forall v w', get_logDninf self w = Ok (v, w') -> w' = w) /\
  (forall v w', get_log_predictive_likelihood self w = Ok (v, w') -> w' = w) /\
  (particles self = [] ->
   get_logPn2 self w = Ok (PInf, w) /\
   get_logDninf self w = Raise ValueError /\
   get_log_predictive_likelihood self w = Raise ValueError).
Proof.
  split; [| split; [| split; [| split; [| split]]]].
  - intros v w' Hrun. exact (wp_elim _ _ _ _ _ (get_state_mean_pure self w) Hrun).
  - intros v w' Hrun. exact (wp_elim _ _ _ _ _ (get_state_covariance_pure self w) Hrun).
  - intros v w' Hrun. unfold get_logPn2 in Hrun.
    apply bind_ok in Hrun as (ws & w1 & [-> _]%lweights_of_inv & Hret).
    unfold ret in Hret. injection Hret as _ <-. reflexivity.
  - intros v w' Hrun. apply get_logDninf_ok in Hrun as [-> _]. reflexivity.
  - intros v w' Hrun. apply get_log_predictive_likelihood_ok in Hrun as [-> _].
    reflexivity.
  - intros Hps.
    unfold get_logPn2, get_logDninf, get_log_predictive_likelihood, lweights_of, bind.
    rewrite Hps. cbn [comprehension ret map np_sum fold_right call np_max logsumexp].
    rewrite flog_zero. repeat split; reflexivity.
Qed.

(** ** The particles of the constructor *)

Lemma LangevinParticle_init_effect (mumu sigmasq beta kw kv theta : float64)
    (gsamps : Z) (w : world) :
  wp (LangevinParticle_init mumu sigmasq beta kw kv theta gsamps) w
    (fun r w' =>
       r = length (objs w) /\
       exists p a3 a4 a5,
         objs w' = objs w ++ [p] /\
         arrs w' = arrs w ++
           [np_array1 [Fin 0; Fin 0; mumu];
            np_array2 [[Fin 0; Fin 0; Fin 0];
                       [Fin 0; Fin 0; Fin 0];
                       [Fin 0; Fin 0; fmul sigmasq kw]];
            a3; a4; a5] /\
         constructed sigmasq beta kv theta gsamps (length (arrs w)) p).
Proof.
  unfold LangevinParticle_init. wp_steps. apply wp_new_object. cbn [objs arrs gen].
  split; [reflexivity |]. eexists _, _, _, _. split; [reflexivity |].
  rewrite <- !app_assoc. cbn [app]. split; [reflexivity |].
  unfold constructed. cbn [acc Ccc alpha Hmat Bmat logweight].
  rewrite !length_app. cbn [length].
  repeat split; try reflexivity; lia.
Qed.

Lemma init_particles_effect {A} (mumu sigmasq beta kw kv theta : float64)
    (gsamps : Z) (l : list A) :
  forall w,
  wp (comprehension l
        (fun _ => LangevinParticle_init mumu sigmasq beta kw kv theta gsamps)) w
    (fun ps w' =>
       ps = seq (length (objs w)) (length l) /\
       length (objs w') = (length (objs w) + length l)%nat /\
       length (arrs w') = (length (arrs w) + 5 * length l)%nat /\
       (forall r a, arrs w !! r = Some a -> arrs w' !! r = Some a) /\
       (forall r p, objs w !! r = Some p -> objs w' !! r = Some p) /\
       forall i, (i < length l)%nat ->
         exists p,
           objs w' !! (length (objs w) + i)%nat = Some p /\
           constructed sigmasq beta kv theta gsamps (length (arrs w) + 5 * i) p /\
           arrs w' !! acc p = Some (np_array1 [Fin 0; Fin 0; mumu]) /\
           arrs w' !! Ccc p =
             Some (np_array2 [[Fin 0; Fin 0; Fin 0];
                              [Fin 0; Fin 0; Fin 0];
                              [Fin 0; Fin 0; fmul sigmasq kw]])).
Proof.
  induction l as [| x l IH]; intros w; cbn [comprehension].
  - apply wp_ret. cbn [length seq]. split; [reflexivity |].
    split; [lia |]. split; [lia |]. split; [auto |]. split; [auto |].
    intros i Hi. lia.
  - apply wp_bind. eapply wp_mono; [apply LangevinParticle_init_effect |].
    cbn beta. intros r w1 (-> & p & a3 & a4 & a5 & Hobj & Harr & Hcon).
    apply wp_bind. eapply wp_mono; [apply (IH w1) |].
    cbn beta. intros ps w2 (-> & Hlo & Hla & Harrs & Hobjs & Hin). apply wp_ret.
    assert (Hlo1 : length (objs w1) = S (length (objs w))).
    { rewrite Hobj, length_app. cbn. lia. }
    assert (Hla1 : length (arrs w1) = (length (arrs w) + 5)%nat).
    { rewrite Harr, length_app. reflexivity. }
    split; [cbn [length seq]; rewrite Hlo1; reflexivity |].
    split; [cbn [length]; lia |]. split; [cbn [length]; lia |].
    split; [| split].
    + intros r a Ha. apply Harrs. rewrite Harr. apply lookup_app_Some_l. assumption.
    + intros r q Hq. apply Hobjs. rewrite Hobj. apply lookup_app_Some_l. assumption.
    + intros [| i] Hi.
      * exists p. rewrite Nat.add_0_r, Nat.mul_0_r, Nat.add_0_r.
        destruct Hcon as (Hacc & HCcc & Hrest).
        split; [apply Hobjs; rewrite Hobj; apply list_lookup_middle; reflexivity |].
        split; [repeat split; try assumption; apply Hrest |].
        rewrite Hacc, HCcc. split; apply Harrs; rewrite Harr.
        -- apply list_lookup_middle. reflexivity.
        -- rewrite lookup_app_r by lia.
           replace (S (length (arrs w)) - length (arrs w))%nat with 1%nat by lia.
           reflexivity.
      * cbn [length] in Hi. destruct (Hin i ltac:(lia)) as (q & Hq & Hqcon & Hqa & HqC).
        exists q.
        replace (length (objs w) + S i)%nat with (length (objs w1) + i)%nat by lia.
        replace (length (arrs w) + 5 * S i)%nat with (length (arrs w1) + 5 * i)%nat by lia.
        split; [assumption |]. split; [assumption |]. split; assumption.
Qed.

Lemma RBPF_init_allocates (mumu sigmasq beta kw kv theta : float64)
    (data : list (float64 * float64)) (n : Z) (gsamps : Z) (epsilon : float64)
    (w : world) :
  wp (RBPF_init mumu sigmasq beta kw kv theta data n gsamps epsilon) w
    (fun self w' =>
       particles self = seq (length (objs w)) (Z.to_nat n) /\
       length (objs w') = (length (objs w) + Z.to_nat n)%nat /\
       length (arrs w') = (length (arrs w) + 5 * Z.to_nat n)%nat /\
       (forall r a, arrs w !! r = Some a -> arrs w' !! r = Some a) /\
       (forall r p, objs w !! r = Some p -> objs w' !! r = Some p) /\
       forall i, (i < Z.to_nat n)%nat ->
         exists p,
           objs w' !! (length (objs w) + i)%nat = Some p /\
           constructed sigmasq beta kv theta gsamps (length (arrs w) + 5 * i) p /\
           arrs w' !! acc p = Some (np_array1 [Fin 0; Fin 0; mumu]) /\
           arrs w' !! Ccc p =
             Some (np_array2 [[Fin 0; Fin 0; Fin 0];
                              [Fin 0; Fin 0; Fin 0];
                              [Fin 0; Fin 0; fmul sigmasq kw]])).
Proof.
  unfold RBPF_init, series_first. cbv zeta.
  apply wp_bind, wp_lift. intros initial_time _.
  apply wp_bind, wp_lift. intros initial_price _.
  apply wp_bind, wp_next. intros ct tg _.
  apply wp_bind, wp_next. intros cp pg _.
  apply wp_bind. eapply wp_mono; [apply init_particles_effect |].
  cbn beta. intros ps w' Hpost. apply wp_ret. cbn [particles].
  unfold range in Hpost. rewrite length_seq in Hpost. exact Hpost.
Qed.

(** X18.  The constructor makes [N] new particle objects with a
    log-weight of [0.] and the parameters it was given.  The mean of each
    is [[0, 0, mumu]] and its covariance has the one entry [sigmasq * kw].
    The mean, the covariance and the state sample of a particle are three
    arrays allocated by the call, and no two particles have one of them in
    common.  Nothing that was in the stores is changed. *)
Theorem RBPF_init_particles (mumu sigmasq0 beta0 kw kv0 theta0 : float64)
    (data : list (float64 * float64)) (n : Z) (gsamps0 : Z) (epsilon : float64)
    (w w' : world) (self : RBPF) :
  RBPF_init mumu sigmasq0 beta0 kw kv0 theta0 data n gsamps0 epsilon w
    = Ok (self, w') ->
  length (particles self) = Z.to_nat n /\
  population w' (particles self) /\
  (forall r a, arrs w !! r = Some a -> arrs w' !! r = Some a) /\
  (forall r p, objs w !! r = Some p -> objs w' !! r = Some p) /\
  (forall r, elem_of r (particles self) ->
     (length (objs w) <= r)%nat /\
     exists p,
       objs w' !! r = Some p /\
       logweight p = Fin 0 /\
       theta p = theta0 /\ kv p = kv0 /\ beta p = beta0 /\
       sigmasq p = sigmasq0 /\ gsamps p = gsamps0 /\
       arrs w' !! acc p = Some (np_array1 [Fin 0; Fin 0; mumu]) /\
       arrs w' !! Ccc p =
         Some (np_array2 [[Fin 0; Fin 0; Fin 0];
                          [Fin 0; Fin 0; Fin 0];
                          [Fin 0; Fin 0; fmul sigmasq0 kw]]) /\
       NoDup (state_arrays p) /\
       Forall (fun a => (length (arrs w) <= a < length (arrs w'))%nat)
              (state_arrays p)) /\
  (forall r1 r2 p1 p2 a,
     elem_of r1 (particles self) -> elem_of r2 (particles self) -> r1 <> r2 ->
     objs w' !! r1 = Some p1 -> objs w' !! r2 = Some p2 ->
     elem_of a (state_arrays p1) -> ~ elem_of a (state_arrays p2)).
Proof.
  intros Hinit.
  pose proof (wp_elim _ _ _ _ _ (RBPF_init_allocates _ _ _ _ _ _ _ _ _ _ w) Hinit)
    as (Hps & Hlo & Hla & Harrs & Hobjs & Hin).
  rewrite Hps. split; [apply length_seq |]. split.
  { split; [apply NoDup_seq |]. apply Forall_forall. intros r Hr.
    apply elem_of_seq in Hr. lia. }
  split; [assumption |]. split; [assumption |]. split.
  - intros r Hr. apply elem_of_seq in Hr.
    split; [lia |].
    destruct (Hin (r - length (objs w))%nat ltac:(lia))
      as (p & Hp & Hcon & Hacc & HCcc).
    replace (length (objs w) + (r - length (objs w)))%nat with r in Hp by lia.
    destruct Hcon as (Ha & HC & Hal & _ & _ & Hlw & Hth & Hkv & Hbe & Hsi & Hgs).
    exists p. repeat (split; [assumption |]).
    unfold state_arrays. rewrite Ha, HC, Hal. split.
    + repeat constructor; rewrite ?elem_of_cons, ?elem_of_nil; lia.
    + repeat constructor; lia.
  - intros r1 r2 p1 p2 a Hr1 Hr2 Hne Hp1 Hp2 Ha1 Ha2.
    apply elem_of_seq in Hr1. apply elem_of_seq in Hr2.
    destruct (Hin (r1 - length (objs w))%nat ltac:(lia))
      as (q1 & Hq1 & (Hacc1 & HCcc1 & Hal1 & _) & _).
    destruct (Hin (r2 - length (objs w))%nat ltac:(lia))
      as (q2 & Hq2 & (Hacc2 & HCcc2 & Hal2 & _) & _).
    replace (length (objs w) + (r1 - length (objs w)))%nat with r1 in Hq1 by lia.
    replace (length (objs w) + (r2 - length (objs w)))%nat with r2 in Hq2 by lia.
    rewrite Hp1 in Hq1. injection Hq1 as <-.
    rewrite Hp2 in Hq2. injection Hq2 as <-.
    unfold state_arrays in Ha1, Ha2. rewrite Hacc1, HCcc1, Hal1 in Ha1.
    rewrite Hacc2, HCcc2, Hal2 in Ha2.
    repeat (apply elem_of_cons in Ha1 as [Ha1 | Ha1]);
      try (apply elem_of_nil in Ha1; contradiction);
      repeat (apply elem_of_cons in Ha2 as [Ha2 | Ha2]);
      try (apply elem_of_nil in Ha2; contradiction); lia.
Qed.

(** ** The candidate jumps of [gen_gamma_process] *)




(** ** What [reweight_particles] changes *)


(** ** The errors of the constructor *)

Lemma LangevinParticle_init_numpy_error (mumu sigmasq beta kw kv theta : float64)
    (gsamps : Z) :
  raises_only numpy_error
    (LangevinParticle_init mumu sigmasq beta kw kv theta gsamps).
Proof. unfold LangevinParticle_init. raises_only_steps. Qed.

(** X21.  The constructor raises [KeyError] exactly when the series is
    empty, from the access to its first row.  On a series that is not empty
    it can only end with an error of a numpy operation of
    [LangevinParticle.__init__], a [ValueError] or a [LinAlgError]. *)
Theorem RBPF_init_errors (mumu sigmasq beta kw kv theta : float64)
    (data : list (float64 * float64)) (n : Z) (gsamps : Z) (epsilon : float64)
    (w : world) :
  (RBPF_init mumu sigmasq beta kw kv theta data n gsamps epsilon w = Raise KeyError
   <-> data = []) /\
  (forall e,
     RBPF_init mumu sigmasq beta kw kv theta data n gsamps epsilon w = Raise e ->
     data <> [] -> e = ValueError \/ e = LinAlgError).
Proof.
  destruct data as [| row rest].
  - split; [split; reflexivity |]. intros e _ Hne. congruence.
  - assert (Hraises : forall e,
              RBPF_init mumu sigmasq beta kw kv theta (row :: rest) n gsamps epsilon w
                = Raise e -> numpy_error e).
    { intros e. unfold RBPF_init, series_first. cbn [map lookup list_lookup lift next].
      unfold bind at 1. cbn [ret]. unfold bind at 1. cbn [ret].
      unfold bind at 1. cbn [ret]. unfold bind at 1. cbn [ret].
      unfold bind at 1.
      destruct (comprehension (range n)
                  (fun _ => LangevinParticle_init mumu sigmasq beta kw kv theta gsamps) w)
        as [[ps w1] | e1] eqn:Hloop; [discriminate |].
      intros [= <-].
      assert (Hall : raises_only numpy_error
                (comprehension (range n)
                   (fun _ => LangevinParticle_init mumu sigmasq beta kw kv theta gsamps))).
      { apply raises_only_comprehension. intros _.
        apply LangevinParticle_init_numpy_error. }
      exact (Hall w _ Hloop). }
    split.
    + split; [| discriminate]. intros Hkey. apply Hraises in Hkey. contradiction.
    + intros e He _. apply Hraises in He. destruct e; try contradiction; auto.
Qed.

(** ** The loop of the driver script *)

Lemma driver_step_ok (rbpf rbpf' : RBPF) (sms svs sms' svs' : list float64)
    (w w' : world) :
  driver_step (rbpf, sms, svs) w = Ok ((rbpf', sms', svs'), w') ->
  exists rbpf1 w1 w2 sm sv,
    increment_particles rbpf w = Ok (rbpf1, w1) /\
    reweight_particles rbpf1 w1 = Ok (rbpf1, w2) /\
    resample_particles rbpf1 w2 = Ok (rbpf', w') /\
    sms' = sms ++ [sm] /\ svs' = svs ++ [sv].
Proof.
  unfold driver_step. intros Hrun.
  apply bind_ok in Hrun as (rbpf1 & w1 & Hinc & Hrun).
  apply bind_ok in Hrun as (rbpf2 & w2 & Hrew & Hrun).
  pose proof (wp_elim _ _ _ _ _ (reweight_particles_self _ w1) Hrew) as ->.
  apply bind_ok in Hrun as (smean & w3 & Hmean & Hrun).
  pose proof (wp_elim _ _ _ _ _ (get_state_mean_pure _ w2) Hmean) as ->.
  apply bind_ok in Hrun as (sm & w3 & [_ ->]%lift_ok & Hrun).
  cbv zeta in Hrun.
  apply bind_ok in Hrun as (svar & w3 & Hcov & Hrun).
  pose proof (wp_elim _ _ _ _ _ (get_state_covariance_pure _ w2) Hcov) as ->.
  apply bind_ok in Hrun as (sv & w3 & [_ ->]%lift_ok & Hrun).
  apply bind_ok in Hrun as (rbpf3 & w3 & Hres & Hret).
  unfold ret in Hret. injection Hret as <- <- <- <-.
  exists rbpf1, w1, w2, sm, sv. repeat split; assumption.
Qed.

Lemma increment_particles_population (self self' : RBPF) (w w' : world) :
  population w (particles self) ->
  increment_particles self w = Ok (self', w') ->
  population w' (particles self').
Proof.
  intros [Hnd Hall] Hrun.
  destruct (increment_particles_ok _ _ _ _ Hrun)
    as (price & pg & time & tg & _ & _ & Hloop & ->).
  pose proof (wp_elim _ _ _ _ _
                (increment_loop price (current_time self) time (particles self) w Hnd)
                Hloop) as (_ & _ & _ & Hin).
  cbn [particles with_cursor]. split; [assumption |].
  apply Forall_forall. intros r Hr. apply list_elem_of_lookup_1 in Hr as [i Hi].
  destruct (Hin i r Hi) as (p & p' & _ & Hp' & _).
  eapply lookup_lt_Some, Hp'.
Qed.

Lemma reweight_particles_population (self self' : RBPF) (w w' : world) :
  population w (particles self) ->
  reweight_particles self w = Ok (self', w') ->
  self' = self /\ population w' (particles self).
Proof.
  intros Hpop Hrun. pose proof Hrun as Hrun0. unfold reweight_particles in Hrun0.
  apply bind_ok in Hrun0 as (ws & w1 & [-> Hw]%lweights_of_inv & Hrun0).
  apply bind_ok in Hrun0 as (s & w1 & [Hs ->]%call_ok & _).
  destruct (reweight_particles_run self w ws s Hpop Hw Hs)
    as (w2 & Hrun2 & _ & _ & _ & Hlen & _).
  rewrite Hrun in Hrun2. injection Hrun2 as -> ->.
  split; [reflexivity |]. destruct Hpop as [Hnd Hall].
  split; [assumption |]. rewrite Hlen. assumption.
Qed.

(** X22.  A pass of the loop of the driver script appends one value to
    each of its two lists and always resamples: on a population of [N]
    particles it leaves a population of [N] particles whose log-weights are
    all [-log(N)].  Unlike [run_filter], it does not add to the log marginal
    likelihood of the filter. *)
Theorem driver_step_resamples (rbpf rbpf' : RBPF)
    (sms svs sms' svs' : list float64) (w w' : world) :
  multinomial_sound ->
  population w (particles rbpf) ->
  Z.of_nat (length (particles rbpf)) = N rbpf ->
  driver_step (rbpf, sms, svs) w = Ok ((rbpf', sms', svs'), w') ->
  (exists sm sv, sms' = sms ++ [sm] /\ svs' = svs ++ [sv]) /\
  log_marginal_likelihood rbpf' = log_marginal_likelihood rbpf /\
  N rbpf' = N rbpf /\
  Z.of_nat (length (particles rbpf')) = N rbpf /\
  population w' (particles rbpf') /\
  has_lweights w' (particles rbpf')
    (repeat (fneg (flog (Fin (IZR (N rbpf))))) (Z.to_nat (N rbpf))).
Proof.
  intros Hsound Hpop HN Hrun.
  destruct (driver_step_ok _ _ _ _ _ _ _ _ Hrun)
    as (rbpf1 & w1 & w2 & sm & sv & Hinc & Hrew & Hres & -> & ->).
  pose proof (increment_particles_population _ _ _ _ Hpop Hinc) as Hpop1.
  destruct (reweight_particles_population _ _ _ _ Hpop1 Hrew) as [_ Hpop2].
  destruct (increment_particles_ok _ _ _ _ Hinc)
    as (price & pg & time & tg & _ & _ & _ & Hself1).
  assert (HN1 : Z.of_nat (length (particles rbpf1)) = N rbpf1)
    by (rewrite Hself1; cbn; assumption).
  assert (HNeq : N rbpf1 = N rbpf) by (rewrite Hself1; reflexivity).
  destruct (resample_particles_result _ _ _ _ Hsound Hpop2 HN1 Hres)
    as (Hself' & Hpop' & Hw').
  rewrite HNeq in Hw', Hself'.
  split; [eauto |].
  split; [rewrite Hself', Hself1; reflexivity |].
  split; [rewrite Hself', Hself1; reflexivity |].
  split; [| split; assumption].
  rewrite Hself'. cbn [particles with_particles]. rewrite length_seq.
  rewrite <- HN. lia.
Qed.




(** ** The size of the population *)

Lemma run_filter_body_population (ret_history : bool) (self self' : RBPF)
    (h h' : history) (w w' : world) :
  multinomial_sound ->
  population w (particles self) ->
  Z.of_nat (length (particles self)) = N self ->
  run_filter_body ret_history (self, h) w = Ok ((self', h'), w') ->
  population w' (particles self') /\
  Z.of_nat (length (particles self')) = N self' /\
  N self' = N self.
Proof.
  intros Hsound Hpop HN Hrun.
  destruct (run_filter_body_inv _ _ _ _ _ _ _ Hrun)
    as (self1 & w1 & lws & L & w2 & nws & m & Hinc & Hcur & _ & _ & Hrew & _ & _ & Hend).
  pose proof (increment_particles_population _ _ _ _ Hpop Hinc) as Hpop1.
  destruct Hcur as (cp & pg & ct & tg & Hself1).
  set (self2 := with_log_marginal_likelihood self1
                  (fadd (log_marginal_likelihood self) L)) in *.
  assert (Hps2 : particles self2 = particles self)
    by (unfold self2; rewrite Hself1; reflexivity).
  assert (HN2 : N self2 = N self) by (unfold self2; rewrite Hself1; reflexivity).
  assert (Hpop1' : population w1 (particles self2)).
  { rewrite Hps2. rewrite Hself1 in Hpop1. exact Hpop1. }
  destruct (reweight_particles_population _ _ _ _ Hpop1' Hrew) as [_ Hpop2].
  destruct (flt (fneg m) (log_resample_limit self)).
  - assert (HN2' : Z.of_nat (length (particles self2)) = N self2)
      by (rewrite Hps2, HN2; assumption).
    destruct (resample_particles_result _ _ _ _ Hsound Hpop2 HN2' Hend)
      as (Hself' & Hpop' & _).
    split; [assumption |]. rewrite Hself'. cbn [particles N with_particles].
    rewrite length_seq. split; [lia | assumption].
  - destruct Hend as [-> ->]. split; [assumption |].
    rewrite Hps2, HN2. split; [assumption | reflexivity].
Qed.

Lemma run_filter_loop_population (ret_history : bool) (l : list nat) :
  multinomial_sound ->
  forall (st st' : RBPF * history) (w w' : world),
  population w (particles (fst st)) ->
  Z.of_nat (length (particles (fst st))) = N (fst st) ->
  for_fold l (fun _ st => run_filter_body ret_history st) st w = Ok (st', w') ->
  population w' (particles (fst st')) /\
  Z.of_nat (length (particles (fst st'))) = N (fst st') /\
  N (fst st') = N (fst st).
Proof.
  intros Hsound. induction l as [| i l IH]; intros st st' w w' Hpop HN; cbn [for_fold].
  - unfold ret. intros [= <- <-].
    split; [assumption | split; [assumption | reflexivity]].
  - intros Hrun. apply bind_ok in Hrun as ([self1 h1] & w1 & Hbody & Hrest).
    destruct st as [self h]. cbn [fst] in *.
    destruct (run_filter_body_population _ _ _ _ _ _ _ Hsound Hpop HN Hbody)
      as (Hpop1 & HN1 & HNeq).
    destruct (IH (self1, h1) st' w1 w' Hpop1 HN1 Hrest) as (Hpop' & HN' & HNeq').
    cbn [fst] in *. split; [assumption | split; [assumption | congruence]].
Qed.

(** X24.  The filter keeps its number of particles: on a filter that the
    constructor returns for [N >= 0], when [run_filter] returns, the
    population consists of exactly [N] pairwise distinct particle objects of
    the store, whichever iterations have resampled. *)
Theorem run_filter_population (mumu sigmasq beta kw kv theta : float64)
    (data : list (float64 * float64)) (n : Z) (gsamps : Z) (epsilon : float64)
    (w0 w1 w' : world) (self0 self' : RBPF) (ret_history : bool)
    (oh : option history) (lml : float64) :
  multinomial_sound ->
  (0 <= n)%Z ->
  RBPF_init mumu sigmasq beta kw kv theta data n gsamps epsilon w0 = Ok (self0, w1) ->
  run_filter self0 ret_history w1 = Ok ((self', oh, lml), w') ->
  N self' = n /\
  Z.of_nat (length (particles self')) = n /\
  population w' (particles self').
Proof.
  intros Hsound Hn Hinit Hrun.
  pose proof (wp_elim _ _ _ _ _ (RBPF_init_post _ _ _ _ _ _ _ _ _ _ w0) Hinit)
    as (HN0 & _ & _ & Hps & os & Hobjs & Hlen & Hos).
  destruct (fresh_population w0 w1 os (Fin 0) Hobjs Hos) as [Hpop0 _].
  rewrite Hlen, <- Hps in Hpop0.
  assert (Hsize : Z.of_nat (length (particles self0)) = N self0).
  { rewrite Hps, length_seq, HN0. lia. }
  unfold run_filter in Hrun.
  apply bind_ok in Hrun as ([self1 h1] & w2 & Hloop & Hret).
  unfold ret in Hret. injection Hret as <- _ _ <-.
  destruct (run_filter_loop_population ret_history _ Hsound (self0, _) _ _ _
              Hpop0 Hsize Hloop)
    as (Hpop & HN & HNeq).
  cbn [fst] in *. split; [congruence |]. split; [congruence | assumption].
Qed.

End Engine.

(** * Examples *)

Section Examples.
#[local] Existing Instance toy_numpy.
#[local] Existing Instance toy_process.

(** The run of a program on a concrete state: the control flow is
    evaluated, the arithmetic on the values is left as it is. *)
Ltac run_program :=
  lazy -[fadd fsub fmul fdiv fneg fexp flog fsquare flt fmax nan_to_num IZR
         Rdiv Rmult Rplus Ropp Rinv exp ln PI].



Lemma first_outcome_sound (n : Z) (pvals : list float64) (counts : list nat) :
  first_outcome n pvals = Some counts ->
  length counts = length pvals /\ sum_list counts = Z.to_nat n /\ (0 <= n)%Z.
Proof.
  unfold first_outcome. destruct (Z.ltb_spec n 0) as [Hlt | Hge]; [discriminate |].
  destruct pvals as [| p rest].
  - destruct (Z.eqb_spec n 0) as [-> | _]; [| discriminate].
    intros [= <-]. repeat split. lia.
  - intros [= <-]. cbn [length]. rewrite length_map.
    split; [reflexivity |]. split; [| assumption].
    assert (Hz : sum_list (map (fun _ : float64 => 0%nat) rest) = 0%nat).
    { induction rest as [| q rest IH]; [reflexivity |]. cbn. exact IH. }
    change (sum_list (Z.to_nat n :: map (fun _ : float64 => 0%nat) rest))
      with (Z.to_nat n + sum_list (map (fun _ : float64 => 0%nat) rest))%nat.
    rewrite Hz. lia.
Qed.

Lemma lax_multinomial_sound : @multinomial_sound toy_numpy.
Proof.
  intros g n pvals counts g'. cbn. unfold lax_multinomial.
  destruct (first_outcome n pvals) as [c |] eqn:Hc; [| discriminate].
  cbn. intros [= <- _]. eapply first_outcome_sound, Hc.
Qed.

Lemma toy_population (np : Numpy) (g : @rng np) (lws : list float64) :
  @population np (toy_process np) (toy_world np g lws) (seq 0 (length lws)) /\
  @has_lweights np (toy_process np) (toy_world np g lws) (seq 0 (length lws)) lws.
Proof.
  split.
  - split; [apply NoDup_seq |]. apply Forall_forall. intros r Hr.
    apply elem_of_seq in Hr. cbn [toy_world objs]. rewrite length_imap. lia.
  - unfold has_lweights, toy_world. cbn [objs].
    apply Forall2_same_length_lookup_2; [rewrite length_seq; reflexivity |].
    intros i r v Hr Hv. apply lookup_seq in Hr as [-> _].
    exists (toy_particle np v (5 * i)). split; [| reflexivity].
    cbn [Nat.add]. rewrite list_lookup_imap, Hv. reflexivity.
Qed.



Lemma resample_particles_size_and_weights_witness :
  exists self' w',
    resample_particles (toy_filter [Fin 0; Fin 1] (Fin (1 / 2)))
      (toy_world toy_numpy tt [Fin 0; Fin 1]) = Ok (self', w') /\
    Z.of_nat (length (particles self')) = 2%Z /\
    Forall (fun r => exists p, objs w' !! r = Some p /\ logweight p = Fin (- ln 2))
           (particles self').
Proof.
  destruct (resample_particles_run (toy_filter [Fin 0; Fin 1] (Fin (1 / 2)))
              (toy_world toy_numpy tt [Fin 0; Fin 1]) [Fin 0; Fin 1] [2; 0]%nat tt)
    as (os & w' & Hrun & _).
  - apply (toy_population toy_numpy tt [Fin 0; Fin 1]).
  - reflexivity.
  - cbn. lia.
  - cbn. lia.
  - destruct (resample_particles_size_and_weights
                (toy_filter [Fin 0; Fin 1] (Fin (1 / 2))) _
                (toy_world toy_numpy tt [Fin 0; Fin 1]) w' lax_multinomial_sound
                (proj1 (toy_population toy_numpy tt [Fin 0; Fin 1])) eq_refl Hrun)
      as (_ & Hlen & _ & Hlw & Hval).
    eexists. exists w'. split; [exact Hrun |]. split; [exact Hlen |].
    eapply Forall_impl; [exact Hlw |]. cbn beta. intros r (p & Hp & Hv).
    exists p. split; [assumption |]. rewrite Hv. exact (Hval eq_refl).
Defined.

Lemma resample_particles_shallow_copies_witness :
  exists self' w',
    resample_particles (toy_filter [Fin 0; Fin 1] (Fin (1 / 2)))
      (toy_world toy_numpy tt [Fin 0; Fin 1]) = Ok (self', w') /\
    arrs w' = arrs (toy_world toy_numpy tt [Fin 0; Fin 1]) /\
    NoDup (particles self').
Proof.
  destruct (resample_particles_run (toy_filter [Fin 0; Fin 1] (Fin (1 / 2)))
              (toy_world toy_numpy tt [Fin 0; Fin 1]) [Fin 0; Fin 1] [2; 0]%nat tt)
    as (os & w' & Hrun & _).
  - apply (toy_population toy_numpy tt [Fin 0; Fin 1]).
  - reflexivity.
  - cbn. lia.
  - cbn. lia.
  - destruct (resample_particles_shallow_copies
                (toy_filter [Fin 0; Fin 1] (Fin (1 / 2))) _
                (toy_world toy_numpy tt [Fin 0; Fin 1]) w' lax_multinomial_sound
                (proj1 (toy_population toy_numpy tt [Fin 0; Fin 1])) eq_refl Hrun)
      as (sel & _ & Harrs & _ & Hnd & _).
    eexists. exists w'. split; [exact Hrun |]. split; assumption.
Defined.

Lemma resample_particles_collapse_witness :
  probabilities_of [NInf; NInf] = [NaN; NaN] /\
  resample_particles (toy_filter [NInf; NInf] (Fin (1 / 2)))
    (toy_world toy_numpy tt [NInf; NInf]) <> Raise NumericInstabilityError.
Proof.
  destruct (resample_particles_collapse (toy_filter [NInf; NInf] (Fin (1 / 2)))
              (toy_world toy_numpy tt [NInf; NInf]) [NInf; NInf])
    as (Hp & Hn & _).
  - apply (toy_population toy_numpy tt [NInf; NInf]).
  - repeat constructor.
  - split; assumption.
Defined.



Lemma first_marginal_likelihood_increment_witness :
  exists self0 w1,
    RBPF_init (Fin 0) (Fin 1) (Fin 1) (Fin 1) (Fin 1) (Fin (- 1))
      [(Fin 0, Fin 0); (Fin 1, Fin 2)] 2 10 (Fin (1 / 2))
      (toy_world toy_numpy tt []) = Ok (self0, w1) /\
    has_lweights w1 (particles self0) [Fin 0; Fin 0] /\
    log_marginal_likelihood self0 = Fin 0.
Proof.
  destruct (RBPF_init (Fin 0) (Fin 1) (Fin 1) (Fin 1) (Fin 1) (Fin (- 1))
              [(Fin 0, Fin 0); (Fin 1, Fin 2)] 2 10 (Fin (1 / 2))
              (toy_world toy_numpy tt [])) as [[self0 w1] | e] eqn:Hinit.
  - exists self0, w1. split; [reflexivity |].
    destruct (first_marginal_likelihood_increment _ _ _ _ _ _ _ _ _ _ _ _ _ Hinit)
      as (_ & Hw & Hlml & _).
    split; assumption.
  - discriminate Hinit.
Defined.

Lemma run_filter_iteration_witness :
  exists self0 w0 self' h' w' L,
    RBPF_init (Fin 0) (Fin 1) (Fin 1) (Fin 1) (Fin 1) (Fin (- 1))
      [(Fin 0, Fin 0); (Fin 1, Fin 2)] 1 10 (Fin (1 / 2))
      (toy_world toy_numpy tt []) = Ok (self0, w0) /\
    run_filter_body false (self0, Build_history [] [] [] []) w0
      = Ok ((self', h'), w') /\
    log_marginal_likelihood self' = fadd (log_marginal_likelihood self0) L.
Proof.
  destruct (RBPF_init (Fin 0) (Fin 1) (Fin 1) (Fin 1) (Fin 1) (Fin (- 1))
              [(Fin 0, Fin 0); (Fin 1, Fin 2)] 1 10 (Fin (1 / 2))
              (toy_world toy_numpy tt [])) as [[self0 w0] | e] eqn:Hinit;
    [| discriminate Hinit].
  assert (Hbody : exists r,
            run_filter_body false (self0, Build_history [] [] [] []) w0 = Ok r).
  { pose proof Hinit as Hvalue.
    lazy -[fadd fsub fmul fdiv fneg fexp flog fsquare flt fmax nan_to_num IZR
           Rdiv Rmult Rplus Ropp Rinv exp ln PI] in Hvalue.
    injection Hvalue as <- <-. run_program.
    match goal with |- context [if ?c then _ else _] => destruct c end;
      eexists; reflexivity. }
  destruct Hbody as [[[self' h'] w'] Hbody].
  destruct (run_filter_iteration _ _ _ _ _ _ _ _ _ _ _ _ _ false []
              (Build_history [] [] [] []) _ _ _ _ _ _ Hinit eq_refl Hbody)
    as (_ & self1 & w1 & lws & L & w2 & nws & m & _ & _ & _ & Hlml & _).
  exists self0, w0, self', h', w', L. split; [reflexivity |].
  split; assumption.
Defined.


(** C4 as it is stated fails: with the counts [[2; 0]] the two offspring
    are copies of the first particle and hold its array of the mean, and a
    write into that array through one offspring is read through the other
    and through the parent. *)
Lemma resample_particles_aliasing_counterexample :
  exists self' w' c1 c2 p1 p2 w'',
    resample_particles (toy_filter [Fin 0; Fin 1] (Fin (1 / 2)))
      (toy_world toy_numpy tt [Fin 0; Fin 1]) = Ok (self', w') /\
    particles self' = [c1; c2] /\ c1 <> c2 /\
    objs w' !! c1 = Some p1 /\ objs w' !! c2 = Some p2 /\
    array_write (acc p1) [Fin 1; Fin 0; Fin 0] w' = Ok (tt, w'') /\
    get_array (acc p2) w' = Ok ([Fin 0; Fin 0; Fin 0], w') /\
    get_array (acc p2) w'' = Ok ([Fin 1; Fin 0; Fin 0], w'') /\
    get_array (acc (toy_particle toy_numpy (Fin 0) 0)) w''
      = Ok ([Fin 1; Fin 0; Fin 0], w'') /\
    [Fin 1; Fin 0; Fin 0] <> [Fin 0; Fin 0; Fin 0].
Proof.
  eexists. eexists. exists 2%nat, 3%nat. eexists. eexists. eexists.
  split; [run_program; reflexivity |]. split; [reflexivity |].
  split; [discriminate |].
  split; [reflexivity |]. split; [reflexivity |].
  split; [run_program; reflexivity |].
  split; [run_program; reflexivity |]. split; [run_program; reflexivity |].
  split; [run_program; reflexivity |].
  intros [= Hone]. lra.
Qed.

(** C8 as it is stated fails: with both log-weights at [-inf], every
    weight exponentiates to exactly zero, and the call ends with the
    [ValueError] of a numpy that refuses NaN probabilities, and returns a
    population with a numpy that does not look at them. *)
Lemma resample_particles_collapse_counterexample :
  Forall (fun v => fexp v = Fin 0) [NInf; NInf] /\
  @resample_particles strict_numpy (toy_process strict_numpy)
    (toy_filter [NInf; NInf] (Fin (1 / 2)))
    (toy_world strict_numpy tt [NInf; NInf]) = Raise ValueError /\
  exists self' w',
    @resample_particles toy_numpy (toy_process toy_numpy)
      (toy_filter [NInf; NInf] (Fin (1 / 2)))
      (toy_world toy_numpy tt [NInf; NInf]) = Ok (self', w').
Proof.
  split; [repeat constructor |]. split.
  - apply (@resample_particles_refused strict_numpy (toy_process strict_numpy)
             (toy_filter [NInf; NInf] (Fin (1 / 2)))
             (toy_world strict_numpy tt [NInf; NInf]) [NInf; NInf]).
    + apply (toy_population strict_numpy tt [NInf; NInf]).
    + rewrite probabilities_of_collapse by (repeat constructor). reflexivity.
  - destruct (resample_particles_run (toy_filter [NInf; NInf] (Fin (1 / 2)))
                (toy_world toy_numpy tt [NInf; NInf]) [NInf; NInf] [2; 0]%nat tt)
      as (os & w' & Hrun & _).
    + apply (toy_population toy_numpy tt [NInf; NInf]).
    + reflexivity.
    + cbn. lia.
    + cbn. lia.
    + eauto.
Qed.



(** ** Instances of the further properties *)


Lemma logsumexp_degenerate_witness :
  logsumexp [NInf; NInf] = Ok NaN /\ logsumexp [Fin 0; NaN] = Ok NaN.
Proof.
  split.
  - apply (proj2 logsumexp_degenerate [NInf; NInf]); [discriminate |].
    right; right. repeat constructor.
  - apply (proj2 logsumexp_degenerate [Fin 0; NaN]); [discriminate |].
    left. right. left.
Defined.

Lemma reweight_particles_nan_witness :
  get_log_predictive_likelihood (toy_filter [Fin 0; NaN] (Fin (1 / 2)))
    (toy_world toy_numpy tt [Fin 0; NaN])
    = Ok (NaN, toy_world toy_numpy tt [Fin 0; NaN]) /\
  exists w',
    reweight_particles (toy_filter [Fin 0; NaN] (Fin (1 / 2)))
      (toy_world toy_numpy tt [Fin 0; NaN])
      = Ok (toy_filter [Fin 0; NaN] (Fin (1 / 2)), w') /\
    has_lweights w' [0; 1]%nat [NaN; NaN].
Proof.
  destruct (reweight_particles_nan (toy_filter [Fin 0; NaN] (Fin (1 / 2)))
              (toy_world toy_numpy tt [Fin 0; NaN]) [Fin 0; NaN])
    as (Hlpl & w' & Hrun & Hw & _).
  - apply (toy_population toy_numpy tt [Fin 0; NaN]).
  - apply (toy_population toy_numpy tt [Fin 0; NaN]).
  - right. left.
  - split; [exact Hlpl |]. exists w'. split; [exact Hrun | exact Hw].
Defined.




Lemma log_ped_gaussian_witness :
  exists lp,
    log_ped 0%nat (Fin 2) (np_array1 [Fin 0]) (np_array1 [Fin 0])
      (toy_world toy_numpy tt [Fin 0])
      = Ok (lp, toy_world toy_numpy tt [Fin 0]).
Proof.
  destruct (log_ped 0%nat (Fin 2) (np_array1 [Fin 0]) (np_array1 [Fin 0])
      (toy_world toy_numpy tt [Fin 0]))
    as [[lp w'] | e] eqn:Hrun.
  - exists lp. destruct (log_ped_gaussian _ _ _ _ _ _ _ Hrun) as [-> _]. reflexivity.
  - exfalso. revert Hrun. run_program. discriminate.
Defined.

Lemma increment_effect_witness :
  exists w',
    increment 0%nat (Fin 2) (Fin 0) (Fin 1) (toy_world toy_numpy tt [Fin 0])
      = Ok (tt, w') /\
    forall r a, arrs (toy_world toy_numpy tt [Fin 0]) !! r = Some a ->
                arrs w' !! r = Some a.
Proof.
  destruct (increment 0%nat (Fin 2) (Fin 0) (Fin 1) (toy_world toy_numpy tt [Fin 0]))
    as [[[] w'] | e] eqn:Hrun.
  - exists w'. split; [reflexivity |].
    apply (increment_effect _ _ _ _ _ _ Hrun).
  - exfalso. revert Hrun. run_program. discriminate.
Defined.

Lemma increment_particles_unshares_witness :
  exists self' w',
    increment_particles (toy_filter [Fin 0; Fin 0] (Fin (1 / 2)))
      (toy_world toy_numpy tt [Fin 0; Fin 0]) = Ok (self', w') /\
    length (arrs w') = 16%nat.
Proof.
  destruct (increment_particles (toy_filter [Fin 0; Fin 0] (Fin (1 / 2)))
              (toy_world toy_numpy tt [Fin 0; Fin 0]))
    as [[self' w'] | e] eqn:Hrun.
  - exists self', w'. split; [reflexivity |].
    destruct (increment_particles_unshares
                (toy_filter [Fin 0; Fin 0] (Fin (1 / 2))) self'
                (toy_world toy_numpy tt [Fin 0; Fin 0]) w'
                (proj1 (proj1 (toy_population toy_numpy tt [Fin 0; Fin 0]))) Hrun)
      as (_ & Hlen & _).
    exact Hlen.
  - exfalso. revert Hrun. run_program. discriminate.
Defined.

Lemma increment_particles_cursor_witness :
  increment_particles
    (with_cursor (toy_filter [Fin 0] (Fin (1 / 2))) (Fin 2) [] (Fin 1) [])
    (toy_world toy_numpy tt [Fin 0]) = Raise StopIteration /\
  exists self' w',
    increment_particles (toy_filter [Fin 0] (Fin (1 / 2)))
      (toy_world toy_numpy tt [Fin 0]) = Ok (self', w') /\
    pricegen self' = [] /\ current_price self' = Fin 2.
Proof.
  split.
  - apply (proj1 (increment_particles_cursor _ _)). left. reflexivity.
  - destruct (increment_particles (toy_filter [Fin 0] (Fin (1 / 2)))
                (toy_world toy_numpy tt [Fin 0])) as [[self' w'] | e] eqn:Hrun.
    + exists self', w'. split; [reflexivity |].
      destruct (proj2 (increment_particles_cursor _ _) _ _ Hrun) as (Hp & _).
      cbn in Hp. injection Hp as <- <-. split; reflexivity.
    + exfalso. revert Hrun. run_program. discriminate.
Defined.

Lemma run_filter_exhaustion_witness :
  exists self0 w1,
    RBPF_init (Fin 0) (Fin 1) (Fin 1) (Fin 1) (Fin 1) (Fin (- 1))
      [(Fin 0, Fin 0); (Fin 1, Fin 2)] 1 10 (Fin (1 / 2))
      (toy_world toy_numpy tt []) = Ok (self0, w1) /\
    run_filter self0 false w1 <> Raise StopIteration.
Proof.
  destruct (RBPF_init (Fin 0) (Fin 1) (Fin 1) (Fin 1) (Fin 1) (Fin (- 1))
              [(Fin 0, Fin 0); (Fin 1, Fin 2)] 1 10 (Fin (1 / 2))
              (toy_world toy_numpy tt [])) as [[self0 w1] | e] eqn:Hinit;
    [| discriminate Hinit].
  exists self0, w1. split; [reflexivity |].
  apply (run_filter_exhaustion _ _ _ _ _ _ _ _ _ _ _ _ _ false Hinit).
Defined.


Lemma run_filter_history_witness :
  exists self' h lml w',
    run_filter (toy_filter [Fin 0] (Fin (1 / 2))) true (toy_world toy_numpy tt [Fin 0])
      = Ok ((self', Some h, lml), w') /\
    length (state_means h) = 2%nat.
Proof.
  assert (Hrun : exists r,
            run_filter (toy_filter [Fin 0] (Fin (1 / 2))) true
              (toy_world toy_numpy tt [Fin 0]) = Ok r).
  { run_program.
    match goal with |- context [if ?c then _ else _] => destruct c end;
      eexists; reflexivity. }
  destruct Hrun as [[[[self' oh] lml] w'] Hrun].
  destruct (run_filter_history _ _ _ _ _ _ _ Hrun)
    as (_ & h & sms & svs & gms & gvs & -> & Hsm & _ & _ & _ & Hlen & _).
  exists self', h, lml, w'. split; [exact Hrun |].
  rewrite Hsm. cbn [length]. rewrite Hlen. reflexivity.
Defined.


Lemma run_filter_degenerate_witness :
  exists self w',
    RBPF_init (Fin 0) (Fin 1) (Fin 1) (Fin 1) (Fin 1) (Fin (- 1))
      [(Fin 0, Fin 0); (Fin 1, Fin 2)] 0 10 (Fin (1 / 2))
      (toy_world toy_numpy tt []) = Ok (self, w') /\
    run_filter self false w' = Raise ValueError.
Proof.
  destruct (RBPF_init (Fin 0) (Fin 1) (Fin 1) (Fin 1) (Fin 1) (Fin (- 1))
              [(Fin 0, Fin 0); (Fin 1, Fin 2)] 0 10 (Fin (1 / 2))
              (toy_world toy_numpy tt [])) as [[self w'] | e] eqn:Hinit;
    [| discriminate Hinit].
  exists self, w'. split; [reflexivity |].
  apply (proj2 (run_filter_degenerate _ _ _ _ _ _ _ _ _ _ _ _ _ false Hinit)).
  - lia.
  - cbn. lia.
Defined.

Lemma accessors_pure_witness :
  get_logPn2 (toy_filter [] (Fin (1 / 2))) (toy_world toy_numpy tt [])
    = Ok (PInf, toy_world toy_numpy tt []) /\
  get_logDninf (toy_filter [] (Fin (1 / 2))) (toy_world toy_numpy tt [])
    = Raise ValueError.
Proof.
  destruct (accessors_pure (toy_filter [] (Fin (1 / 2))) (toy_world toy_numpy tt []))
    as (_ & _ & _ & _ & _ & Hempty).
  destruct (Hempty eq_refl) as (HP & HD & _). split; assumption.
Defined.

Lemma RBPF_init_particles_witness :
  exists self w',
    RBPF_init (Fin 0) (Fin 1) (Fin 1) (Fin 1) (Fin 1) (Fin (- 1))
      [(Fin 0, Fin 0); (Fin 1, Fin 2)] 2 10 (Fin (1 / 2))
      (toy_world toy_numpy tt []) = Ok (self, w') /\
    length (particles self) = 2%nat /\ population w' (particles self).
Proof.
  destruct (RBPF_init (Fin 0) (Fin 1) (Fin 1) (Fin 1) (Fin 1) (Fin (- 1))
              [(Fin 0, Fin 0); (Fin 1, Fin 2)] 2 10 (Fin (1 / 2))
              (toy_world toy_numpy tt [])) as [[self w'] | e] eqn:Hinit;
    [| discriminate Hinit].
  exists self, w'. split; [reflexivity |].
  destruct (RBPF_init_particles _ _ _ _ _ _ _ _ _ _ _ _ _ Hinit)
    as (Hlen & Hpop & _).
  split; [exact Hlen | exact Hpop].
Defined.



Lemma RBPF_init_errors_witness :
  RBPF_init (Fin 0) (Fin 1) (Fin 1) (Fin 1) (Fin 1) (Fin (- 1)) [] 1 10 (Fin (1 / 2))
    (toy_world toy_numpy tt []) = Raise KeyError.
Proof.
  apply (proj1 (RBPF_init_errors (Fin 0) (Fin 1) (Fin 1) (Fin 1) (Fin 1) (Fin (- 1))
                  [] 1 10 (Fin (1 / 2)) (toy_world toy_numpy tt []))).
  reflexivity.
Defined.

Lemma driver_step_resamples_witness :
  exists rbpf' sms svs w',
    driver_step (toy_filter [Fin 0; Fin 0] (Fin (1 / 2)), [], [])
      (toy_world toy_numpy tt [Fin 0; Fin 0]) = Ok ((rbpf', sms, svs), w') /\
    Z.of_nat (length (particles rbpf')) = 2%Z /\
    log_marginal_likelihood rbpf' = Fin 0.
Proof.
  destruct (driver_step (toy_filter [Fin 0; Fin 0] (Fin (1 / 2)), [], [])
              (toy_world toy_numpy tt [Fin 0; Fin 0]))
    as [[[[rbpf' sms] svs] w'] | e] eqn:Hrun.
  - destruct (driver_step_resamples
                (toy_filter [Fin 0; Fin 0] (Fin (1 / 2))) rbpf' [] [] sms svs
                (toy_world toy_numpy tt [Fin 0; Fin 0]) w' lax_multinomial_sound
                (proj1 (toy_population toy_numpy tt [Fin 0; Fin 0])) eq_refl Hrun)
      as (_ & Hlml & _ & Hlen & _).
    exists rbpf', sms, svs, w'. split; [reflexivity |].
    split; [exact Hlen | exact Hlml].
  - exfalso. revert Hrun. run_program. discriminate.
Defined.


Lemma run_filter_population_witness :
  exists self0 w1 self' oh lml w',
    RBPF_init (Fin 0) (Fin 1) (Fin 1) (Fin 1) (Fin 1) (Fin (- 1))
      [(Fin 0, Fin 0); (Fin 1, Fin 2)] 1 10 (Fin (1 / 2))
      (toy_world toy_numpy tt []) = Ok (self0, w1) /\
    run_filter self0 false w1 = Ok ((self', oh, lml), w') /\
    Z.of_nat (length (particles self')) = 1%Z.
Proof.
  destruct (RBPF_init (Fin 0) (Fin 1) (Fin 1) (Fin 1) (Fin 1) (Fin (- 1))
              [(Fin 0, Fin 0); (Fin 1, Fin 2)] 1 10 (Fin (1 / 2))
              (toy_world toy_numpy tt [])) as [[self0 w1] | e] eqn:Hinit;
    [| discriminate Hinit].
  assert (Hrun : exists r, run_filter self0 false w1 = Ok r).
  { pose proof Hinit as Hvalue.
    lazy -[fadd fsub fmul fdiv fneg fexp flog fsquare flt fmax nan_to_num IZR
           Rdiv Rmult Rplus Ropp Rinv exp ln PI] in Hvalue.
    injection Hvalue as <- <-. run_program.
    match goal with |- context [if ?c then _ else _] => destruct c end;
      eexists; reflexivity. }
  destruct Hrun as [[[[self' oh] lml] w'] Hrun].
  exists self0, w1, self', oh, lml, w'. split; [reflexivity |]. split; [exact Hrun |].
  destruct (run_filter_population (Fin 0) (Fin 1) (Fin 1) (Fin 1) (Fin 1) (Fin (- 1))
              [(Fin 0, Fin 0); (Fin 1, Fin 2)] 1 10 (Fin (1 / 2))
              (toy_world toy_numpy tt []) w1 w' self0 self' false oh lml
              lax_multinomial_sound ltac:(lia) Hinit Hrun)
    as (_ & Hsize & _).
  exact Hsize.
Defined.

End Examples.
